(** * Temporal activation cache with dependency-graph invalidation

    A shallow embedding of [backend/app/services/research/temporal_cache.py]:
    the [DependencyGraph], the [TemporalCache] and the [SparseInferenceEngine],
    followed by the properties of the three classes.

    Conventions of the embedding.
    - A Python [set] of strings is a [gset string]; a loop over a set goes
      through the set in the order given by a [SetOrder], which stands for
      the (unspecified) iteration order of the interpreter.
    - The [dict] held by the cache keeps insertion order, which [min] over
      its keys observes: it is an association list with distinct keys.
    - A method that mutates [self] takes the object and returns the new
      object; a method that can raise returns the object as it is when the
      exception leaves the method, together with an [outcome].
    - A [while] loop that may not terminate takes fuel and answers
      [OutOfFuel] when the fuel is spent.
    - [time.time()] is an input: the cache methods take the reading [now];
      the engine reads an oracle [time_time].  Only the order of the readings
      is used by the code, they are integers here.
    - A [torch.Tensor] is known by its element size and its number of
      elements; the samples themselves come from [torch.randn] and no
      method looks at them. *)

From Stdlib Require Import ZArith QArith String Ascii Decimal DecimalString DecimalZ.
From stdpp Require Import base gmap sets list strings sorting relations.

Set Warnings "-clear-no-such-hyp".

Local Open Scope string_scope.
Local Open Scope list_scope.
Local Open Scope Z_scope.

(** ** Python values and exceptions *)

Inductive PyError : Type :=
  | ZeroDivisionError
  | TypeError       (* item assignment on [None] *)
  | RuntimeError    (* torch: negative dimension, shape mismatch *)
  | ValueError      (* [min] of an empty sequence, [int] of a non-number *)
  | IndexError.     (* list index out of range *)

Inductive outcome (A : Type) : Type :=
  | Ok (a : A)
  | Raise (e : PyError)
  | OutOfFuel.
Arguments Ok {A} a.
Arguments Raise {A} e.
Arguments OutOfFuel {A}.

(** [str(i)] for an [int], as the f-string [f"frame_{i}"] prints it. *)
Definition py_str (i : Z) : string := NilZero.string_of_int (Z.to_int i).

(** [int(s)] for the strings [py_str] prints: an optional minus sign and
    decimal digits.  (Python also accepts surrounding blanks, a plus sign and
    underscores between digits; no such string is built by this module.) *)
Definition py_int (s : string) : outcome Z :=
  match NilZero.int_of_string s with
  | Some d => Ok (Z.of_int d)
  | None => Raise ValueError
  end.

(** [s.split(sep)] for a separator of one character: the pieces between
    the separators, empty pieces included. *)
Fixpoint py_split (sep : ascii) (s : string) : list string :=
  match s with
  | EmptyString => [EmptyString]
  | String c s' =>
      if Ascii.eqb c sep then EmptyString :: py_split sep s'
      else match py_split sep s' with
           | [] => [String c EmptyString]
           | piece :: pieces => String c piece :: pieces
           end
  end.

(** [range(a, b)] *)
Definition py_range (a b : Z) : list Z := seqZ a (b - a).

(** Length of the slice [x[start:stop]] of a sequence of length [len]:
    a negative bound counts from the end, and both are clipped. *)
Definition py_slice_bound (len i : Z) : Z :=
  if decide (i < 0) then Z.max 0 (len + i) else Z.min i len.
Definition py_slice_len (len start stop : Z) : Z :=
  Z.max 0 (py_slice_bound len stop - py_slice_bound len start).

(** [sorted(xs)] on strings: Python compares strings character by
    character, by code point. *)
Definition py_sorted (xs : list string) : list string := merge_sort String.le xs.

(** The iteration order of sets. *)
Record SetOrder : Type := {
  enum : gset string → list string;
  enum_perm : ∀ X, enum X ≡ₚ elements X
}.

Definition elements_order : SetOrder :=
  {| enum := elements; enum_perm := λ X, reflexivity (elements X) |}.

(** ** Tensors *)

Record Tensor : Type := {
  element_size : N;   (* bytes per element *)
  nelement : N        (* number of elements *)
}.

(** [torch.randn(1, n)]: float32 samples; a negative dimension raises. *)
Definition torch_randn (n : Z) : outcome Tensor :=
  if decide (n < 0) then Raise RuntimeError
  else Ok {| element_size := 4; nelement := Z.to_N n |}.

(** [t[:, a:b]] on a tensor of shape (1, n). *)
Definition tensor_slice (t : Tensor) (a b : Z) : Tensor :=
  {| element_size := element_size t;
     nelement := Z.to_N (py_slice_len (Z.of_N (nelement t)) a b) |}.

(** [t[:, a:b] = src] with [src] of shape (1, m): the source is broadcast to
    the shape of the slice, which works when the sizes agree or [m = 1]. *)
Definition tensor_assign_ok (t : Tensor) (a b : Z) (src : Tensor) : bool :=
  bool_decide (py_slice_len (Z.of_N (nelement t)) a b = Z.of_N (nelement src))
  || bool_decide (nelement src = 1%N).

(** ** Data classes *)

Record CacheEntry : Type := {
  timestamp : Z;
  activations : Tensor;
  dependencies : gset string;
  hit_count : Z;
  size_bytes : Z
}.

Record EditOperation : Type := {
  edit_id : string;
  edit_type : string;
  affected_region : Z * Z
}.

(** ** DependencyGraph *)

Record DependencyGraph : Type := {
  graph : gmap string (gset string);          (* node -> dependencies *)
  reverse_graph : gmap string (gset string)   (* node -> dependents *)
}.

Definition DependencyGraph_init : DependencyGraph :=
  {| graph := ∅; reverse_graph := ∅ |}.

Definition add_dependency (g : DependencyGraph) (node_id depends_on : string)
  : DependencyGraph :=
  {| graph := <[node_id := {[depends_on]} ∪ default ∅ (graph g !! node_id)]> (graph g);
     reverse_graph :=
       <[depends_on := {[node_id]} ∪ default ∅ (reverse_graph g !! depends_on)]>
         (reverse_graph g) |}.

Definition get_dependencies (g : DependencyGraph) (node_id : string) : gset string :=
  default ∅ (graph g !! node_id).

Definition get_dependents (g : DependencyGraph) (node_id : string) : gset string :=
  default ∅ (reverse_graph g !! node_id).

(** The inner [for dependent in dependents] of [get_affected_nodes]. *)
Definition visit_dependents (affected : gset string) (queue : list string)
    (dependents : list string) : gset string * list string :=
  foldl (λ aq dependent,
           if decide (dependent ∈ aq.1) then aq
           else ({[dependent]} ∪ aq.1, aq.2 ++ [dependent]))
        (affected, queue) dependents.

(** The [while queue] loop.  [visited] records the nodes popped from the
    queue, in order; the source does not keep it. *)
Fixpoint bfs_loop (o : SetOrder) (fuel : nat) (g : DependencyGraph)
    (affected : gset string) (queue visited : list string)
  : option (gset string * list string) :=
  match queue with
  | [] => Some (affected, visited)
  | node :: queue' =>
      match fuel with
      | O => None
      | S fuel' =>
          let aq := visit_dependents affected queue' (enum o (get_dependents g node)) in
          bfs_loop o fuel' g aq.1 aq.2 (visited ++ [node])
      end
  end.

(** Every node that is a dependent of some node. *)
Definition all_dependents (g : DependencyGraph) : gset string :=
  ⋃ (map_to_list (reverse_graph g)).*2.

(** Enough iterations for the loop: each node is queued at most once. *)
Definition bfs_fuel (g : DependencyGraph) (changed_nodes : gset string) : nat :=
  size (changed_nodes ∪ all_dependents g).

Definition get_affected_nodes_trace (o : SetOrder) (g : DependencyGraph)
    (changed_nodes : gset string) : option (gset string * list string) :=
  bfs_loop o (bfs_fuel g changed_nodes) g changed_nodes (enum o changed_nodes) [].

Definition get_affected_nodes (o : SetOrder) (g : DependencyGraph)
    (changed_nodes : gset string) : option (gset string) :=
  fst <$> get_affected_nodes_trace o g changed_nodes.

(** Frame identifiers, [f"frame_{i}"]. *)
Definition frame_id (i : Z) : string := "frame_" +:+ py_str i.

(** [int(frame_id.split('_')[1])] *)
Definition frame_index (fid : string) : outcome Z :=
  match py_split "_"%char fid !! 1%nat with
  | Some s => py_int s
  | None => Raise IndexError
  end.

(** The graph [generate_full] builds for [n] frames: [frame_i -> frame_(i-1)]. *)
Definition chain_graph (n : Z) : DependencyGraph :=
  foldl (λ g i, add_dependency g (frame_id i) (frame_id (i - 1)))
        DependencyGraph_init (py_range 1 n).

(** ** Dictionaries

    [self.cache] is a [dict]: keys are distinct and iteration follows the
    order of first insertion. *)

Section dict.
Context {V : Type}.

(** [d[key]], [key in d] *)
Fixpoint dict_lookup (key : string) (d : list (string * V)) : option V :=
  match d with
  | [] => None
  | (k, v) :: d' => if decide (k = key) then Some v else dict_lookup key d'
  end.

(** [d[key] = v]: a present key keeps its place, a new key goes last. *)
Fixpoint dict_set (key : string) (v : V) (d : list (string * V)) : list (string * V) :=
  match d with
  | [] => [(key, v)]
  | (k, v') :: d' =>
      if decide (k = key) then (k, v) :: d' else (k, v') :: dict_set key v d'
  end.

(** [del d[key]] *)
Fixpoint dict_del (key : string) (d : list (string * V)) : list (string * V) :=
  match d with
  | [] => []
  | (k, v) :: d' => if decide (k = key) then d' else (k, v) :: dict_del key d'
  end.

(** [min(d.keys(), key=lambda k: f(d[k]))]: the first of the smallest. *)
Fixpoint min_from (f : V → Z) (best : string * V) (d : list (string * V)) : string * V :=
  match d with
  | [] => best
  | kv :: d' => if decide (f kv.2 < f best.2) then min_from f kv d' else min_from f best d'
  end.
Definition dict_min (f : V → Z) (d : list (string * V)) : option (string * V) :=
  match d with
  | [] => None
  | kv :: d' => Some (min_from f kv d')
  end.
End dict.

(** ** TemporalCache *)

Record TemporalCache : Type := {
  max_size_bytes : Z;
  eviction_policy : string;
  cache : list (string * CacheEntry);
  current_size_bytes : Z;
  hits : Z;
  misses : Z;
  evictions : Z
}.

(** [int(x)] of a float, given as a rational: truncation towards zero. *)
Definition py_int_of_Q (x : Q) : Z := Z.quot (Qnum x) (Z.pos (Qden x)).

(** [__init__]: [max_size_bytes = int(max_size_mb * 1024 * 1024)]; the
    product by a power of two is exact on floats. *)
Definition TemporalCache_init (max_size_mb : Q) (eviction_policy : string) : TemporalCache :=
  {| max_size_bytes := py_int_of_Q (max_size_mb * 1024 * 1024)%Q;
     eviction_policy := eviction_policy;
     cache := [];
     current_size_bytes := 0;
     hits := 0; misses := 0; evictions := 0 |}.

Definition with_cache (c : TemporalCache) (d : list (string * CacheEntry)) (size : Z)
  : TemporalCache :=
  {| max_size_bytes := max_size_bytes c; eviction_policy := eviction_policy c;
     cache := d; current_size_bytes := size;
     hits := hits c; misses := misses c; evictions := evictions c |}.

Definition get (c : TemporalCache) (key : string) (now : Z)
  : TemporalCache * option Tensor :=
  match dict_lookup key (cache c) with
  | Some entry =>
      let entry' := {| timestamp := now; activations := activations entry;
                       dependencies := dependencies entry;
                       hit_count := hit_count entry + 1;
                       size_bytes := size_bytes entry |} in
      ({| max_size_bytes := max_size_bytes c; eviction_policy := eviction_policy c;
          cache := dict_set key entry' (cache c);
          current_size_bytes := current_size_bytes c;
          hits := hits c + 1; misses := misses c; evictions := evictions c |},
       Some (activations entry))
  | None =>
      ({| max_size_bytes := max_size_bytes c; eviction_policy := eviction_policy c;
          cache := cache c; current_size_bytes := current_size_bytes c;
          hits := hits c; misses := misses c + 1; evictions := evictions c |},
       None)
  end.

(** The body shared by the two branches of [_evict_one]; [min] raises
    [ValueError] on an empty sequence. *)
Definition evict_min (f : CacheEntry → Z) (c : TemporalCache)
  : TemporalCache * outcome unit :=
  match dict_min f (cache c) with
  | None => (c, Raise ValueError)
  | Some (k, entry) =>
      ({| max_size_bytes := max_size_bytes c; eviction_policy := eviction_policy c;
          cache := dict_del k (cache c);
          current_size_bytes := current_size_bytes c - size_bytes entry;
          hits := hits c; misses := misses c; evictions := evictions c + 1 |},
       Ok tt)
  end.

Definition _evict_one (c : TemporalCache) : TemporalCache * outcome unit :=
  if decide (eviction_policy c = "lru") then evict_min timestamp c
  else if decide (eviction_policy c = "lfu") then evict_min hit_count c
  else (c, Ok tt).

(** The [while] loop of [put].  The answer [Ok true] is the exit of the loop,
    [Ok false] the [return] inside it. *)
Fixpoint put_evict_loop (fuel : nat) (size : Z) (c : TemporalCache)
  : TemporalCache * outcome bool :=
  if decide (current_size_bytes c + size > max_size_bytes c) then
    match cache c with
    | [] => (c, Ok false)
    | _ :: _ =>
        match fuel with
        | O => (c, OutOfFuel)
        | S fuel' =>
            match _evict_one c with
            | (c', Ok _) => put_evict_loop fuel' size c'
            | (c', Raise e) => (c', Raise e)
            | (c', OutOfFuel) => (c', OutOfFuel)
            end
        end
    end
  else (c, Ok true).

Definition tensor_bytes (t : Tensor) : Z := Z.of_N (element_size t * nelement t).

Definition put_fuel (fuel : nat) (c : TemporalCache) (key : string)
    (activations : Tensor) (dependencies : gset string) (now : Z)
  : TemporalCache * outcome unit :=
  let size := tensor_bytes activations in
  match put_evict_loop fuel size c with
  | (c', Ok true) =>
      let entry := {| timestamp := now; activations := activations;
                      dependencies := dependencies; hit_count := 0;
                      size_bytes := size |} in
      (with_cache c' (dict_set key entry (cache c')) (current_size_bytes c' + size), Ok tt)
  | (c', Ok false) => (c', Ok tt)
  | (c', Raise e) => (c', Raise e)
  | (c', OutOfFuel) => (c', OutOfFuel)
  end.

(** [put] with one unit of fuel per stored entry: a loop that evicts an
    entry at each iteration needs no more. *)
Definition put (c : TemporalCache) (key : string) (activations : Tensor)
    (dependencies : gset string) (now : Z) : TemporalCache * outcome unit :=
  put_fuel (length (cache c)) c key activations dependencies now.

Definition invalidate_key (c : TemporalCache) (key : string) : TemporalCache :=
  match dict_lookup key (cache c) with
  | Some entry =>
      with_cache c (dict_del key (cache c)) (current_size_bytes c - size_bytes entry)
  | None => c
  end.

Definition invalidate (o : SetOrder) (c : TemporalCache) (keys : gset string)
  : TemporalCache :=
  foldl invalidate_key c (enum o keys).

Definition clear (c : TemporalCache) : TemporalCache := with_cache c [] 0.

Record CacheStats : Type := {
  stat_hits : Z;
  stat_misses : Z;
  stat_hit_rate : Q;
  stat_evictions : Z;
  stat_current_size_mb : Q;
  stat_max_size_mb : Q;
  stat_utilization : Q;
  stat_num_entries : Z
}.

(** [get_stats]; the quotients are floats in the source, rationals here.
    [utilization] divides by [max_size_bytes]. *)
Definition get_stats (c : TemporalCache) : outcome CacheStats :=
  let total_requests := hits c + misses c in
  let hit_rate := if decide (total_requests > 0)
                  then (inject_Z (hits c) / inject_Z total_requests)%Q else 0%Q in
  if decide (max_size_bytes c = 0) then Raise ZeroDivisionError
  else Ok {| stat_hits := hits c; stat_misses := misses c; stat_hit_rate := hit_rate;
             stat_evictions := evictions c;
             stat_current_size_mb := (inject_Z (current_size_bytes c) / 1024 / 1024)%Q;
             stat_max_size_mb := (inject_Z (max_size_bytes c) / 1024 / 1024)%Q;
             stat_utilization :=
               (inject_Z (current_size_bytes c) / inject_Z (max_size_bytes c))%Q;
             stat_num_entries := Z.of_nat (length (cache c)) |}.

(** The bytes held by the entries that are in the cache:
    [sum(entry.size_bytes for entry in self.cache.values())]. *)
Definition dict_bytes (d : list (string * CacheEntry)) : Z :=
  foldr (λ kv acc, size_bytes kv.2 + acc) 0 d.
Definition stored_bytes (c : TemporalCache) : Z := dict_bytes (cache c).

(** A sequence of calls on a cache. *)
Inductive cache_op : Type :=
  | OpGet (key : string) (now : Z)
  | OpPut (key : string) (activations : Tensor) (dependencies : gset string) (now : Z)
  | OpInvalidate (keys : gset string)
  | OpClear
  | OpEvictOne.

Definition run_op (o : SetOrder) (c : TemporalCache) (op : cache_op)
  : TemporalCache * outcome unit :=
  match op with
  | OpGet key now => ((get c key now).1, Ok tt)
  | OpPut key activations dependencies now => put c key activations dependencies now
  | OpInvalidate keys => (invalidate o c keys, Ok tt)
  | OpClear => (clear c, Ok tt)
  | OpEvictOne => _evict_one c
  end.

Fixpoint run_ops (o : SetOrder) (c : TemporalCache) (ops : list cache_op)
  : TemporalCache * outcome unit :=
  match ops with
  | [] => (c, Ok tt)
  | op :: ops' =>
      match run_op o c op with
      | (c', Ok _) => run_ops o c' ops'
      | (c', Raise e) => (c', Raise e)
      | (c', OutOfFuel) => (c', OutOfFuel)
      end
  end.

(** ** SparseInferenceEngine *)

Record SparseInferenceEngine : Type := {
  frame_size : Z;
  dependency_graph : DependencyGraph;
  engine_cache : TemporalCache;             (* [self.cache] *)
  current_audio : option Tensor;            (* [None] before [generate_full] *)
  current_length_frames : Z;
  clock : nat;               (* calls made to the cache so far: indexes the time oracle *)
  recomputed : list string   (* frames recomputed by the last [apply_edit], in order *)
}.

(** The last two fields are not in the source: [clock] tells which reading
    of [time.time()] the next call to the cache gets, and [recomputed]
    records each frame for which [apply_edit] draws new samples. *)

Record Metrics : Type := {
  frames_recomputed : Z;
  frames_total : Z;
  recompute_ratio : Q;
  cache_stats : CacheStats
}.
(** [latency_ms] and [speedup] are differences and quotients of wall-clock
    readings; they are left out. *)

(** [__init__]; the cache is built with the default policy. *)
Definition SparseInferenceEngine_init (cache_size_mb : Q) (frame_size : Z)
  : SparseInferenceEngine :=
  {| frame_size := frame_size;
     dependency_graph := DependencyGraph_init;
     engine_cache := TemporalCache_init cache_size_mb "lru";
     current_audio := None;
     current_length_frames := 0;
     clock := O;
     recomputed := [] |}.

(** Methods of the engine: the engine goes in and comes out, with the
    value returned or the exception raised. *)
Definition EngineM (A : Type) : Type :=
  SparseInferenceEngine → SparseInferenceEngine * outcome A.

Global Instance engine_ret : MRet EngineM := λ A a e, (e, Ok a).
Global Instance engine_bind : MBind EngineM := λ A B k m e,
  match m e with
  | (e', Ok a) => k a e'
  | (e', Raise err) => (e', Raise err)
  | (e', OutOfFuel) => (e', OutOfFuel)
  end.

Definition lift {A} (r : outcome A) : EngineM A := λ e, (e, r).
Definition gets {A} (f : SparseInferenceEngine → A) : EngineM A := λ e, (e, Ok (f e)).

Definition set_graph (g : DependencyGraph) : EngineM unit := λ e,
  ({| frame_size := frame_size e; dependency_graph := g;
      engine_cache := engine_cache e; current_audio := current_audio e;
      current_length_frames := current_length_frames e;
      clock := clock e; recomputed := recomputed e |}, Ok tt).

Definition set_cache (c : TemporalCache) (ticks : nat) : EngineM unit := λ e,
  ({| frame_size := frame_size e; dependency_graph := dependency_graph e;
      engine_cache := c; current_audio := current_audio e;
      current_length_frames := current_length_frames e;
      clock := (clock e + ticks)%nat; recomputed := recomputed e |}, Ok tt).

Definition set_audio (audio : Tensor) (num_frames : Z) : EngineM unit := λ e,
  ({| frame_size := frame_size e; dependency_graph := dependency_graph e;
      engine_cache := engine_cache e; current_audio := Some audio;
      current_length_frames := num_frames;
      clock := clock e; recomputed := recomputed e |}, Ok tt).

Definition set_recomputed (l : list string) : EngineM unit := λ e,
  ({| frame_size := frame_size e; dependency_graph := dependency_graph e;
      engine_cache := engine_cache e; current_audio := current_audio e;
      current_length_frames := current_length_frames e;
      clock := clock e; recomputed := l |}, Ok tt).

(** [for x in l: body(x)] *)
Fixpoint for_each {A} (l : list A) (body : A → EngineM unit) : EngineM unit :=
  match l with
  | [] => mret tt
  | x :: l' => body x ≫= λ _, for_each l' body
  end.

(** [a // b] and [int(a / b)] on integers.  The second goes through a
    float in the source; the quotient is exact below 2^53. *)
Definition py_floordiv (a b : Z) : outcome Z :=
  if decide (b = 0) then Raise ZeroDivisionError else Ok (a `div` b).
Definition py_int_truediv (a b : Z) : outcome Z :=
  if decide (b = 0) then Raise ZeroDivisionError else Ok (a `quot` b).

Section engine.
Context (o : SetOrder).
(** [time_time k]: the reading of [time.time()] at the [k]-th call made
    to the cache. *)
Context (time_time : nat → Z).

Definition cache_get (key : string) : EngineM (option Tensor) :=
  e ← gets id;
  let cr := get (engine_cache e) key (time_time (clock e)) in
  set_cache cr.1 1;;
  mret cr.2.

Definition cache_put (key : string) (activations : Tensor)
    (dependencies : gset string) : EngineM unit :=
  e ← gets id;
  let cr := put (engine_cache e) key activations dependencies (time_time (clock e)) in
  set_cache cr.1 1;;
  lift cr.2.

Definition cache_invalidate (keys : gset string) : EngineM unit :=
  e ← gets id;
  set_cache (invalidate o (engine_cache e) keys) 0.

Definition graph_add_dependency (node_id depends_on : string) : EngineM unit :=
  g ← gets dependency_graph;
  set_graph (add_dependency g node_id depends_on).

(** The body of the loop of [generate_full]. *)
Definition generate_frame (audio : Tensor) (i : Z) : EngineM unit :=
  fs ← gets frame_size;
  let frame_start := i * fs in
  let frame_end := (i + 1) * fs in
  let frame_audio := tensor_slice audio frame_start frame_end in
  let fid := frame_id i in
  dependencies ←
    (if decide (i > 0)
     then graph_add_dependency fid (frame_id (i - 1));;
          mret ({[frame_id (i - 1)]} : gset string)
     else mret (∅ : gset string));
  cache_put fid frame_audio dependencies.

(** [generate_full]; [num_samples] is [int(duration_seconds * sample_rate)],
    a float product in the source. *)
Definition generate_full (num_samples : Z) : EngineM Tensor :=
  audio ← lift (torch_randn num_samples);
  fs ← gets frame_size;
  num_frames ← lift (py_floordiv num_samples fs);
  for_each (py_range 0 num_frames) (generate_frame audio);;
  set_audio audio num_frames;;
  mret audio.

(** [all(self.cache.get(dep) is not None for dep in dependencies)]:
    stops at the first miss. *)
Fixpoint all_deps_cached (deps : list string) : EngineM bool :=
  match deps with
  | [] => mret true
  | dep :: deps' =>
      r ← cache_get dep;
      match r with
      | Some _ => all_deps_cached deps'
      | None => mret false
      end
  end.

(** The body of the loop of [apply_edit]. *)
Definition recompute_frame (fid : string) : EngineM unit :=
  frame_idx ← lift (frame_index fid);
  g ← gets dependency_graph;
  let dependencies := get_dependencies g fid in
  cached ← all_deps_cached (enum o dependencies);
  fs ← gets frame_size;
  frame_audio ← (if cached : bool then lift (torch_randn fs) else lift (torch_randn fs));
  done ← gets recomputed;
  set_recomputed (done ++ [fid]);;
  cache_put fid frame_audio dependencies;;
  let frame_start := frame_idx * fs in
  let frame_end := (frame_idx + 1) * fs in
  current ← gets current_audio;
  match current with
  | None => lift (Raise TypeError)
  | Some audio =>
      if tensor_assign_ok audio frame_start frame_end frame_audio
      then mret tt else lift (Raise RuntimeError)
  end.

(** The frames named by [edit.affected_region]. *)
Definition changed_frames (start_frame end_frame : Z) : gset string :=
  list_to_set (frame_id <$> py_range start_frame (end_frame + 1)).

Definition apply_edit (edit : EditOperation) : EngineM (option Tensor * Metrics) :=
  set_recomputed [];;
  fs ← gets frame_size;
  start_frame ← lift (py_int_truediv (affected_region edit).1 fs);
  end_frame ← lift (py_int_truediv (affected_region edit).2 fs);
  let changed := changed_frames start_frame end_frame in
  g ← gets dependency_graph;
  affected_frames ← lift (match get_affected_nodes o g changed with
                          | Some a => Ok a
                          | None => OutOfFuel
                          end);
  cache_invalidate affected_frames;;
  for_each (py_sorted (enum o affected_frames)) recompute_frame;;
  n ← gets current_length_frames;
  ratio ← lift (if decide (n = 0) then Raise ZeroDivisionError
                else Ok (inject_Z (Z.of_nat (size affected_frames)) / inject_Z n)%Q);
  c ← gets engine_cache;
  stats ← lift (get_stats c);
  audio ← gets current_audio;
  mret (audio, {| frames_recomputed := Z.of_nat (size affected_frames);
                  frames_total := n;
                  recompute_ratio := ratio;
                  cache_stats := stats |}).
End engine.

(** * Properties *)

(** ** The dependency graph *)

(** [b] is a dependent of [a]: an edge of the reverse graph. *)
Definition dependent_of (g : DependencyGraph) (a b : string) : Prop :=
  b ∈ get_dependents g a.

(** [x] is a changed node or is reached from one through dependents. *)
Definition downstream (g : DependencyGraph) (changed : gset string) (x : string) : Prop :=
  ∃ c, c ∈ changed ∧ rtc (dependent_of g) c x.

Lemma get_dependents_all g node : get_dependents g node ⊆ all_dependents g.
Proof.
  unfold get_dependents, all_dependents.
  destruct (reverse_graph g !! node) as [s|] eqn:Hs; simpl; [|set_solver].
  intros x Hx. apply elem_of_union_list. exists s. split; [|done].
  apply list_elem_of_fmap. exists (node, s). split; [done|].
  by apply elem_of_map_to_list.
Qed.

Lemma visit_dependents_affected affected queue ds :
  (visit_dependents affected queue ds).1 = affected ∪ list_to_set ds.
Proof.
  unfold visit_dependents. revert affected queue.
  induction ds as [|d ds IH]; intros a q; simpl.
  - set_solver.
  - destruct (decide (d ∈ a)); simpl; rewrite IH; set_solver.
Qed.

Lemma visit_dependents_queue affected queue ds :
  ∃ new, (visit_dependents affected queue ds).2 = queue ++ new
         ∧ NoDup new ∧ ∀ x, x ∈ new ↔ x ∈ ds ∧ x ∉ affected.
Proof.
  unfold visit_dependents. revert affected queue.
  induction ds as [|d ds IH]; intros a q; simpl.
  - exists []. rewrite app_nil_r. split_and!; [done|constructor|]. set_solver.
  - destruct (decide (d ∈ a)) as [Hd|Hd]; simpl.
    + destruct (IH a q) as (new & Hq & Hnd & Hin). exists new.
      split_and!; [done..|]. intros x. rewrite Hin. set_solver.
    + destruct (IH ({[d]} ∪ a) (q ++ [d])) as (new & Hq & Hnd & Hin).
      exists (d :: new). split_and!.
      * by rewrite Hq, <- app_assoc.
      * constructor; [|done]. rewrite Hin. set_solver.
      * intros x. rewrite elem_of_cons, Hin.
        destruct (decide (x = d)) as [->|]; set_solver.
Qed.

Section bfs.
Context (o : SetOrder) (g : DependencyGraph) (changed : gset string).

(** What the loop of [get_affected_nodes] keeps true. *)
Record bfs_inv (affected : gset string) (queue visited : list string) : Prop := {
  inv_nodup : NoDup (visited ++ queue);
  inv_affected : ∀ x, x ∈ affected ↔ x ∈ visited ++ queue;
  inv_changed : changed ⊆ affected;
  inv_sound : ∀ x, x ∈ affected → downstream g changed x;
  inv_closed : ∀ x, x ∈ visited → get_dependents g x ⊆ affected;
  inv_bound : affected ⊆ changed ∪ all_dependents g
}.

Lemma bfs_inv_init : bfs_inv changed (enum o changed) [].
Proof.
  split; simpl.
  - rewrite enum_perm. apply NoDup_elements.
  - intros x. rewrite enum_perm. by rewrite elem_of_elements.
  - done.
  - intros x Hx. exists x. split; [done|constructor].
  - intros x Hx. by apply elem_of_nil in Hx.
  - set_solver.
Qed.

Lemma bfs_inv_length affected queue visited :
  bfs_inv affected queue visited →
  (length (visited ++ queue) ≤ size (changed ∪ all_dependents g))%nat.
Proof.
  intros [Hnd Ha _ _ _ Hb].
  rewrite <- (size_list_to_set (C := gset string)) by done.
  apply subseteq_size. intros x Hx. apply Hb, Ha. set_solver.
Qed.

Lemma bfs_inv_step affected node queue visited :
  bfs_inv affected (node :: queue) visited →
  let aq := visit_dependents affected queue (enum o (get_dependents g node)) in
  bfs_inv aq.1 aq.2 (visited ++ [node]).
Proof.
  intros Hinv aq. subst aq.
  destruct Hinv as [Hnd Ha Hc Hs Hcl Hb].
  destruct (visit_dependents_queue affected queue (enum o (get_dependents g node)))
    as (new & Hq & Hndnew & Hnew).
  rewrite visit_dependents_affected, Hq.
  assert (Hdeps : ∀ x, x ∈ (list_to_set (enum o (get_dependents g node)) : gset string)
                       ↔ x ∈ get_dependents g node).
  { intros x. rewrite elem_of_list_to_set, enum_perm. apply elem_of_elements. }
  assert (Hnode : node ∈ affected) by (apply Ha; set_solver).
  split.
  - rewrite <- app_assoc. simpl. rewrite app_comm_cons, app_assoc.
    apply NoDup_app. split_and!; [done| |done].
    intros x Hx Hx'. apply Hnew in Hx' as [_ Hx']. apply Hx', Ha. done.
  - intros x. rewrite elem_of_union, Hdeps, Ha.
    rewrite !elem_of_app, elem_of_cons, list_elem_of_singleton, Hnew, Ha.
    rewrite enum_perm, elem_of_elements, elem_of_app, elem_of_cons.
    destruct (decide (x ∈ visited)), (decide (x = node)), (decide (x ∈ queue));
      tauto.
  - set_solver.
  - intros x [Hx|Hx]%elem_of_union; [by apply Hs|].
    apply Hdeps in Hx. destruct (Hs node Hnode) as (c & Hc1 & Hc2).
    exists c. split; [done|]. eapply rtc_r; [done|]. done.
  - intros x [Hx| ->%list_elem_of_singleton]%elem_of_app.
    + specialize (Hcl x Hx). set_solver.
    + intros y Hy. apply elem_of_union. right. by apply Hdeps.
  - intros x [Hx|Hx]%elem_of_union; [by apply Hb|].
    apply Hdeps in Hx. apply elem_of_union. right.
    by apply (get_dependents_all g node).
Qed.

(** The loop ends within the fuel that [get_affected_nodes] gives it. *)
Lemma bfs_loop_inv fuel affected queue visited :
  bfs_inv affected queue visited →
  (size (changed ∪ all_dependents g) ≤ fuel + length visited)%nat →
  ∃ affected' visited',
    bfs_loop o fuel g affected queue visited = Some (affected', visited')
    ∧ bfs_inv affected' [] visited'.
Proof.
  revert affected queue visited.
  induction fuel as [|fuel IH]; intros a q v Hinv Hfuel.
  - destruct q as [|node q]; simpl; [by eauto|].
    apply bfs_inv_length in Hinv. rewrite length_app in Hinv. simpl in *. lia.
  - destruct q as [|node q]; simpl; [by eauto|].
    apply IH.
    + by apply bfs_inv_step.
    + rewrite length_app. simpl. lia.
Qed.

Lemma bfs_inv_final affected visited :
  bfs_inv affected [] visited →
  (∀ x, x ∈ affected ↔ downstream g changed x)
  ∧ NoDup visited ∧ (∀ x, x ∈ visited ↔ x ∈ affected).
Proof.
  intros [Hnd Ha Hc Hs Hcl Hb]. rewrite app_nil_r in *.
  split_and!; [|done|by intros x; rewrite Ha].
  intros x. split; [apply Hs|].
  intros (c & Hc1 & Hc2). apply Hc in Hc1.
  induction Hc2 as [c|c y z Hcy Hyz IH]; [done|].
  apply IH. apply (Hcl c); [|done]. by apply Ha.
Qed.

Lemma get_affected_nodes_trace_spec :
  ∃ affected visited,
    get_affected_nodes_trace o g changed = Some (affected, visited)
    ∧ (∀ x, x ∈ affected ↔ downstream g changed x)
    ∧ NoDup visited ∧ (∀ x, x ∈ visited ↔ x ∈ affected).
Proof.
  destruct (bfs_loop_inv (bfs_fuel g changed) changed (enum o changed) [])
    as (a & v & Hrun & Hinv).
  - apply bfs_inv_init.
  - unfold bfs_fuel. simpl. lia.
  - exists a, v. split; [done|]. by apply bfs_inv_final.
Qed.

Lemma get_affected_nodes_spec :
  ∃ affected, get_affected_nodes o g changed = Some affected
              ∧ ∀ x, x ∈ affected ↔ downstream g changed x.
Proof.
  destruct get_affected_nodes_trace_spec as (a & v & Hrun & Ha & _).
  exists a. unfold get_affected_nodes. rewrite Hrun. done.
Qed.
End bfs.

(** The set returned does not depend on the iteration order. *)
Lemma get_affected_nodes_order o1 o2 g changed :
  get_affected_nodes o1 g changed = get_affected_nodes o2 g changed.
Proof.
  destruct (get_affected_nodes_spec o1 g changed) as (a1 & -> & H1).
  destruct (get_affected_nodes_spec o2 g changed) as (a2 & -> & H2).
  f_equal. apply set_eq. intros x. by rewrite H1, H2.
Qed.

Lemma downstream_changed g changed x : x ∈ changed → downstream g changed x.
Proof. intros Hx. exists x. split; [done|constructor]. Qed.

Lemma downstream_cases g changed x :
  downstream g changed x → x ∈ changed ∨ x ∈ all_dependents g.
Proof.
  intros (c & Hc & Hrtc). apply rtc_inv_r in Hrtc as [->|(y & _ & Hy)]; [by left|].
  right. by apply (get_dependents_all g y).
Qed.

(** ** Dictionaries *)

Section dict_facts.
Context {V : Type}.
Implicit Types (d : list (string * V)) (k : string) (v : V).

Lemma dict_lookup_Some_elem k v d : dict_lookup k d = Some v → (k, v) ∈ d.
Proof.
  induction d as [|[k' v'] d IH]; simpl; [done|].
  destruct (decide (k' = k)) as [->|]; [intros [= ->]; left|right; auto].
Qed.

Lemma dict_lookup_None_keys k d : dict_lookup k d = None ↔ k ∉ d.*1.
Proof.
  induction d as [|[k' v'] d IH]; simpl.
  - split; [intros _ H; by apply elem_of_nil in H|done].
  - rewrite not_elem_of_cons. destruct (decide (k' = k)) as [->|]; [|rewrite IH];
      naive_solver.
Qed.

Lemma dict_elem_lookup k v d : NoDup d.*1 → (k, v) ∈ d → dict_lookup k d = Some v.
Proof.
  induction d as [|[k' v'] d IH]; simpl; [by intros _ H%elem_of_nil|].
  intros [Hk Hnd]%NoDup_cons [[= -> ->]|Hin]%elem_of_cons.
  - by rewrite decide_True.
  - rewrite decide_False; [by apply IH|].
    intros ->. apply Hk. apply list_elem_of_fmap. by exists (k, v).
Qed.

Lemma dict_lookup_set k k' v d :
  dict_lookup k' (dict_set k v d) = if decide (k = k') then Some v else dict_lookup k' d.
Proof.
  induction d as [|[k0 v0] d IH]; simpl.
  - by destruct (decide (k = k')).
  - destruct (decide (k0 = k)) as [->|Hk0]; simpl.
    + by destruct (decide (k = k')).
    + destruct (decide (k0 = k')) as [->|]; [by rewrite decide_False|done].
Qed.

Lemma dict_set_keys k v d :
  (dict_set k v d).*1 = match dict_lookup k d with Some _ => d.*1 | None => d.*1 ++ [k] end.
Proof.
  induction d as [|[k0 v0] d IH]; csimpl; [done|].
  destruct (decide (k0 = k)) as [->|]; csimpl; [done|].
  rewrite IH. by destruct (dict_lookup k d).
Qed.

Lemma dict_set_NoDup k v d : NoDup d.*1 → NoDup (dict_set k v d).*1.
Proof.
  intros Hnd. rewrite dict_set_keys.
  destruct (dict_lookup k d) eqn:Hk; [done|].
  apply NoDup_app. split_and!; [done| |apply NoDup_singleton].
  intros x Hx ->%list_elem_of_singleton. by apply dict_lookup_None_keys in Hk.
Qed.

Lemma dict_set_elem kv k v d : kv ∈ dict_set k v d → kv = (k, v) ∨ kv ∈ d.
Proof.
  induction d as [|[k0 v0] d IH]; simpl.
  - intros ->%list_elem_of_singleton. by left.
  - destruct (decide (k0 = k)) as [->|]; rewrite !elem_of_cons; naive_solver.
Qed.

Lemma dict_set_length k v d :
  length (dict_set k v d)
  = match dict_lookup k d with Some _ => length d | None => S (length d) end.
Proof.
  induction d as [|[k0 v0] d IH]; simpl; [done|].
  destruct (decide (k0 = k)); simpl; [done|]. rewrite IH.
  by destruct (dict_lookup k d).
Qed.

Lemma dict_del_elem kv k d : kv ∈ dict_del k d → kv ∈ d.
Proof.
  induction d as [|[k0 v0] d IH]; simpl; [done|].
  destruct (decide (k0 = k)); rewrite !elem_of_cons; naive_solver.
Qed.

Lemma dict_del_NoDup k d : NoDup d.*1 → NoDup (dict_del k d).*1.
Proof.
  induction d as [|[k0 v0] d IH]; simpl; [done|].
  intros [Hk Hnd]%NoDup_cons. destruct (decide (k0 = k)); [done|].
  simpl. apply NoDup_cons. split; [|by apply IH].
  intros ([k1 v1] & Heq & Hin%dict_del_elem)%list_elem_of_fmap. simpl in Heq. subst k1.
  apply Hk. apply list_elem_of_fmap. by exists (k0, v1).
Qed.

Lemma dict_del_length k v d :
  dict_lookup k d = Some v → S (length (dict_del k d)) = length d.
Proof.
  induction d as [|[k0 v0] d IH]; simpl; [done|].
  destruct (decide (k0 = k)); simpl; [done|]. intros H. by rewrite IH.
Qed.

Lemma dict_lookup_del k k' d :
  NoDup d.*1 →
  dict_lookup k' (dict_del k d) = if decide (k = k') then None else dict_lookup k' d.
Proof.
  induction d as [|[k0 v0] d IH]; simpl; [by destruct (decide (k = k'))|].
  intros [Hk Hnd]%NoDup_cons.
  destruct (decide (k0 = k)) as [->|Hk0]; simpl.
  - destruct (decide (k = k')) as [->|]; [|done].
    by apply dict_lookup_None_keys.
  - rewrite IH by done. destruct (decide (k0 = k')) as [->|]; [|done].
    by rewrite decide_False.
Qed.

Lemma min_from_spec (f : V → Z) best d :
  min_from f best d ∈ best :: d
  ∧ ∀ kv, kv ∈ best :: d → f (min_from f best d).2 ≤ f kv.2.
Proof.
  revert best. induction d as [|kv0 d IH]; intros best; simpl.
  - split; [left|]. intros kv ->%list_elem_of_singleton. lia.
  - destruct (decide (f kv0.2 < f best.2)).
    + destruct (IH kv0) as [Hin Hmin]. split; [by right|].
      intros kv [->|Hkv]%elem_of_cons; [|by apply Hmin].
      specialize (Hmin kv0 ltac:(left)). lia.
    + destruct (IH best) as [Hin Hmin]. split.
      * apply elem_of_cons in Hin as [->|Hin]; [left|right; by right].
      * intros kv [->|[->|Hkv]%elem_of_cons]%elem_of_cons.
        -- apply Hmin. left.
        -- specialize (Hmin best ltac:(left)). lia.
        -- apply Hmin. by right.
Qed.

Lemma dict_min_Some (f : V → Z) d kv :
  dict_min f d = Some kv → kv ∈ d ∧ ∀ kv', kv' ∈ d → f kv.2 ≤ f kv'.2.
Proof.
  destruct d as [|kv0 d]; simpl; [done|]. intros [= <-]. apply min_from_spec.
Qed.

Lemma dict_min_is_Some (f : V → Z) d : d ≠ [] → is_Some (dict_min f d).
Proof. destruct d; [done|]. by eexists. Qed.
End dict_facts.

Lemma dict_bytes_del k entry d :
  dict_lookup k d = Some entry → dict_bytes (dict_del k d) = dict_bytes d - size_bytes entry.
Proof.
  induction d as [|[k0 v0] d IH]; simpl; [done|].
  destruct (decide (k0 = k)); simpl.
  - intros [= ->]. lia.
  - intros H. rewrite IH by done. lia.
Qed.

Lemma dict_bytes_set k entry d :
  dict_bytes (dict_set k entry d)
  = dict_bytes d + size_bytes entry
    - match dict_lookup k d with Some old => size_bytes old | None => 0 end.
Proof.
  induction d as [|[k0 v0] d IH]; simpl; [lia|].
  destruct (decide (k0 = k)); simpl; [lia|]. rewrite IH. lia.
Qed.

Lemma dict_bytes_nonneg d :
  Forall (λ kv, 0 ≤ size_bytes kv.2) d → 0 ≤ dict_bytes d.
Proof. induction 1; simpl; lia. Qed.

Lemma dict_elem_lookup_is_Some {V} k (v : V) d : (k, v) ∈ d → is_Some (dict_lookup k d).
Proof.
  intros Hin. destruct (dict_lookup k d) eqn:Hk; [by eexists|].
  apply dict_lookup_None_keys in Hk. destruct Hk.
  apply list_elem_of_fmap. by exists (k, v).
Qed.

(** ** The cache *)

Lemma tensor_bytes_nonneg t : 0 ≤ tensor_bytes t.
Proof. unfold tensor_bytes. lia. Qed.

(** One turn of the loop of [put]. *)
Lemma put_evict_loop_unfold fuel size c :
  put_evict_loop fuel size c =
  if decide (current_size_bytes c + size > max_size_bytes c) then
    if decide (cache c = []) then (c, Ok false)
    else match fuel with
         | O => (c, OutOfFuel)
         | S fuel' =>
             match _evict_one c with
             | (c', Ok _) => put_evict_loop fuel' size c'
             | (c', Raise e) => (c', Raise e)
             | (c', OutOfFuel) => (c', OutOfFuel)
             end
         end
  else (c, Ok true).
Proof. destruct fuel; simpl; case_decide; try done; by destruct (cache c). Qed.

(** *** What no method changes: the capacity and the policy *)

Definition same_config (c c' : TemporalCache) : Prop :=
  max_size_bytes c' = max_size_bytes c ∧ eviction_policy c' = eviction_policy c.

Lemma same_config_refl c : same_config c c.
Proof. done. Qed.

Lemma same_config_trans c1 c2 c3 :
  same_config c1 c2 → same_config c2 c3 → same_config c1 c3.
Proof. unfold same_config. intros [-> ->] [-> ->]. done. Qed.

Lemma get_config c key now : same_config c (get c key now).1.
Proof. unfold get. by destruct (dict_lookup key (cache c)). Qed.

Lemma evict_min_config f c : same_config c (evict_min f c).1.
Proof. unfold evict_min. by destruct (dict_min f (cache c)) as [[k e]|]. Qed.

Lemma _evict_one_config c : same_config c (_evict_one c).1.
Proof.
  unfold _evict_one. repeat case_decide; auto using evict_min_config, same_config_refl.
Qed.

Lemma put_evict_loop_config fuel size c : same_config c (put_evict_loop fuel size c).1.
Proof.
  revert c. induction fuel as [|fuel IH]; intros c; simpl.
  - case_decide; [|done]. by destruct (cache c).
  - case_decide; [|done]. destruct (cache c); [done|].
    pose proof (_evict_one_config c) as Hc.
    destruct (_evict_one c) as [c' [[]|e|]]; simpl in *; [|done..].
    eapply same_config_trans; [done|apply IH].
Qed.

Lemma put_fuel_config fuel c key a deps now :
  same_config c (put_fuel fuel c key a deps now).1.
Proof.
  unfold put_fuel. pose proof (put_evict_loop_config fuel (tensor_bytes a) c) as Hc.
  by destruct (put_evict_loop fuel (tensor_bytes a) c) as [c' [[]|e|]].
Qed.

Lemma put_config c key a deps now : same_config c (put c key a deps now).1.
Proof. apply put_fuel_config. Qed.

Lemma invalidate_key_config c key : same_config c (invalidate_key c key).
Proof. unfold invalidate_key. by destruct (dict_lookup key (cache c)). Qed.

Lemma invalidate_config o c keys : same_config c (invalidate o c keys).
Proof.
  unfold invalidate. generalize (enum o keys). intros l. revert c.
  induction l as [|k l IH]; intros c; simpl; [done|].
  eapply same_config_trans; [apply invalidate_key_config|apply IH].
Qed.

(** *** The accounting invariant *)

Record cache_inv (c : TemporalCache) : Prop := {
  inv_keys : NoDup (cache c).*1;
  inv_sizes : Forall (λ kv, 0 ≤ size_bytes kv.2) (cache c);
  inv_stored : stored_bytes c ≤ current_size_bytes c;
  inv_capacity : current_size_bytes c ≤ max_size_bytes c
}.

Lemma py_int_of_Q_nonneg (x : Q) : (0 <= x)%Q → 0 ≤ py_int_of_Q x.
Proof.
  unfold Qle, py_int_of_Q. simpl. intros H. apply Z.quot_pos; lia.
Qed.

Lemma TemporalCache_init_inv max_size_mb policy :
  (0 <= max_size_mb)%Q → cache_inv (TemporalCache_init max_size_mb policy).
Proof.
  intros H. split; simpl; [constructor|constructor|done|].
  apply py_int_of_Q_nonneg.
  repeat apply Qmult_le_0_compat; done.
Qed.

Lemma get_inv c key now : cache_inv c → cache_inv (get c key now).1.
Proof.
  intros [Hk Hs Hb Hc]. unfold get.
  destruct (dict_lookup key (cache c)) as [entry|] eqn:Hl; simpl; [|done].
  split; simpl.
  - by apply dict_set_NoDup.
  - apply Forall_forall. intros kv [->|Hin]%dict_set_elem.
    + simpl. apply dict_lookup_Some_elem in Hl.
      by apply (proj1 (Forall_forall _ _) Hs _ Hl).
    + by apply (proj1 (Forall_forall _ _) Hs).
  - unfold stored_bytes in *. simpl. rewrite dict_bytes_set, Hl. simpl. lia.
  - done.
Qed.

Lemma evict_min_inv f c : cache_inv c → cache_inv (evict_min f c).1.
Proof.
  intros [Hk Hs Hb Hc]. unfold evict_min.
  destruct (dict_min f (cache c)) as [[k entry]|] eqn:Hm; simpl; [|done].
  apply dict_min_Some in Hm as [Hin _].
  pose proof (proj1 (Forall_forall _ _) Hs _ Hin) as Hsize. simpl in Hsize.
  split; simpl.
  - by apply dict_del_NoDup.
  - apply Forall_forall. intros kv Hkv%dict_del_elem.
    by apply (proj1 (Forall_forall _ _) Hs).
  - unfold stored_bytes in *. simpl.
    rewrite (dict_bytes_del k entry) by by apply dict_elem_lookup. lia.
  - lia.
Qed.

Lemma _evict_one_inv c : cache_inv c → cache_inv (_evict_one c).1.
Proof. unfold _evict_one. repeat case_decide; auto using evict_min_inv. Qed.

Lemma put_evict_loop_inv fuel size c :
  cache_inv c →
  cache_inv (put_evict_loop fuel size c).1
  ∧ ((put_evict_loop fuel size c).2 = Ok true →
     current_size_bytes (put_evict_loop fuel size c).1 + size
     ≤ max_size_bytes (put_evict_loop fuel size c).1).
Proof.
  revert c. induction fuel as [|fuel IH]; intros c Hinv; simpl.
  - case_decide; [|split; [done|simpl; lia]]. by destruct (cache c).
  - case_decide; [|split; [done|simpl; lia]]. destruct (cache c); [done|].
    pose proof (_evict_one_inv c Hinv) as Hc.
    destruct (_evict_one c) as [c' [[]|e|]]; simpl in *; [|done..].
    by apply IH.
Qed.

Lemma put_fuel_inv fuel c key a deps now :
  cache_inv c → cache_inv (put_fuel fuel c key a deps now).1.
Proof.
  intros Hinv. unfold put_fuel.
  destruct (put_evict_loop_inv fuel (tensor_bytes a) c Hinv) as [Hc Hfit].
  pose proof (tensor_bytes_nonneg a) as Hsize.
  destruct (put_evict_loop fuel (tensor_bytes a) c) as [c' [[]|e|]]; simpl in *;
    [|done..].
  destruct Hc as [Hk Hs Hb Hc]. specialize (Hfit eq_refl).
  split; simpl.
  - by apply dict_set_NoDup.
  - apply Forall_forall. intros kv [->|Hin]%dict_set_elem; [done|].
    by apply (proj1 (Forall_forall _ _) Hs).
  - unfold stored_bytes in *. simpl. rewrite dict_bytes_set.
    destruct (dict_lookup key (cache c')) as [old|] eqn:Hold; simpl; [|lia].
    apply dict_lookup_Some_elem in Hold.
    pose proof (proj1 (Forall_forall _ _) Hs _ Hold) as Hold'. simpl in Hold'. lia.
  - done.
Qed.

Lemma invalidate_key_inv c key : cache_inv c → cache_inv (invalidate_key c key).
Proof.
  intros [Hk Hs Hb Hc]. unfold invalidate_key.
  destruct (dict_lookup key (cache c)) as [entry|] eqn:Hl; [|done].
  pose proof (dict_lookup_Some_elem _ _ _ Hl) as Hin.
  pose proof (proj1 (Forall_forall _ _) Hs _ Hin) as Hsize. simpl in Hsize.
  split; simpl.
  - by apply dict_del_NoDup.
  - apply Forall_forall. intros kv Hkv%dict_del_elem.
    by apply (proj1 (Forall_forall _ _) Hs).
  - unfold stored_bytes in *. simpl. rewrite (dict_bytes_del key entry) by done. lia.
  - lia.
Qed.

Lemma invalidate_inv o c keys : cache_inv c → cache_inv (invalidate o c keys).
Proof.
  unfold invalidate. generalize (enum o keys). intros l. revert c.
  induction l as [|k l IH]; intros c Hinv; simpl; [done|].
  by apply IH, invalidate_key_inv.
Qed.

Lemma clear_inv c : cache_inv c → cache_inv (clear c).
Proof.
  intros [Hk Hs Hb Hc]. split; simpl; [constructor|constructor|done|].
  pose proof (dict_bytes_nonneg _ Hs). unfold stored_bytes in *. lia.
Qed.

Lemma run_op_inv o c op : cache_inv c → cache_inv (run_op o c op).1.
Proof.
  destruct op; simpl;
    auto using get_inv, put_fuel_inv, invalidate_inv, clear_inv, _evict_one_inv.
  intros. by apply put_fuel_inv.
Qed.

Lemma run_ops_inv o c ops : cache_inv c → cache_inv (run_ops o c ops).1.
Proof.
  revert c. induction ops as [|op ops IH]; intros c Hinv; simpl; [done|].
  pose proof (run_op_inv o c op Hinv) as Hc.
  destruct (run_op o c op) as [c' [[]|e|]]; simpl in *; [|done..].
  by apply IH.
Qed.

(** *** Eviction and the loop of [put] *)

Definition known_policy (c : TemporalCache) : Prop :=
  eviction_policy c = "lru" ∨ eviction_policy c = "lfu".

(** The key function of [min] under each policy. *)
Definition policy_key (c : TemporalCache) : CacheEntry → Z :=
  if decide (eviction_policy c = "lru") then timestamp else hit_count.

Lemma _evict_one_known c :
  known_policy c → _evict_one c = evict_min (policy_key c) c.
Proof.
  unfold _evict_one, policy_key. intros [H|H]; rewrite H; by repeat case_decide.
Qed.

Lemma evict_min_nonempty f c :
  cache c ≠ [] →
  ∃ k entry,
    dict_min f (cache c) = Some (k, entry)
    ∧ (k, entry) ∈ cache c
    ∧ (∀ kv, kv ∈ cache c → f entry ≤ f kv.2)
    ∧ evict_min f c =
        ({| max_size_bytes := max_size_bytes c; eviction_policy := eviction_policy c;
            cache := dict_del k (cache c);
            current_size_bytes := current_size_bytes c - size_bytes entry;
            hits := hits c; misses := misses c; evictions := evictions c + 1 |}, Ok tt)
    ∧ S (length (dict_del k (cache c))) = length (cache c).
Proof.
  intros Hne. destruct (dict_min_is_Some f _ Hne) as [[k entry] Hm].
  pose proof (dict_min_Some _ _ _ Hm) as [Hin Hmin].
  exists k, entry. split_and!; [done..| |].
  - unfold evict_min. by rewrite Hm.
  - destruct (dict_elem_lookup_is_Some _ _ _ Hin) as [v Hv].
    by apply (dict_del_length k v).
Qed.

Lemma put_evict_loop_known fuel size c :
  known_policy c → (length (cache c) ≤ fuel)%nat →
  ∃ c' b, put_evict_loop fuel size c = (c', Ok b) ∧ (b = false → cache c' = []).
Proof.
  revert c. induction fuel as [|fuel IH]; intros c Hp Hlen; simpl.
  - case_decide; [|by exists c, true].
    destruct (cache c) eqn:Hc; [|simpl in Hlen; lia].
    exists c, false. by rewrite Hc.
  - case_decide; [|by exists c, true]. destruct (cache c) as [|kv d] eqn:Hc.
    { exists c, false. by rewrite Hc. }
    rewrite (_evict_one_known c Hp).
    destruct (evict_min_nonempty (policy_key c) c) as (k & entry & _ & _ & _ & -> & Hl).
    { by rewrite Hc. }
    apply IH.
    + done.
    + simpl. pose proof (f_equal length Hc) as Hlc. simpl in Hlc, Hlen. lia.
Qed.

Lemma put_known c key a deps now :
  known_policy c → ∃ c', put c key a deps now = (c', Ok tt).
Proof.
  intros Hp. unfold put, put_fuel.
  destruct (put_evict_loop_known (length (cache c)) (tensor_bytes a) c Hp)
    as (c' & b & -> & _); [done|].
  destruct b; eauto.
Qed.

(** Under any other policy [_evict_one] does nothing, and the loop of [put]
    keeps going. *)
Lemma put_evict_loop_unknown fuel size c :
  eviction_policy c ≠ "lru" → eviction_policy c ≠ "lfu" →
  cache c ≠ [] → current_size_bytes c + size > max_size_bytes c →
  put_evict_loop fuel size c = (c, OutOfFuel).
Proof.
  intros H1 H2 Hne Hfull. induction fuel as [|fuel IH]; simpl.
  - rewrite decide_True by done. by destruct (cache c).
  - rewrite decide_True by done. destruct (cache c) eqn:Hc; [done|].
    unfold _evict_one. by rewrite !decide_False.
Qed.

(** More fuel does not change an answer. *)
Lemma put_evict_loop_more fuel fuel' size c :
  (fuel ≤ fuel')%nat → (put_evict_loop fuel size c).2 ≠ OutOfFuel →
  put_evict_loop fuel' size c = put_evict_loop fuel size c.
Proof.
  revert fuel' c. induction fuel as [|fuel IH]; intros fuel' c Hle Hr.
  - destruct fuel'; [done|]. simpl in *.
    case_decide; [|done]. by destruct (cache c).
  - destruct fuel' as [|fuel']; [lia|]. simpl in *.
    case_decide; [|done]. destruct (cache c); [done|].
    destruct (_evict_one c) as [c' [[]|e|]]; [|done..].
    apply IH; [lia|done].
Qed.

Lemma put_fuel_more fuel fuel' c key a deps now :
  (fuel ≤ fuel')%nat → (put_fuel fuel c key a deps now).2 ≠ OutOfFuel →
  put_fuel fuel' c key a deps now = put_fuel fuel c key a deps now.
Proof.
  intros Hle. unfold put_fuel. intros Hr.
  rewrite (put_evict_loop_more fuel fuel'); [done|done|].
  by destruct (put_evict_loop fuel (tensor_bytes a) c) as [c' [[]|e|]].
Qed.

(** *** When the running total agrees with the contents *)

Record cache_exact (c : TemporalCache) : Prop := {
  exact_keys : NoDup (cache c).*1;
  exact_sizes : Forall (λ kv, 0 ≤ size_bytes kv.2) (cache c);
  exact_total : current_size_bytes c = stored_bytes c
}.

Lemma evict_min_exact f c : cache_exact c → cache_exact (evict_min f c).1.
Proof.
  intros [Hk Hs Hb]. unfold evict_min.
  destruct (dict_min f (cache c)) as [[k entry]|] eqn:Hm; simpl; [|done].
  apply dict_min_Some in Hm as [Hin _].
  split; simpl.
  - by apply dict_del_NoDup.
  - apply Forall_forall. intros kv Hkv%dict_del_elem.
    by apply (proj1 (Forall_forall _ _) Hs).
  - unfold stored_bytes in *. simpl.
    rewrite (dict_bytes_del k entry) by by apply dict_elem_lookup. lia.
Qed.

Lemma put_evict_loop_exact fuel size c :
  cache_exact c → cache_exact (put_evict_loop fuel size c).1.
Proof.
  revert c. induction fuel as [|fuel IH]; intros c Hinv; simpl.
  - case_decide; [|done]. by destruct (cache c).
  - case_decide; [|done]. destruct (cache c); [done|].
    assert (cache_exact (_evict_one c).1) as Hc.
    { unfold _evict_one. repeat case_decide; auto using evict_min_exact. }
    destruct (_evict_one c) as [c' [[]|e|]]; simpl in *; [|done..].
    by apply IH.
Qed.

Lemma dict_del_lookup_None {V} key k (d : list (string * V)) :
  dict_lookup key d = None → dict_lookup key (dict_del k d) = None.
Proof.
  rewrite !dict_lookup_None_keys. intros Hk Hin. apply Hk.
  apply list_elem_of_fmap in Hin as ([k1 v1] & -> & Hin%dict_del_elem).
  apply list_elem_of_fmap. by exists (k1, v1).
Qed.

Lemma _evict_one_lookup_None key c :
  dict_lookup key (cache c) = None → dict_lookup key (cache (_evict_one c).1) = None.
Proof.
  intros Hk. unfold _evict_one, evict_min.
  repeat case_decide; try done.
  all: destruct (dict_min _ (cache c)) as [[k e]|]; simpl; [|done].
  all: by apply dict_del_lookup_None.
Qed.

Lemma put_evict_loop_lookup_None fuel size key c :
  dict_lookup key (cache c) = None →
  dict_lookup key (cache (put_evict_loop fuel size c).1) = None.
Proof.
  revert c. induction fuel as [|fuel IH]; intros c Hk;
    rewrite put_evict_loop_unfold; repeat case_decide; try done.
  pose proof (_evict_one_lookup_None key c Hk) as Hc.
  destruct (_evict_one c) as [c' [[]|e|]]; simpl in *; [|done..].
  by apply IH.
Qed.

(** A [put] of a new key keeps the total exact. *)
Lemma put_new_key_exact c key a deps now :
  cache_exact c → dict_lookup key (cache c) = None →
  cache_exact (put c key a deps now).1.
Proof.
  intros Hinv Hnew. unfold put, put_fuel.
  pose proof (put_evict_loop_exact (length (cache c)) (tensor_bytes a) c Hinv) as Hc.
  pose proof (put_evict_loop_lookup_None (length (cache c)) (tensor_bytes a) key c Hnew)
    as Hnew'.
  pose proof (tensor_bytes_nonneg a).
  destruct (put_evict_loop _ _ c) as [c' [[]|e|]]; simpl in *; [|done..].
  destruct Hc as [Hk Hs Hb]. split; simpl.
  - by apply dict_set_NoDup.
  - apply Forall_forall. intros kv [->|Hin]%dict_set_elem; [done|].
    by apply (proj1 (Forall_forall _ _) Hs).
  - unfold stored_bytes in *. simpl. rewrite dict_bytes_set, Hnew'. simpl. lia.
Qed.

(** With an exact total, a buffer larger than the capacity empties the
    cache and is dropped. *)
Lemma put_too_large_exact c key a deps now :
  known_policy c → cache_exact c → tensor_bytes a > max_size_bytes c →
  ∃ c', put c key a deps now = (c', Ok tt)
        ∧ cache c' = [] ∧ current_size_bytes c' = 0.
Proof.
  intros Hp Hinv Hbig. unfold put, put_fuel.
  destruct (put_evict_loop_known (length (cache c)) (tensor_bytes a) c Hp)
    as (c' & b & Hrun & Hempty); [done|].
  pose proof (put_evict_loop_exact (length (cache c)) (tensor_bytes a) c Hinv) as Hex.
  pose proof (put_evict_loop_config (length (cache c)) (tensor_bytes a) c) as [Hmax _].
  assert (Hfit : (put_evict_loop (length (cache c)) (tensor_bytes a) c).2 = Ok true →
                 current_size_bytes c' + tensor_bytes a ≤ max_size_bytes c').
  { clear Hex Hmax Hempty Hinv Hp Hbig. revert Hrun. generalize (length (cache c)).
    intros fuel. revert c. induction fuel as [|fuel IH]; intros c; simpl.
    - case_decide; [by destruct (cache c)|]. intros [= <- _] _. lia.
    - case_decide; [|intros [= <- _] _; lia]. destruct (cache c); [done|].
      destruct (_evict_one c) as [c1 [[]|e|]]; [|done..]. apply IH. }
  rewrite Hrun in *. simpl in *. destruct b.
  - specialize (Hfit eq_refl). destruct Hex as [_ Hs Hb].
    pose proof (dict_bytes_nonneg _ Hs). unfold stored_bytes in *. lia.
  - exists c'. specialize (Hempty eq_refl). split_and!; [done..|].
    destruct Hex as [_ _ ->]. unfold stored_bytes. by rewrite Hempty.
Qed.

(** *** Statements about the cache *)

(** C6. Capacity invariant: starting from a cache built with a capacity
    that is not negative, after any sequence of [get], [put], [invalidate],
    [clear] (and of the evictions that [put] triggers, or that are asked
    for directly), the sizes of the stored entries add up to at most
    [max_size_bytes], whatever way the last call ended. *)
Theorem capacity_invariant (o : SetOrder) (max_size_mb : Q) (policy : string)
    (ops : list cache_op) (c' : TemporalCache) (r : outcome unit) :
  (0 <= max_size_mb)%Q →
  run_ops o (TemporalCache_init max_size_mb policy) ops = (c', r) →
  stored_bytes c' ≤ max_size_bytes c'.
Proof.
  intros Hcap Hrun.
  pose proof (run_ops_inv o _ ops (TemporalCache_init_inv max_size_mb policy Hcap)) as Hinv.
  rewrite Hrun in Hinv. destruct Hinv as [_ _ Hb Hc]. simpl in *. lia.
Qed.

Definition ops_example : list cache_op :=
  [ OpPut "frame_0" {| element_size := 4; nelement := 200000 |} ∅ 1;
    OpPut "frame_0" {| element_size := 4; nelement := 200000 |} ∅ 2;
    OpGet "frame_0" 3;
    OpPut "frame_1" {| element_size := 4; nelement := 100000 |} {[ "frame_0" ]} 4;
    OpInvalidate {[ "frame_7" ]};
    OpPut "frame_2" {| element_size := 4; nelement := 150000 |} {[ "frame_1" ]} 5;
    OpPut "frame_3" {| element_size := 4; nelement := 300000 |} {[ "frame_2" ]} 6 ].

Lemma capacity_invariant_witness :
  stored_bytes (run_ops elements_order (TemporalCache_init 1 "lru") ops_example).1
  ≤ max_size_bytes (run_ops elements_order (TemporalCache_init 1 "lru") ops_example).1.
Proof.
  apply (capacity_invariant elements_order 1 "lru" ops_example _ (Ok tt)).
  - unfold Qle. simpl. lia.
  - vm_compute. reflexivity.
Defined.

(** C7 (the code departs from it). A [put] on a key that is present
    replaces the entry and adds the new size to the running total without
    taking the old size off: after two [put]s of a 40-byte buffer under the
    same key, one entry of 40 bytes is stored and [current_size_bytes] is 80. *)
Theorem put_existing_key_total_drifts :
  let c0 := TemporalCache_init (100 # 1048576) "lru" in
  let buffer := {| element_size := 4; nelement := 10 |} in
  let c1 := (put c0 "a" buffer ∅ 1).1 in
  ∃ c2, put c1 "a" buffer ∅ 2 = (c2, Ok tt)
        ∧ length (cache c2) = 1%nat
        ∧ stored_bytes c2 = 40
        ∧ current_size_bytes c2 = 80.
Proof. eexists. split; [vm_compute; reflexivity|]. by vm_compute. Qed.

(** Two entries of 40 bytes in a cache of 100 bytes, stored at times 1 and 2. *)
Definition lru_example : TemporalCache :=
  let buffer := {| element_size := 4; nelement := 10 |} in
  (put (put (TemporalCache_init (100 # 1048576) "lru") "a" buffer ∅ 1).1 "b" buffer ∅ 2).1.

(** C9 (the code departs from it). A buffer larger than the capacity is
    dropped without an exception and the cache ends with no entry, but the
    running total is not back to zero when an earlier [put] replaced a key
    (C7): here it is left at 40. *)
Theorem put_too_large_after_replace_leaves_total :
  let c0 := TemporalCache_init (100 # 1048576) "lru" in
  let buffer := {| element_size := 4; nelement := 10 |} in
  let c2 := (put (put c0 "a" buffer ∅ 1).1 "a" buffer ∅ 2).1 in
  let large := {| element_size := 4; nelement := 50 |} in
  tensor_bytes large > max_size_bytes c2
  ∧ ∃ c3, put c2 "b" large ∅ 3 = (c3, Ok tt)
          ∧ cache c3 = []
          ∧ current_size_bytes c3 = 40.
Proof. split; [by vm_compute|]. eexists. split; [vm_compute; reflexivity|]. by vm_compute. Qed.

(** C10. With the policy "lru" or "lfu" every [put] returns: an eviction on
    a cache that is not empty removes one entry and takes its size off the
    running total, and on an empty cache the loop returns at once.  With
    any other policy, a [put] that needs room in a cache that is not empty
    never returns: no amount of fuel is enough. *)
Theorem put_terminates_iff_known_policy (c : TemporalCache) (key : string)
    (a : Tensor) (deps : gset string) (now : Z) :
  (known_policy c →
     (∃ c', put c key a deps now = (c', Ok tt))
     ∧ (cache c ≠ [] →
        ∃ c' k entry,
          _evict_one c = (c', Ok tt) ∧ (k, entry) ∈ cache c
          ∧ S (length (cache c')) = length (cache c)
          ∧ current_size_bytes c' = current_size_bytes c - size_bytes entry)
     ∧ (cache c = [] → current_size_bytes c + tensor_bytes a > max_size_bytes c →
        ∀ fuel, put_fuel fuel c key a deps now = (c, Ok tt)))
  ∧ (¬ known_policy c →
     cache c ≠ [] → current_size_bytes c + tensor_bytes a > max_size_bytes c →
     ∀ fuel, put_fuel fuel c key a deps now = (c, OutOfFuel)).
Proof.
  split.
  - intros Hp. split_and!.
    + by apply put_known.
    + intros Hne. rewrite (_evict_one_known c Hp).
      destruct (evict_min_nonempty (policy_key c) c Hne)
        as (k & entry & _ & Hin & _ & Hev & Hlen).
      eexists _, k, entry. split_and!; [done|done|..]; done.
    + intros Hempty Hfull fuel. unfold put_fuel.
      rewrite put_evict_loop_unfold. rewrite decide_True by done.
      by rewrite decide_True.
  - intros Hp Hne Hfull fuel. unfold put_fuel.
    rewrite put_evict_loop_unknown; [done| | |done..].
    + intros H. apply Hp. by left.
    + intros H. apply Hp. by right.
Qed.

Definition fifo_example : TemporalCache :=
  (put (TemporalCache_init (100 # 1048576) "fifo") "a"
       {| element_size := 4; nelement := 10 |} ∅ 1).1.

Lemma put_terminates_iff_known_policy_witness :
  (∃ c', put lru_example "c" {| element_size := 4; nelement := 10 |} ∅ 3 = (c', Ok tt))
  ∧ ∀ fuel, put_fuel fuel fifo_example "b" {| element_size := 4; nelement := 20 |} ∅ 2
            = (fifo_example, OutOfFuel).
Proof.
  split.
  - apply (put_terminates_iff_known_policy lru_example "c"
             {| element_size := 4; nelement := 10 |} ∅ 3).
    left. reflexivity.
  - apply (put_terminates_iff_known_policy fifo_example "b"
             {| element_size := 4; nelement := 20 |} ∅ 2).
    + intros [H|H]; vm_compute in H; discriminate.
    + vm_compute. discriminate.
    + vm_compute. reflexivity.
Defined.

(** ** Frame identifiers *)

(** No character of the string is the separator. *)
Fixpoint free_of (sep : ascii) (s : string) : bool :=
  match s with
  | EmptyString => true
  | String c s' => negb (Ascii.eqb c sep) && free_of sep s'
  end.

Lemma py_split_free sep s : free_of sep s = true → py_split sep s = [s].
Proof.
  induction s as [|c s IH]; simpl; [done|].
  destruct (Ascii.eqb c sep); simpl; [done|]. intros H. by rewrite IH.
Qed.

Lemma string_of_uint_free d : free_of "_" (NilEmpty.string_of_uint d) = true.
Proof. induction d; simpl; done. Qed.

Lemma py_str_free i : free_of "_" (py_str i) = true.
Proof.
  unfold py_str, NilZero.string_of_int, NilZero.string_of_uint.
  destruct (Z.to_int i) as [d|d]; destruct d; simpl; try done;
    apply string_of_uint_free.
Qed.

Lemma py_int_py_str i : py_int (py_str i) = Ok i.
Proof.
  unfold py_int, py_str. rewrite NilZero.isi.
  - by rewrite DecimalZ.of_to.
  - destruct i; simpl; try done. intros [= H]. by apply DecimalPos.Unsigned.to_uint_nonnil in H.
  - destruct i; simpl; try done. intros [= H]. by apply DecimalPos.Unsigned.to_uint_nonnil in H.
Qed.

Lemma frame_index_frame_id i : frame_index (frame_id i) = Ok i.
Proof.
  unfold frame_index, frame_id. simpl.
  change ("" +:+ py_str i) with (py_str i).
  rewrite (py_split_free _ _ (py_str_free i)). simpl. apply py_int_py_str.
Qed.

Global Instance frame_id_inj : Inj (=) (=) frame_id.
Proof.
  intros i j H. pose proof (frame_index_frame_id i) as Hi.
  rewrite H, frame_index_frame_id in Hi. by injection Hi.
Qed.

(** ** Statements about the graph *)

Lemma downstream_no_dependents g changed x :
  (∀ c, c ∈ changed → get_dependents g c = ∅) →
  downstream g changed x → x ∈ changed.
Proof.
  intros Hnone (c & Hc & Hrtc).
  destruct Hrtc as [|c y z Hcy _]; [done|].
  unfold dependent_of in Hcy. rewrite (Hnone c Hc) in Hcy. set_solver.
Qed.

(** C2. For every graph, every set [changed] and every iteration order,
    [get_affected_nodes] returns the set of the nodes of [changed] and of
    the nodes reached from them through dependents; the loop takes each of
    these nodes from the queue once; the result is [changed] when no member
    has a dependent; on the chain [frame_i -> frame_(i-1)], [i = 1..9], the
    nodes affected by [frame_3] are [frame_3 .. frame_9] and by [frame_9]
    only [frame_9]. *)
Theorem get_affected_nodes_closure (o : SetOrder) :
  (∀ g changed,
     ∃ affected visited,
       get_affected_nodes_trace o g changed = Some (affected, visited)
       ∧ get_affected_nodes o g changed = Some affected
       ∧ (∀ x, x ∈ affected ↔ downstream g changed x)
       ∧ NoDup visited
       ∧ (∀ x, x ∈ visited ↔ x ∈ affected)
       ∧ ((∀ c, c ∈ changed → get_dependents g c = ∅) → affected = changed))
  ∧ get_affected_nodes o (chain_graph 10) {[ "frame_3" ]}
    = Some {[ "frame_3"; "frame_4"; "frame_5"; "frame_6"; "frame_7"; "frame_8"; "frame_9" ]}
  ∧ get_affected_nodes o (chain_graph 10) {[ "frame_9" ]} = Some {[ "frame_9" ]}.
Proof.
  split_and!.
  - intros g changed.
    destruct (get_affected_nodes_trace_spec o g changed) as (a & v & Hrun & Ha & Hnd & Hv).
    exists a, v. split_and!; [done| |done..|].
    + unfold get_affected_nodes. by rewrite Hrun.
    + intros Hnone. apply set_eq. intros x. rewrite Ha. split.
      * by apply downstream_no_dependents.
      * apply downstream_changed.
  - rewrite (get_affected_nodes_order o elements_order). by vm_compute.
  - rewrite (get_affected_nodes_order o elements_order). by vm_compute.
Qed.

Lemma get_affected_nodes_closure_witness :
  get_affected_nodes elements_order DependencyGraph_init {[ "frame_0" ]}
  = Some {[ "frame_0" ]}.
Proof.
  destruct (get_affected_nodes_closure elements_order) as [Hgen _].
  destruct (Hgen DependencyGraph_init {[ "frame_0" ]})
    as (a & v & _ & Hrun & _ & _ & _ & Hnone).
  rewrite Hrun. f_equal. apply Hnone. intros c _. reflexivity.
Defined.

(** ** The engine *)

(** What the loops of the engine leave as it is: everything but the
    contents of the cache, the clock and the record of recomputed frames. *)
Record engine_core (e e' : SparseInferenceEngine) : Prop := {
  core_frame_size : frame_size e' = frame_size e;
  core_graph : dependency_graph e' = dependency_graph e;
  core_audio : current_audio e' = current_audio e;
  core_length : current_length_frames e' = current_length_frames e;
  core_config : same_config (engine_cache e) (engine_cache e')
}.

Lemma engine_core_refl e : engine_core e e.
Proof. by split. Qed.

Lemma engine_core_trans e1 e2 e3 :
  engine_core e1 e2 → engine_core e2 e3 → engine_core e1 e3.
Proof.
  intros [H1 H2 H3 H4 H5] [K1 K2 K3 K4 K5].
  split; try congruence. by eapply same_config_trans.
Qed.

Section engine_facts.
Context (o : SetOrder) (time_time : nat → Z).

Lemma cache_get_spec key e :
  ∃ e' r, cache_get time_time key e = (e', Ok r)
          ∧ engine_core e e' ∧ recomputed e' = recomputed e.
Proof.
  unfold cache_get, mbind, engine_bind, gets, set_cache, mret, engine_ret. simpl.
  eexists _, _. split; [reflexivity|]. split; [|done].
  split; simpl; try done. apply get_config.
Qed.

Lemma cache_put_cases key a deps e :
  ∃ e' r, cache_put time_time key a deps e = (e', r)
          ∧ engine_core e e' ∧ recomputed e' = recomputed e
          ∧ (known_policy (engine_cache e) → r = Ok tt).
Proof.
  unfold cache_put, mbind, engine_bind, gets, set_cache, lift. simpl.
  eexists _, _. split; [reflexivity|]. split_and!; [|done|].
  - split; simpl; try done. apply put_config.
  - intros Hp. simpl.
    by destruct (put_known (engine_cache e) key a deps (time_time (clock e)) Hp)
      as (c' & ->).
Qed.

Lemma all_deps_cached_spec deps e :
  ∃ e' b, all_deps_cached time_time deps e = (e', Ok b)
          ∧ engine_core e e' ∧ recomputed e' = recomputed e.
Proof.
  revert e. induction deps as [|dep deps IH]; intros e; simpl.
  - exists e, true. split; [done|]. split; [apply engine_core_refl|done].
  - destruct (cache_get_spec dep e) as (e1 & r & Hget & Hcore & Hrec).
    unfold mbind, engine_bind at 1. rewrite Hget. destruct r as [t|].
    + destruct (IH e1) as (e2 & b & Hrun & Hcore2 & Hrec2).
      exists e2, b. split; [done|]. split; [by eapply engine_core_trans|congruence].
    + exists e1, false. done.
Qed.

(** The write of frame [i] into the buffer: whether it works, and the
    exception when it does not. *)
Definition write_ok (e : SparseInferenceEngine) (i : Z) : bool :=
  match current_audio e with
  | None => false
  | Some audio =>
      tensor_assign_ok audio (i * frame_size e) ((i + 1) * frame_size e)
        {| element_size := 4; nelement := Z.to_N (frame_size e) |}
  end.
Definition write_error (e : SparseInferenceEngine) : PyError :=
  match current_audio e with None => TypeError | Some _ => RuntimeError end.
Definition write_outcome (e : SparseInferenceEngine) (i : Z) : outcome unit :=
  if write_ok e i then Ok tt else Raise (write_error e).

Lemma write_ok_core e e' i : engine_core e e' → write_ok e' i = write_ok e i.
Proof. intros [H1 _ H3 _ _]. unfold write_ok. by rewrite H1, H3. Qed.

Lemma write_error_core e e' : engine_core e e' → write_error e' = write_error e.
Proof. intros [_ _ H3 _ _]. unfold write_error. by rewrite H3. Qed.

Lemma recompute_frame_frame_id i e :
  known_policy (engine_cache e) → 0 ≤ frame_size e →
  ∃ e', recompute_frame o time_time (frame_id i) e = (e', write_outcome e i)
        ∧ engine_core e e'
        ∧ recomputed e' = recomputed e ++ [frame_id i].
Proof.
  intros Hp Hfs. unfold recompute_frame.
  rewrite frame_index_frame_id.
  unfold mbind at 1, engine_bind at 1, lift at 1.
  unfold mbind at 1, engine_bind at 1, gets at 1.
  destruct (all_deps_cached_spec
              (enum o (get_dependencies (dependency_graph e) (frame_id i))) e)
    as (e1 & b & Hdeps & Hcore1 & Hrec1).
  unfold mbind at 1, engine_bind at 1. rewrite Hdeps.
  unfold mbind at 1, engine_bind at 1, gets at 1.
  assert (Hrandn : torch_randn (frame_size e1)
                   = Ok {| element_size := 4; nelement := Z.to_N (frame_size e) |}).
  { unfold torch_randn. rewrite (core_frame_size _ _ Hcore1).
    by rewrite decide_False by lia. }
  assert (Hpre : (if b then lift (torch_randn (frame_size e1))
                  else lift (torch_randn (frame_size e1)))
                 = lift (torch_randn (frame_size e1))) by by destruct b.
  rewrite Hpre, Hrandn.
  unfold mbind at 1, engine_bind at 1, lift at 1.
  unfold mbind at 1, engine_bind at 1, gets at 1.
  unfold mbind at 1, engine_bind at 1, set_recomputed at 1.
  match goal with |- context [(_ ≫= _) ?s] => set (e2 := s) end.
  assert (Hcore2 : engine_core e e2).
  { eapply engine_core_trans; [done|]. by split. }
  destruct (cache_put_cases (frame_id i)
              {| element_size := 4; nelement := Z.to_N (frame_size e) |}
              (get_dependencies (dependency_graph e) (frame_id i)) e2)
    as (e3 & r & Hput & Hcore3 & Hrec3 & Hr).
  rewrite Hr in Hput.
  2:{ destruct Hcore2 as [_ _ _ _ [_ Hpol]]. unfold known_policy in *.
      by rewrite Hpol. }
  unfold mbind at 1, engine_bind at 1. rewrite Hput.
  unfold mbind at 1, engine_bind at 1, gets at 1.
  pose proof (engine_core_trans _ _ _ Hcore2 Hcore3) as Hcore.
  exists e3. split_and!; [|done|].
  - unfold write_outcome, write_ok, write_error. rewrite (core_audio _ _ Hcore).
    rewrite (core_frame_size _ _ Hcore1).
    destruct (current_audio e) as [audio|]; [|done].
    by destruct (tensor_assign_ok _ _ _ _).
  - rewrite Hrec3. subst e2. simpl. by rewrite Hrec1.
Qed.



(** The loop of [apply_edit] over frame identifiers, on an engine whose
    cache evicts: it stops at the first frame that does not fit the
    buffer. *)
Lemma recompute_loop_total l e :
  known_policy (engine_cache e) → 0 ≤ frame_size e →
  (∀ x, x ∈ l → ∃ i, x = frame_id i) →
  ∃ e' r done,
    for_each l (recompute_frame o time_time) e = (e', r)
    ∧ engine_core e e'
    ∧ recomputed e' = recomputed e ++ done
    ∧ ((r = Ok tt ∧ done = l ∧ ∀ i, frame_id i ∈ l → write_ok e i = true)
       ∨ (r = Raise (write_error e)
          ∧ ∃ i, frame_id i ∈ l ∧ frame_id i ∈ done ∧ write_ok e i = false)).
Proof.
  revert e. induction l as [|x l IH]; intros e Hp Hfs Hids; simpl.
  - exists e, (Ok tt), []. rewrite app_nil_r.
    split_and!; [done|apply engine_core_refl|done|].
    left. split_and!; [done..|]. intros i Hi. by apply elem_of_nil in Hi.
  - destruct (Hids x) as [i ->]; [left|].
    destruct (recompute_frame_frame_id i e Hp Hfs) as (e1 & Hx & Hcore1 & Hrec1).
    unfold mbind, engine_bind at 1. rewrite Hx. unfold write_outcome.
    destruct (write_ok e i) eqn:Hok.
    + destruct (IH e1) as (e' & r & done & Hrun & Hcore & Hrec & Hcases).
      { destruct Hcore1 as [_ _ _ _ [_ Hpol]]. unfold known_policy in *.
        by rewrite Hpol. }
      { by rewrite (core_frame_size _ _ Hcore1). }
      { intros y Hy. apply Hids. by right. }
      exists e', r, (frame_id i :: done). split_and!.
      * done.
      * by eapply engine_core_trans.
      * rewrite Hrec, Hrec1. by rewrite <- app_assoc.
      * destruct Hcases as [(-> & -> & Hall)|(-> & j & Hj & Hjd & Hjok)].
        -- left. split_and!; [done..|].
           intros j [Hj|Hj]%elem_of_cons.
           ++ by apply (inj frame_id) in Hj as ->.
           ++ rewrite <- (write_ok_core e e1) by done. by apply Hall.
        -- right. rewrite (write_error_core e e1) by done. split; [done|].
           exists j. split_and!; [by right|by right|].
           by rewrite <- (write_ok_core e e1).
    + exists e1, (Raise (write_error e)), [frame_id i].
      split_and!; [done..|]. right. split; [done|].
      exists i. split_and!; [left|left|done].
Qed.

Lemma elem_of_py_sorted_enum (A : gset string) x : x ∈ py_sorted (enum o A) ↔ x ∈ A.
Proof.
  unfold py_sorted. rewrite merge_sort_Permutation, enum_perm. apply elem_of_elements.
Qed.

(** [apply_edit] on an engine whose cache evicts and whose affected nodes
    are frame identifiers. *)
Lemma apply_edit_run edit e A :
  0 < frame_size e → known_policy (engine_cache e) →
  get_affected_nodes o (dependency_graph e)
    (changed_frames ((affected_region edit).1 `quot` frame_size e)
                    ((affected_region edit).2 `quot` frame_size e)) = Some A →
  (∀ x, x ∈ A → ∃ i, x = frame_id i) →
  ∃ e' r,
    apply_edit o time_time edit e = (e', r)
    ∧ engine_core e e'
    ∧ ((∀ i, frame_id i ∈ A → write_ok e i = true) →
       recomputed e' = py_sorted (enum o A)
       ∧ (current_length_frames e ≠ 0 → max_size_bytes (engine_cache e) ≠ 0 →
          ∃ stats,
            r = Ok (current_audio e,
                    {| frames_recomputed := Z.of_nat (size A);
                       frames_total := current_length_frames e;
                       recompute_ratio :=
                         (inject_Z (Z.of_nat (size A))
                          / inject_Z (current_length_frames e))%Q;
                       cache_stats := stats |})))
    ∧ (∀ i, frame_id i ∈ A → write_ok e i = false →
       r = Raise (write_error e)
       ∧ ∃ j, frame_id j ∈ A ∧ frame_id j ∈ recomputed e' ∧ write_ok e j = false).
Proof.
  intros Hfs Hp HA Hids.
  destruct (apply_edit o time_time edit e) as [e' r] eqn:Hrun.
  exists e', r. split; [done|]. revert Hrun. unfold apply_edit.
  unfold mbind at 1, engine_bind at 1, set_recomputed at 1.
  unfold mbind at 1, engine_bind at 1, gets at 1.
  unfold mbind at 1, engine_bind at 1, lift at 1.
  unfold py_int_truediv at 1. cbn [frame_size]. rewrite decide_False by lia.
  unfold mbind at 1, engine_bind at 1, lift at 1.
  unfold py_int_truediv at 1. rewrite decide_False by lia.
  unfold mbind at 1, engine_bind at 1, gets at 1. cbn [dependency_graph].
  unfold mbind at 1, engine_bind at 1, lift at 1. rewrite HA.
  unfold mbind at 1, engine_bind at 1, cache_invalidate at 1.
  unfold mbind at 1, engine_bind at 1, gets at 1.
  unfold set_cache at 1. cbn -[for_each py_sorted invalidate].
  match goal with |- context [(_ ≫= _) ?s] => set (e2 := s) end.
  assert (Hcore2 : engine_core e e2).
  { split; try done. apply invalidate_config. }
  assert (Hp2 : known_policy (engine_cache e2)).
  { destruct Hcore2 as [_ _ _ _ [_ Hpol]]. unfold known_policy in *. by rewrite Hpol. }
  destruct (recompute_loop_total (py_sorted (enum o A)) e2 Hp2)
    as (e3 & r3 & done & Hloop & Hcore3 & Hrec3 & Hcases).
  { rewrite (core_frame_size _ _ Hcore2). lia. }
  { intros x Hx%elem_of_py_sorted_enum. by apply Hids. }
  pose proof (engine_core_trans _ _ _ Hcore2 Hcore3) as Hcore.
  unfold mbind at 1, engine_bind at 1. rewrite Hloop.
  destruct Hcases as [(-> & -> & Hall)|(-> & j & Hj & Hjd & Hjok)].
  - unfold mbind at 1, engine_bind at 1, gets at 1.
    unfold mbind at 1, engine_bind at 1, lift at 1.
    rewrite (core_length _ _ Hcore).
    destruct (decide (current_length_frames e = 0)) as [Hn|Hn].
    + intros [= <- <-]. split_and!; [done| |].
      * intros _. split; [by rewrite Hrec3|done].
      * intros i Hi Hbad. rewrite <- (write_ok_core e e2) in Hbad by done.
        rewrite Hall in Hbad; [done|]. by apply elem_of_py_sorted_enum.
    + unfold mbind at 1, engine_bind at 1, gets at 1.
      unfold mbind at 1, engine_bind at 1, lift at 1.
      unfold get_stats at 1.
      destruct Hcore as [Hc1 Hc2 Hc3 Hc4 [Hmax Hpol]].
      rewrite Hmax.
      destruct (decide (max_size_bytes (engine_cache e) = 0)) as [Hm|Hm].
      * intros [= <- <-]. split_and!; [by split| |].
        -- intros _. split; [by rewrite Hrec3|done].
        -- intros i Hi Hbad. rewrite <- (write_ok_core e e2) in Hbad by done.
           rewrite Hall in Hbad; [done|]. by apply elem_of_py_sorted_enum.
      * unfold mbind at 1, engine_bind at 1, gets at 1.
        unfold mret, engine_ret. rewrite Hc3.
        intros [= <- <-]. split_and!; [by split| |].
        -- intros _. split; [by rewrite Hrec3|]. intros _ _. by eexists.
        -- intros i Hi Hbad. rewrite <- (write_ok_core e e2) in Hbad by done.
           rewrite Hall in Hbad; [done|]. by apply elem_of_py_sorted_enum.
  - intros [= <- <-]. split_and!; [done| |].
    + intros Hall. rewrite (write_ok_core e e2) in Hjok by done.
      rewrite Hall in Hjok; [done|]. by apply elem_of_py_sorted_enum.
    + intros _ _ _. rewrite (write_error_core e e2) by done. split; [done|].
      exists j. split_and!.
      * by apply elem_of_py_sorted_enum.
      * rewrite Hrec3. subst e2. simpl. done.
      * by rewrite <- (write_ok_core e e2).
Qed.


(** *** [generate_full] *)

(** The edge that the frame [i] adds to the graph. *)
Definition add_frame_edge (g : DependencyGraph) (i : Z) : DependencyGraph :=
  if decide (i > 0) then add_dependency g (frame_id i) (frame_id (i - 1)) else g.

Record generated (e e' : SparseInferenceEngine) : Prop := {
  gen_frame_size : frame_size e' = frame_size e;
  gen_audio : current_audio e' = current_audio e;
  gen_length : current_length_frames e' = current_length_frames e;
  gen_recomputed : recomputed e' = recomputed e;
  gen_config : same_config (engine_cache e) (engine_cache e')
}.

Lemma generate_frame_spec audio i e :
  known_policy (engine_cache e) →
  ∃ e', generate_frame time_time audio i e = (e', Ok tt)
        ∧ generated e e'
        ∧ dependency_graph e' = add_frame_edge (dependency_graph e) i.
Proof.
  intros Hp. unfold generate_frame, add_frame_edge.
  unfold mbind at 1, engine_bind at 1, gets at 1.
  unfold mbind at 1, engine_bind at 1.
  destruct (decide (i > 0)).
  - unfold mbind at 1, engine_bind at 1, graph_add_dependency at 1.
    unfold mbind at 1, engine_bind at 1, gets at 1.
    unfold set_graph at 1, mret, engine_ret.
    match goal with |- context [cache_put _ _ _ _ ?s] => set (e1 := s) end.
    destruct (cache_put_cases (frame_id i)
                (tensor_slice audio (i * frame_size e) ((i + 1) * frame_size e))
                {[frame_id (i - 1)]} e1)
      as (e2 & r & Hput & [H1 H2 H3 H4 H5] & Hrec & Hr).
    rewrite Hr in Hput by done. exists e2. split_and!; [done| |by rewrite H2].
    split; [by rewrite H1|by rewrite H3|by rewrite H4|by rewrite Hrec|done].
  - unfold mret, engine_ret.
    destruct (cache_put_cases (frame_id i)
                (tensor_slice audio (i * frame_size e) ((i + 1) * frame_size e))
                ∅ e)
      as (e2 & r & Hput & [H1 H2 H3 H4 H5] & Hrec & Hr).
    rewrite Hr in Hput by done. exists e2. split_and!; [done| |done].
    by split.
Qed.

Lemma generated_trans e1 e2 e3 : generated e1 e2 → generated e2 e3 → generated e1 e3.
Proof.
  intros [H1 H2 H3 H4 H5] [K1 K2 K3 K4 K5].
  split; try congruence. by eapply same_config_trans.
Qed.

Lemma generate_loop_spec audio l e :
  known_policy (engine_cache e) →
  ∃ e', for_each l (generate_frame time_time audio) e = (e', Ok tt)
        ∧ generated e e'
        ∧ dependency_graph e' = foldl add_frame_edge (dependency_graph e) l.
Proof.
  revert e. induction l as [|i l IH]; intros e Hp; simpl.
  - exists e. split_and!; [done| |done]. by split.
  - destruct (generate_frame_spec audio i e Hp) as (e1 & Hrun & Hgen & Hg).
    unfold mbind, engine_bind at 1. rewrite Hrun.
    destruct (IH e1) as (e2 & Hrun2 & Hgen2 & Hg2).
    { destruct Hgen as [_ _ _ _ [_ Hpol]]. unfold known_policy in *. by rewrite Hpol. }
    exists e2. split_and!; [done|by eapply generated_trans|by rewrite Hg2, Hg].
Qed.

Lemma generate_full_spec num_samples e :
  0 ≤ num_samples → frame_size e ≠ 0 → known_policy (engine_cache e) →
  ∃ e', generate_full time_time num_samples e
        = (e', Ok {| element_size := 4; nelement := Z.to_N num_samples |})
        ∧ frame_size e' = frame_size e
        ∧ same_config (engine_cache e) (engine_cache e')
        ∧ current_audio e' = Some {| element_size := 4; nelement := Z.to_N num_samples |}
        ∧ current_length_frames e' = num_samples `div` frame_size e
        ∧ dependency_graph e'
          = foldl add_frame_edge (dependency_graph e)
              (py_range 0 (num_samples `div` frame_size e)).
Proof.
  intros Hns Hfs Hp. unfold generate_full.
  unfold mbind at 1, engine_bind at 1, lift at 1.
  unfold torch_randn. rewrite decide_False by lia.
  unfold mbind at 1, engine_bind at 1, gets at 1.
  unfold mbind at 1, engine_bind at 1, lift at 1.
  unfold py_floordiv. rewrite decide_False by done.
  destruct (generate_loop_spec
              {| element_size := 4; nelement := Z.to_N num_samples |}
              (py_range 0 (num_samples `div` frame_size e)) e Hp)
    as (e1 & Hloop & [H1 H2 H3 H4 H5] & Hg).
  unfold mbind at 1, engine_bind at 1. rewrite Hloop.
  unfold mbind at 1, engine_bind at 1, set_audio at 1.
  unfold mret, engine_ret. eexists. split; [reflexivity|]. simpl.
  split_and!; done.
Qed.
End engine_facts.


(** *** The chain of frames *)

Lemma all_dependents_spec g x :
  x ∈ all_dependents g ↔ ∃ k s, reverse_graph g !! k = Some s ∧ x ∈ s.
Proof.
  unfold all_dependents. rewrite elem_of_union_list. split.
  - intros (s & Hs & Hx). apply list_elem_of_fmap in Hs as ([k s'] & -> & Hks).
    apply elem_of_map_to_list in Hks. by exists k, s'.
  - intros (k & s & Hks & Hx). exists s. split; [|done].
    apply list_elem_of_fmap. exists (k, s). split; [done|].
    by apply elem_of_map_to_list.
Qed.

Lemma all_dependents_add g a b x :
  x ∈ all_dependents (add_dependency g a b) → x = a ∨ x ∈ all_dependents g.
Proof.
  rewrite !all_dependents_spec. intros (k & s & Hks & Hx). simpl in Hks.
  destruct (decide (b = k)) as [->|Hne].
  - rewrite lookup_insert_eq in Hks. injection Hks as <-.
    apply elem_of_union in Hx as [Hx|Hx]; [left; set_solver|right].
    destruct (reverse_graph g !! k) as [s|] eqn:Hk; simpl in Hx; [|set_solver].
    by exists k, s.
  - rewrite lookup_insert_ne in Hks by done. right. by exists k, s.
Qed.

Lemma all_dependents_frames l g x :
  x ∈ all_dependents (foldl add_frame_edge g l) →
  x ∈ all_dependents g ∨ ∃ i, i ∈ l ∧ i > 0 ∧ x = frame_id i.
Proof.
  revert g. induction l as [|i l IH]; intros g; simpl; [by left|].
  intros [Hx|(j & Hj & Hj0 & ->)]%IH.
  - unfold add_frame_edge in Hx. destruct (decide (i > 0)); [|by left].
    apply all_dependents_add in Hx as [->|Hx]; [|by left].
    right. exists i. split_and!; [left|done..].
  - right. exists j. split_and!; [by right|done..].
Qed.

Lemma frames_chain n :
  foldl add_frame_edge DependencyGraph_init (py_range 0 n) = chain_graph n.
Proof.
  unfold chain_graph, py_range.
  destruct (decide (0 < n)) as [Hn|Hn].
  - rewrite (seqZ_cons 0) by lia. simpl.
    replace (Z.pred (n - 0)) with (n - 1) by lia. change (Z.succ 0) with 1.
    unfold add_frame_edge at 2. rewrite decide_False by lia.
    assert (Hpos : ∀ i, i ∈ seqZ 1 (n - 1) → i > 0).
    { intros i Hi%elem_of_seqZ. lia. }
    revert Hpos. generalize (seqZ 1 (n - 1)) DependencyGraph_init.
    intros l. induction l as [|i l IH]; intros g Hpos; simpl; [done|].
    unfold add_frame_edge at 2. rewrite decide_True by (apply Hpos; left).
    apply IH. intros j Hj. apply Hpos. by right.
  - rewrite !seqZ_nil by lia. done.
Qed.

Lemma elem_of_changed_frames s t x :
  x ∈ changed_frames s t ↔ ∃ i, x = frame_id i ∧ s ≤ i ≤ t.
Proof.
  unfold changed_frames, py_range. rewrite elem_of_list_to_set, list_elem_of_fmap.
  split; intros (i & -> & Hi); exists i; (split; [done|]).
  - apply elem_of_seqZ in Hi. lia.
  - apply elem_of_seqZ. lia.
Qed.

(** The nodes affected by an edit of the frames [s..t] of a chain of [n]
    frames are frames of the edit or of the chain. *)
Lemma affected_in_chain o n s t A :
  get_affected_nodes o (chain_graph n) (changed_frames s t) = Some A →
  (∀ x, x ∈ A → ∃ i, x = frame_id i ∧ (s ≤ i ≤ t ∨ 0 < i < n))
  ∧ (∀ i, s ≤ i ≤ t → frame_id i ∈ A).
Proof.
  intros HA.
  destruct (get_affected_nodes_spec o (chain_graph n) (changed_frames s t))
    as (A' & HA' & Hdown).
  rewrite HA in HA'. injection HA' as <-. split.
  - intros x [Hx|Hx]%Hdown%downstream_cases.
    + apply elem_of_changed_frames in Hx as (i & -> & Hi). exists i. auto.
    + rewrite <- frames_chain in Hx.
      apply all_dependents_frames in Hx as [Hx|(i & Hi & Hi0 & ->)].
      * apply all_dependents_spec in Hx as (k & s' & Hk & _). done.
      * exists i. split; [done|]. right.
        apply elem_of_seqZ in Hi. lia.
  - intros i Hi. apply Hdown, downstream_changed, elem_of_changed_frames.
    by exists i.
Qed.

(** *** Writing a frame into the buffer *)

Lemma write_ok_in_range e i num_samples :
  current_audio e = Some {| element_size := 4; nelement := Z.to_N num_samples |} →
  0 ≤ num_samples → 0 < frame_size e →
  0 ≤ i < num_samples `div` frame_size e →
  write_ok e i = true.
Proof.
  intros Ha Hns Hfs Hi. unfold write_ok. rewrite Ha.
  unfold tensor_assign_ok. simpl. rewrite !Z2N.id by lia.
  apply orb_true_iff. left. apply bool_decide_eq_true.
  pose proof (Z.mul_div_le num_samples (frame_size e) Hfs).
  unfold py_slice_len, py_slice_bound.
  rewrite !decide_False by nia. nia.
Qed.

Lemma write_ok_out_of_range e i num_samples :
  current_audio e = Some {| element_size := 4; nelement := Z.to_N num_samples |} →
  0 ≤ num_samples → 1 < frame_size e →
  num_samples `div` frame_size e ≤ i →
  write_ok e i = false.
Proof.
  intros Ha Hns Hfs Hi. unfold write_ok. rewrite Ha.
  unfold tensor_assign_ok. simpl. rewrite !Z2N.id by lia.
  apply orb_false_iff. split; apply bool_decide_eq_false; [|lia].
  pose proof (Z.mul_succ_div_gt num_samples (frame_size e) ltac:(lia)).
  pose proof (Z.div_pos num_samples (frame_size e) ltac:(lia) ltac:(lia)).
  unfold py_slice_len, py_slice_bound.
  rewrite !decide_False by nia. nia.
Qed.

(** *** [sorted] *)

Lemma py_sorted_perm l1 l2 : l1 ≡ₚ l2 → py_sorted l1 = py_sorted l2.
Proof.
  intros Hp. unfold py_sorted.
  apply (Sorted_unique String.le); [apply Sorted_merge_sort; apply _..|].
  by rewrite !merge_sort_Permutation.
Qed.

Lemma py_sorted_enum o (A : gset string) : py_sorted (enum o A) = py_sorted (elements A).
Proof. apply py_sorted_perm, enum_perm. Qed.

(** *** The engine after [generate_full] *)

(** An engine holding a buffer of [num_samples] samples cut in frames of
    [fs] samples, with the chain of its frames as graph. *)
Record filled (e : SparseInferenceEngine) (fs num_samples : Z) : Prop := {
  filled_frame_size : frame_size e = fs;
  filled_policy : eviction_policy (engine_cache e) = "lru";
  filled_audio :
    current_audio e = Some {| element_size := 4; nelement := Z.to_N num_samples |};
  filled_length : current_length_frames e = num_samples `div` fs;
  filled_graph : dependency_graph e = chain_graph (num_samples `div` fs)
}.

Lemma generated_engine time_time cache_size_mb fs num_samples :
  fs ≠ 0 → 0 ≤ num_samples →
  let e := (generate_full time_time num_samples
              (SparseInferenceEngine_init cache_size_mb fs)).1 in
  filled e fs num_samples
  ∧ max_size_bytes (engine_cache e) = py_int_of_Q (cache_size_mb * 1024 * 1024)%Q.
Proof.
  intros Hfs Hns.
  destruct (generate_full_spec time_time num_samples
              (SparseInferenceEngine_init cache_size_mb fs))
    as (e' & Hrun & H1 & [H2 H3] & H4 & H5 & H6); [done|done|by left|].
  rewrite Hrun. simpl in *. split; [|done]. split; try done.
  by rewrite H6, frames_chain.
Qed.

(** An edit inside the buffer completes. *)
Lemma apply_edit_in_range o time_time e fs num_samples edit :
  filled e fs num_samples → 0 < fs → 0 ≤ num_samples →
  0 ≤ (affected_region edit).1 `quot` fs →
  (affected_region edit).1 `quot` fs ≤ (affected_region edit).2 `quot` fs →
  (affected_region edit).2 `quot` fs < num_samples `div` fs →
  max_size_bytes (engine_cache e) ≠ 0 →
  ∃ A stats e',
    get_affected_nodes o (chain_graph (num_samples `div` fs))
      (changed_frames ((affected_region edit).1 `quot` fs)
                      ((affected_region edit).2 `quot` fs)) = Some A
    ∧ apply_edit o time_time edit e
      = (e', Ok (current_audio e,
                 {| frames_recomputed := Z.of_nat (size A);
                    frames_total := num_samples `div` fs;
                    recompute_ratio :=
                      (inject_Z (Z.of_nat (size A)) / inject_Z (num_samples `div` fs))%Q;
                    cache_stats := stats |}))
    ∧ recomputed e' = py_sorted (enum o A)
    ∧ (∀ x, x ∈ A → ∃ i, x = frame_id i ∧ 0 ≤ i < num_samples `div` fs).
Proof.
  intros [E1 E2 E4 E5 E6] Hfs Hns Hs Hst Ht Hmax.
  destruct (get_affected_nodes_spec o (chain_graph (num_samples `div` fs))
              (changed_frames ((affected_region edit).1 `quot` fs)
                              ((affected_region edit).2 `quot` fs))) as (A & HA & _).
  destruct (affected_in_chain o _ _ _ A HA) as [Hids _].
  assert (Hrange : ∀ x, x ∈ A → ∃ i, x = frame_id i ∧ 0 ≤ i < num_samples `div` fs).
  { intros x (i & -> & Hi)%Hids. exists i. split; [done|lia]. }
  destruct (apply_edit_run o time_time edit e A)
    as (e' & r & Hrun & _ & Hok & _).
  - lia.
  - by left.
  - by rewrite E1, E6.
  - intros x (i & -> & _)%Hrange. by exists i.
  - destruct Hok as [Hrec Hr].
    + intros i (j & Hj & Hj')%Hrange. apply (inj frame_id) in Hj as <-.
      apply (write_ok_in_range e i num_samples); [done|done|lia|by rewrite E1].
    + destruct Hr as [stats Hr]; [rewrite E5; lia|done|].
      exists A, stats, e'. rewrite E5 in Hr. by rewrite Hrun, Hr.
Qed.

(** *** Statements about the engine *)

(** An edit inside frame 8, for frames of 512 samples. *)
Definition edit_frame_8 : EditOperation :=
  {| edit_id := "edit_1"; edit_type := "modify"; affected_region := (4100, 4500) |}.

(** C3 (the code departs from it). The loop of [apply_edit] goes through
    [sorted(affected_frames)], which orders the identifiers as strings: in
    a buffer of 11 frames, an edit of frame 2 recomputes frame 10 first,
    before frames 2 to 9. *)
Theorem recompute_order_is_lexicographic (o : SetOrder) (time_time : nat → Z) :
  let e := (generate_full time_time 5632 (SparseInferenceEngine_init 1000 512)).1 in
  let edit := {| edit_id := "edit_1"; edit_type := "modify";
                 affected_region := (1024, 1024) |} in
  current_length_frames e = 11
  ∧ ∃ e' v,
      apply_edit o time_time edit e = (e', Ok v)
      ∧ recomputed e' = ["frame_10"; "frame_2"; "frame_3"; "frame_4"; "frame_5";
                         "frame_6"; "frame_7"; "frame_8"; "frame_9"].
Proof.
  intros e edit.
  destruct (generated_engine time_time 1000 512 5632) as [F Hmax]; [lia|lia|].
  fold e in F, Hmax. clearbody e.
  split; [by rewrite (filled_length _ _ _ F)|].
  destruct (apply_edit_in_range o time_time e 512 5632 edit F)
    as (A & stats & e' & HA & Hrun & Hrec & _).
  { lia. } { lia. } { by vm_compute. } { by vm_compute. } { by vm_compute. }
  { rewrite Hmax. by vm_compute. }
  change ((affected_region edit).1 `quot` 512) with 2 in HA.
  change ((affected_region edit).2 `quot` 512) with 2 in HA.
  change (5632 `div` 512) with 11 in HA.
  rewrite (get_affected_nodes_order o elements_order) in HA.
  assert (Hc : get_affected_nodes elements_order (chain_graph 11) (changed_frames 2 2)
               = Some (list_to_set (frame_id <$> py_range 2 11))) by by vm_compute.
  rewrite Hc in HA. injection HA as <-.
  eexists e', _. split; [exact Hrun|].
  rewrite Hrec, py_sorted_enum. by vm_compute.
Qed.

(** An edit from frame 9 to frame 11. *)
Definition edit_past_end : EditOperation :=
  {| edit_id := "edit_1"; edit_type := "modify"; affected_region := (4608, 5632) |}.

(** *** An engine that has generated nothing *)

Lemma enum_empty o : enum o ∅ = [].
Proof.
  apply Permutation_nil_r. rewrite enum_perm. by rewrite elements_empty.
Qed.

Lemma get_affected_nodes_fresh o changed :
  get_affected_nodes o DependencyGraph_init changed = Some changed.
Proof.
  destruct (get_affected_nodes_spec o DependencyGraph_init changed) as (A & -> & HA).
  f_equal. apply set_eq. intros x. rewrite HA. split.
  - apply downstream_no_dependents. intros c _. reflexivity.
  - apply downstream_changed.
Qed.

Lemma invalidate_empty o c keys : cache c = [] → invalidate o c keys = c.
Proof.
  intros Hc. unfold invalidate. induction (enum o keys) as [|k l IH]; simpl; [done|].
  unfold invalidate_key at 2. rewrite Hc. simpl. done.
Qed.

Lemma put_empty c key a deps now :
  cache c = [] →
  put c key a deps now
  = (if decide (current_size_bytes c + tensor_bytes a > max_size_bytes c) then c
     else with_cache c
            [(key, {| timestamp := now; activations := a; dependencies := deps;
                      hit_count := 0; size_bytes := tensor_bytes a |})]
            (current_size_bytes c + tensor_bytes a),
     Ok tt).
Proof.
  intros Hc. unfold put, put_fuel. rewrite put_evict_loop_unfold.
  case_decide.
  - by rewrite decide_True.
  - by rewrite Hc.
Qed.

(** An edit inside frame 0. *)
Definition edit_frame_0 : EditOperation :=
  {| edit_id := "edit_1"; edit_type := "modify"; affected_region := (0, 100) |}.


(** * Further properties *)

(** ** Frame identifiers and the graph *)

(** X1. [int(f"frame_{i}".split('_')[1])] gives back [i], for every integer
    [i], negative ones included; so two frames have the same identifier
    only when they have the same index. *)
Theorem frame_id_round_trip (i j : Z) :
  frame_index (frame_id i) = Ok i ∧ (frame_id i = frame_id j ↔ i = j).
Proof.
  split; [apply frame_index_frame_id|].
  split; [apply (inj frame_id)|by intros ->].
Qed.

(** The graph after a series of calls to [add_dependency]. *)
Definition add_dependencies (g : DependencyGraph) (edges : list (string * string))
  : DependencyGraph :=
  foldl (λ g ab, add_dependency g ab.1 ab.2) g edges.

Lemma get_dependencies_add g a b x :
  get_dependencies (add_dependency g a b) x
  = if decide (a = x) then {[b]} ∪ get_dependencies g x else get_dependencies g x.
Proof.
  unfold get_dependencies. simpl. rewrite lookup_insert.
  by destruct (decide (a = x)) as [->|].
Qed.

Lemma get_dependents_add g a b x :
  get_dependents (add_dependency g a b) x
  = if decide (b = x) then {[a]} ∪ get_dependents g x else get_dependents g x.
Proof.
  unfold get_dependents. simpl. rewrite lookup_insert.
  by destruct (decide (b = x)) as [->|].
Qed.

Lemma add_dependencies_spec edges g a b :
  (b ∈ get_dependencies (add_dependencies g edges) a
   ↔ b ∈ get_dependencies g a ∨ (a, b) ∈ edges)
  ∧ (a ∈ get_dependents (add_dependencies g edges) b
     ↔ a ∈ get_dependents g b ∨ (a, b) ∈ edges).
Proof.
  revert g. induction edges as [|[a' b'] edges IH]; intros g; simpl.
  - split; (split; [by left|intros [H|H]; [done|by apply elem_of_nil in H]]).
  - destruct (IH (add_dependency g a' b')) as [IH1 IH2].
    unfold add_dependencies in *. rewrite IH1, IH2.
    rewrite get_dependencies_add, get_dependents_add, !elem_of_cons.
    split.
    + destruct (decide (a' = a)) as [->|]; [|naive_solver].
      rewrite elem_of_union, elem_of_singleton. naive_solver.
    + destruct (decide (b' = b)) as [->|]; [|naive_solver].
      rewrite elem_of_union, elem_of_singleton. naive_solver.
Qed.

(** X2. In a graph built by [add_dependency] from the empty graph, the
    two maps mirror each other: [b] is a dependency of [a] exactly when [a]
    is a dependent of [b], and exactly when the edge was added; a node that
    was never named has no dependency and no dependent. *)
Theorem graph_maps_mirror (edges : list (string * string)) (a b : string) :
  let g := add_dependencies DependencyGraph_init edges in
  (b ∈ get_dependencies g a ↔ (a, b) ∈ edges)
  ∧ (a ∈ get_dependents g b ↔ (a, b) ∈ edges)
  ∧ (b ∈ get_dependencies g a ↔ a ∈ get_dependents g b).
Proof.
  intros g. destruct (add_dependencies_spec edges DependencyGraph_init a b) as [H1 H2].
  fold g in H1, H2.
  assert (E1 : b ∈ get_dependencies g a ↔ (a, b) ∈ edges).
  { rewrite H1. unfold get_dependencies. simpl. rewrite lookup_empty. set_solver. }
  assert (E2 : a ∈ get_dependents g b ↔ (a, b) ∈ edges).
  { rewrite H2. unfold get_dependents. simpl. rewrite lookup_empty. set_solver. }
  split_and!; [done|done|]. by rewrite E1, E2.
Qed.

(** X3. Adding an edge twice is adding it once, and two edges can be added
    in either order. *)
Theorem add_dependency_idempotent_commutes (g : DependencyGraph) (a b c d : string) :
  add_dependency (add_dependency g a b) a b = add_dependency g a b
  ∧ add_dependency (add_dependency g a b) c d
    = add_dependency (add_dependency g c d) a b.
Proof.
  split.
  - unfold add_dependency. simpl. rewrite !lookup_insert_eq, !insert_insert_eq. simpl.
    f_equal; f_equal; set_solver.
  - unfold add_dependency. simpl. f_equal.
    + apply map_eq. intros k.
      repeat (rewrite lookup_insert || case_decide); simplify_eq/=; try done.
      f_equal. set_solver.
    + apply map_eq. intros k.
      repeat (rewrite lookup_insert || case_decide); simplify_eq/=; try done.
      f_equal. set_solver.
Qed.

Lemma downstream_union g X Y x :
  downstream g (X ∪ Y) x ↔ downstream g X x ∨ downstream g Y x.
Proof.
  unfold downstream. split.
  - intros (c & [Hc|Hc]%elem_of_union & Hr); [left|right]; by exists c.
  - intros [(c & Hc & Hr)|(c & Hc & Hr)]; exists c; (split; [set_solver|done]).
Qed.

Lemma downstream_idemp g X (A : gset string) x :
  (∀ y, y ∈ A ↔ downstream g X y) → downstream g A x ↔ downstream g X x.
Proof.
  intros HA. split.
  - intros (c & Hc & Hr). apply HA in Hc as (c0 & Hc0 & Hr0).
    exists c0. split; [done|]. by etrans.
  - intros Hx. apply downstream_changed. by apply HA.
Qed.

(** X4. [get_affected_nodes] is a closure: the result contains the changed
    nodes, the affected nodes of the result are the result, the affected
    nodes of a union are the union of the affected nodes, and nothing is
    affected when nothing changed. *)
Theorem get_affected_nodes_is_closure (o : SetOrder) (g : DependencyGraph)
    (X Y : gset string) :
  ∃ A B,
    get_affected_nodes o g X = Some A
    ∧ get_affected_nodes o g Y = Some B
    ∧ X ⊆ A
    ∧ get_affected_nodes o g A = Some A
    ∧ get_affected_nodes o g (X ∪ Y) = Some (A ∪ B)
    ∧ get_affected_nodes o g ∅ = Some ∅.
Proof.
  destruct (get_affected_nodes_spec o g X) as (A & HA & HAd).
  destruct (get_affected_nodes_spec o g Y) as (B & HB & HBd).
  destruct (get_affected_nodes_spec o g A) as (AA & HAA & HAAd).
  destruct (get_affected_nodes_spec o g (X ∪ Y)) as (AB & HAB & HABd).
  destruct (get_affected_nodes_spec o g ∅) as (E & HE & HEd).
  exists A, B. split_and!; [done|done|..].
  - intros x Hx. by apply HAd, downstream_changed.
  - rewrite HAA. f_equal. apply set_eq. intros x.
    rewrite HAAd, HAd. by apply downstream_idemp.
  - rewrite HAB. f_equal. apply set_eq. intros x.
    rewrite HABd, elem_of_union, HAd, HBd. apply downstream_union.
  - rewrite HE. f_equal. apply set_eq. intros x. rewrite HEd. split; [|set_solver].
    intros (c & Hc & _). set_solver.
Qed.

(** ** The cache *)

Lemma dict_set_keys_present {V} k (v v' : V) d :
  dict_lookup k d = Some v' → (dict_set k v d).*1 = d.*1.
Proof. intros H. by rewrite dict_set_keys, H. Qed.

Lemma dict_set_new {V} k (v : V) d : k ∉ d.*1 → dict_set k v d = d ++ [(k, v)].
Proof.
  induction d as [|[k0 v0] d IH]; csimpl; [done|].
  intros [Hne Hnin]%not_elem_of_cons. rewrite decide_False by done. by rewrite IH.
Qed.

Lemma put_with_room c key a deps now :
  current_size_bytes c + tensor_bytes a ≤ max_size_bytes c →
  put c key a deps now
  = (with_cache c
       (dict_set key {| timestamp := now; activations := a; dependencies := deps;
                        hit_count := 0; size_bytes := tensor_bytes a |} (cache c))
       (current_size_bytes c + tensor_bytes a), Ok tt).
Proof.
  intros Hroom. unfold put, put_fuel. rewrite put_evict_loop_unfold.
  by rewrite decide_False by lia.
Qed.

(** X5. [get] on a key that is absent returns [None] and only counts a
    miss.  On a key that is present it returns the stored buffer, counts a
    hit, stamps the entry with the time of the call and adds one to its
    hit count; the stored keys, their order, the other entries, the sizes
    and the running total are as before. *)
Theorem get_hit_and_miss (c : TemporalCache) (key : string) (now : Z) :
  (dict_lookup key (cache c) = None →
   (get c key now).2 = None
   ∧ cache (get c key now).1 = cache c
   ∧ misses (get c key now).1 = misses c + 1
   ∧ hits (get c key now).1 = hits c)
  ∧ (∀ entry, dict_lookup key (cache c) = Some entry →
     (get c key now).2 = Some (activations entry)
     ∧ dict_lookup key (cache (get c key now).1)
       = Some {| timestamp := now; activations := activations entry;
                 dependencies := dependencies entry;
                 hit_count := hit_count entry + 1;
                 size_bytes := size_bytes entry |}
     ∧ (∀ k, k ≠ key → dict_lookup k (cache (get c key now).1) = dict_lookup k (cache c))
     ∧ (cache (get c key now).1).*1 = (cache c).*1
     ∧ stored_bytes (get c key now).1 = stored_bytes c
     ∧ hits (get c key now).1 = hits c + 1
     ∧ misses (get c key now).1 = misses c)
  ∧ current_size_bytes (get c key now).1 = current_size_bytes c
  ∧ evictions (get c key now).1 = evictions c.
Proof.
  unfold get. split_and!.
  - by intros ->.
  - intros entry Hl. rewrite Hl. simpl. split_and!; try done.
    + rewrite dict_lookup_set. by rewrite decide_True.
    + intros k Hk. rewrite dict_lookup_set. by rewrite decide_False.
    + by apply dict_set_keys_present with entry.
    + unfold stored_bytes. simpl. rewrite dict_bytes_set, Hl. simpl. lia.
  - by destruct (dict_lookup key (cache c)).
  - by destruct (dict_lookup key (cache c)).
Qed.

Lemma get_hit_and_miss_witness :
  (get lru_example "a" 7).2 = Some {| element_size := 4; nelement := 10 |}
  ∧ (get lru_example "zz" 7).2 = None.
Proof.
  destruct (get_hit_and_miss lru_example "a" 7) as (_ & Hhit & _).
  destruct (get_hit_and_miss lru_example "zz" 7) as (Hmiss & _).
  split.
  - destruct (Hhit {| timestamp := 1; activations := {| element_size := 4; nelement := 10 |};
                      dependencies := ∅; hit_count := 0; size_bytes := 40 |}) as [H _];
      [by vm_compute|]. exact H.
  - apply Hmiss. by vm_compute.
Defined.

(** The number of [get] in a sequence of calls. *)
Fixpoint count_gets (ops : list cache_op) : Z :=
  match ops with
  | [] => 0
  | OpGet _ _ :: ops' => 1 + count_gets ops'
  | _ :: ops' => count_gets ops'
  end.

(** What the counters of a cache keep true. *)
Record counters_le (c c' : TemporalCache) : Prop := {
  hits_le : hits c ≤ hits c';
  misses_le : misses c ≤ misses c';
  evictions_le : evictions c ≤ evictions c'
}.

Lemma evict_min_requests f c :
  hits (evict_min f c).1 = hits c ∧ misses (evict_min f c).1 = misses c
  ∧ evictions c ≤ evictions (evict_min f c).1.
Proof.
  unfold evict_min. destruct (dict_min f (cache c)) as [[k e]|]; simpl; lia.
Qed.

Lemma _evict_one_requests c :
  hits (_evict_one c).1 = hits c ∧ misses (_evict_one c).1 = misses c
  ∧ evictions c ≤ evictions (_evict_one c).1.
Proof.
  unfold _evict_one. repeat case_decide; try apply evict_min_requests. simpl. lia.
Qed.

Lemma put_evict_loop_requests fuel size c :
  hits (put_evict_loop fuel size c).1 = hits c
  ∧ misses (put_evict_loop fuel size c).1 = misses c
  ∧ evictions c ≤ evictions (put_evict_loop fuel size c).1.
Proof.
  revert c. induction fuel as [|fuel IH]; intros c;
    rewrite put_evict_loop_unfold; repeat case_decide; simpl; try lia.
  pose proof (_evict_one_requests c) as (H1 & H2 & H3).
  destruct (_evict_one c) as [c' [[]|e|]]; simpl in *; try lia.
  destruct (IH c') as (K1 & K2 & K3). lia.
Qed.

Lemma put_fuel_requests fuel c key a deps now :
  hits (put_fuel fuel c key a deps now).1 = hits c
  ∧ misses (put_fuel fuel c key a deps now).1 = misses c
  ∧ evictions c ≤ evictions (put_fuel fuel c key a deps now).1.
Proof.
  unfold put_fuel. pose proof (put_evict_loop_requests fuel (tensor_bytes a) c) as H.
  by destruct (put_evict_loop fuel (tensor_bytes a) c) as [c' [[]|e|]].
Qed.

Lemma invalidate_requests o c keys :
  hits (invalidate o c keys) = hits c ∧ misses (invalidate o c keys) = misses c
  ∧ evictions (invalidate o c keys) = evictions c.
Proof.
  unfold invalidate. generalize (enum o keys). intros l. revert c.
  induction l as [|k l IH]; intros c; simpl; [done|].
  destruct (IH (invalidate_key c k)) as (H1 & H2 & H3). rewrite H1, H2, H3.
  unfold invalidate_key. by destruct (dict_lookup k (cache c)).
Qed.

(** The counters along a sequence of calls. *)
Lemma run_ops_counters (o : SetOrder) (c c' : TemporalCache) (ops : list cache_op) :
  run_ops o c ops = (c', Ok tt) →
  hits c' + misses c' = hits c + misses c + count_gets ops
  ∧ hits c ≤ hits c' ∧ misses c ≤ misses c' ∧ evictions c ≤ evictions c'.
Proof.
  revert c. induction ops as [|op ops IH]; intros c; simpl.
  - intros [= <-]. lia.
  - destruct (run_op o c op) as [c1 r1] eqn:Hop.
    destruct r1 as [[]|e|]; [|done..]. intros Hrun%IH.
    assert (hits c1 + misses c1
            = hits c + misses c + match op with OpGet _ _ => 1 | _ => 0 end
            ∧ hits c ≤ hits c1 ∧ misses c ≤ misses c1 ∧ evictions c ≤ evictions c1)
      as Hstep.
    { destruct op as [key now|key a deps now|keys| |]; simpl in Hop.
      - injection Hop as <-. unfold get.
        destruct (dict_lookup key (cache c)); simpl; lia.
      - pose proof (put_fuel_requests (length (cache c)) c key a deps now) as H.
        unfold put in Hop. rewrite Hop in H. simpl in H. lia.
      - injection Hop as <-. pose proof (invalidate_requests o c keys). lia.
      - injection Hop as <-. simpl. lia.
      - pose proof (_evict_one_requests c) as H. rewrite Hop in H. simpl in H. lia. }
    destruct op; simpl; lia.
Qed.

(** X6. The counters count: after a sequence of calls that completes,
    [hits + misses] has grown by the number of [get] in the sequence, and
    neither [hits], [misses] nor [evictions] has gone down. *)
Theorem counters_count_requests (o : SetOrder) (c c' : TemporalCache)
    (ops : list cache_op) :
  run_ops o c ops = (c', Ok tt) →
  hits c' + misses c' = hits c + misses c + count_gets ops
  ∧ hits c ≤ hits c' ∧ misses c ≤ misses c' ∧ evictions c ≤ evictions c'.
Proof. apply run_ops_counters. Qed.

Lemma counters_count_requests_witness :
  hits (run_ops elements_order (TemporalCache_init 1 "lru") ops_example).1
  + misses (run_ops elements_order (TemporalCache_init 1 "lru") ops_example).1 = 1.
Proof.
  destruct (counters_count_requests elements_order (TemporalCache_init 1 "lru")
              (run_ops elements_order (TemporalCache_init 1 "lru") ops_example).1
              ops_example) as [H _]; [by vm_compute|].
  rewrite H. reflexivity.
Defined.

(** X7. A [put] that has room ([current_size_bytes] plus the size of the
    buffer within the capacity) stores the buffer whatever the policy,
    evicts nothing and touches no other key; a [get] of the key then
    returns the buffer. *)
Theorem put_with_room_then_get (c : TemporalCache) (key : string) (a : Tensor)
    (deps : gset string) (now later : Z) :
  current_size_bytes c + tensor_bytes a ≤ max_size_bytes c →
  ∃ c', put c key a deps now = (c', Ok tt)
        ∧ (get c' key later).2 = Some a
        ∧ dict_lookup key (cache c')
          = Some {| timestamp := now; activations := a; dependencies := deps;
                    hit_count := 0; size_bytes := tensor_bytes a |}
        ∧ (∀ k, k ≠ key → dict_lookup k (cache c') = dict_lookup k (cache c))
        ∧ evictions c' = evictions c
        ∧ current_size_bytes c' = current_size_bytes c + tensor_bytes a.
Proof.
  intros Hroom. unfold put, put_fuel. rewrite put_evict_loop_unfold.
  rewrite decide_False by lia. eexists. split; [reflexivity|]. simpl.
  assert (Hl : dict_lookup key
                 (dict_set key
                    {| timestamp := now; activations := a; dependencies := deps;
                       hit_count := 0; size_bytes := tensor_bytes a |} (cache c))
               = Some {| timestamp := now; activations := a; dependencies := deps;
                         hit_count := 0; size_bytes := tensor_bytes a |}).
  { rewrite dict_lookup_set. by rewrite decide_True. }
  split_and!; try done.
  - unfold get. simpl. by rewrite Hl.
  - intros k Hk. rewrite dict_lookup_set. by rewrite decide_False.
Qed.

Lemma put_with_room_then_get_witness :
  ∃ c', put (TemporalCache_init 1 "fifo") "a" {| element_size := 4; nelement := 10 |} ∅ 1
        = (c', Ok tt)
        ∧ (get c' "a" 2).2 = Some {| element_size := 4; nelement := 10 |}.
Proof.
  destruct (put_with_room_then_get (TemporalCache_init 1 "fifo") "a"
              {| element_size := 4; nelement := 10 |} ∅ 1 2) as (c' & H1 & H2 & _).
  - vm_compute. discriminate.
  - by exists c'.
Defined.

Lemma put_evict_loop_false fuel size c c' :
  put_evict_loop fuel size c = (c', Ok false) →
  cache c' = [] ∧ current_size_bytes c' + size > max_size_bytes c'.
Proof.
  revert c. induction fuel as [|fuel IH]; intros c;
    rewrite put_evict_loop_unfold; repeat case_decide; try done;
    try (by intros [= <-]).
  destruct (_evict_one c) as [c1 [[]|e|]]; [|done..]. apply IH.
Qed.

Lemma put_evict_loop_true fuel size c c' :
  put_evict_loop fuel size c = (c', Ok true) →
  current_size_bytes c' + size ≤ max_size_bytes c'.
Proof.
  revert c. induction fuel as [|fuel IH]; intros c;
    rewrite put_evict_loop_unfold; repeat case_decide; try done;
    try (intros [= <-]; lia).
  destruct (_evict_one c) as [c1 [[]|e|]]; [|done..]. apply IH.
Qed.

(** X8. With a policy that evicts and a running total that agrees with
    the contents, a buffer no larger than the capacity is always stored,
    after the evictions it needs, and a [get] of its key returns it; the
    stored bytes stay within the capacity. *)
Theorem put_within_capacity_is_stored (c : TemporalCache) (key : string) (a : Tensor)
    (deps : gset string) (now later : Z) :
  known_policy c → cache_exact c → tensor_bytes a ≤ max_size_bytes c →
  ∃ c', put c key a deps now = (c', Ok tt)
        ∧ (get c' key later).2 = Some a
        ∧ stored_bytes c' ≤ max_size_bytes c'.
Proof.
  intros Hp Hex Hfit. unfold put, put_fuel.
  destruct (put_evict_loop_known (length (cache c)) (tensor_bytes a) c Hp)
    as (c1 & b & Hloop & _); [done|].
  pose proof (put_evict_loop_exact (length (cache c)) (tensor_bytes a) c Hex) as Hex1.
  pose proof (put_evict_loop_config (length (cache c)) (tensor_bytes a) c) as [Hmax _].
  rewrite Hloop in *. simpl in *. destruct b.
  - eexists. split; [reflexivity|]. simpl. split.
    + unfold get. simpl. rewrite dict_lookup_set. by rewrite decide_True.
    + pose proof (put_evict_loop_true _ _ _ _ Hloop) as Hcap.
      destruct Hex1 as [_ Hs Ht]. unfold stored_bytes in *. simpl.
      rewrite dict_bytes_set. cbn [size_bytes].
      destruct (dict_lookup key (cache c1)) as [old|] eqn:Hold; [|lia].
      apply dict_lookup_Some_elem in Hold.
      pose proof (proj1 (Forall_forall _ _) Hs _ Hold) as Hold'. simpl in Hold'. lia.
  - apply put_evict_loop_false in Hloop as [Hempty Hfull].
    destruct Hex1 as [_ _ Ht]. unfold stored_bytes in Ht. rewrite Hempty in Ht.
    simpl in Ht. lia.
Qed.

Lemma put_within_capacity_is_stored_witness :
  ∃ c', put lru_example "c" {| element_size := 4; nelement := 20 |} ∅ 3 = (c', Ok tt)
        ∧ (get c' "c" 4).2 = Some {| element_size := 4; nelement := 20 |}.
Proof.
  destruct (put_within_capacity_is_stored lru_example "c"
              {| element_size := 4; nelement := 20 |} ∅ 3 4) as (c' & H1 & H2 & _).
  - by left.
  - split; [vm_compute; repeat constructor; set_solver
           |vm_compute; repeat constructor; discriminate|by vm_compute].
  - vm_compute. discriminate.
  - by exists c'.
Defined.

Lemma get_exact c key now : cache_exact c → cache_exact (get c key now).1.
Proof.
  intros [Hk Hs Ht]. unfold get.
  destruct (dict_lookup key (cache c)) as [entry|] eqn:Hl; simpl; [|done].
  split; simpl.
  - by apply dict_set_NoDup.
  - apply Forall_forall. intros kv [->|Hin]%dict_set_elem.
    + simpl. apply dict_lookup_Some_elem in Hl.
      by apply (proj1 (Forall_forall _ _) Hs _ Hl).
    + by apply (proj1 (Forall_forall _ _) Hs).
  - unfold stored_bytes in *. simpl. rewrite dict_bytes_set, Hl. simpl. lia.
Qed.

Lemma invalidate_key_exact c key : cache_exact c → cache_exact (invalidate_key c key).
Proof.
  intros [Hk Hs Ht]. unfold invalidate_key.
  destruct (dict_lookup key (cache c)) as [entry|] eqn:Hl; [|done].
  split; simpl.
  - by apply dict_del_NoDup.
  - apply Forall_forall. intros kv Hkv%dict_del_elem.
    by apply (proj1 (Forall_forall _ _) Hs).
  - unfold stored_bytes in *. simpl. rewrite (dict_bytes_del key entry) by done. lia.
Qed.

Lemma invalidate_exact o c keys : cache_exact c → cache_exact (invalidate o c keys).
Proof.
  unfold invalidate. generalize (enum o keys). intros l. revert c.
  induction l as [|k l IH]; intros c Hex; simpl; [done|].
  by apply IH, invalidate_key_exact.
Qed.

Lemma clear_exact c : cache_exact (clear c).
Proof. split; simpl; [constructor|constructor|done]. Qed.

Lemma _evict_one_exact c : cache_exact c → cache_exact (_evict_one c).1.
Proof. unfold _evict_one. repeat case_decide; auto using evict_min_exact. Qed.

(** No [put] of the sequence replaces an entry: each is on a key that is
    absent when it is called. *)
Fixpoint puts_fresh (o : SetOrder) (c : TemporalCache) (ops : list cache_op) : Prop :=
  match ops with
  | [] => True
  | op :: ops' =>
      match op with
      | OpPut key _ _ _ => dict_lookup key (cache c) = None
      | _ => True
      end
      ∧ puts_fresh o (run_op o c op).1 ops'
  end.

(** X9. As long as no [put] is made on a key that is present, the running
    total is exact: after any such sequence of calls on a new cache,
    [current_size_bytes] is the sum of the sizes of the stored entries. *)
Theorem total_exact_without_replacement (o : SetOrder) (max_size_mb : Q)
    (policy : string) (ops : list cache_op) :
  puts_fresh o (TemporalCache_init max_size_mb policy) ops →
  current_size_bytes (run_ops o (TemporalCache_init max_size_mb policy) ops).1
  = stored_bytes (run_ops o (TemporalCache_init max_size_mb policy) ops).1.
Proof.
  assert (Hinit : cache_exact (TemporalCache_init max_size_mb policy)).
  { split; simpl; [constructor|constructor|done]. }
  revert Hinit. generalize (TemporalCache_init max_size_mb policy). intros c.
  revert c. induction ops as [|op ops IH]; intros c Hex; simpl.
  - intros _. apply Hex.
  - intros [Hop Hrest].
    assert (Hex1 : cache_exact (run_op o c op).1).
    { destruct op as [key now|key a deps now|keys| |]; simpl.
      - by apply get_exact.
      - by apply put_new_key_exact.
      - by apply invalidate_exact.
      - apply clear_exact.
      - by apply _evict_one_exact. }
    destruct (run_op o c op) as [c1 [[]|e|]]; simpl in *.
    + by apply IH.
    + apply Hex1.
    + apply Hex1.
Qed.

Definition ops_fresh_example : list cache_op :=
  [ OpPut "frame_0" {| element_size := 4; nelement := 200000 |} ∅ 1;
    OpGet "frame_0" 2;
    OpPut "frame_1" {| element_size := 4; nelement := 100000 |} {[ "frame_0" ]} 3;
    OpInvalidate {[ "frame_0" ]};
    OpPut "frame_0" {| element_size := 4; nelement := 150000 |} ∅ 4;
    OpPut "frame_2" {| element_size := 4; nelement := 150000 |} {[ "frame_1" ]} 5 ].

Lemma total_exact_without_replacement_witness :
  current_size_bytes
    (run_ops elements_order (TemporalCache_init 1 "lru") ops_fresh_example).1
  = stored_bytes (run_ops elements_order (TemporalCache_init 1 "lru") ops_fresh_example).1.
Proof.
  apply (total_exact_without_replacement elements_order 1 "lru" ops_fresh_example).
  by vm_compute.
Defined.

(** *** [invalidate] *)

Lemma invalidate_key_lookup c key k :
  NoDup (cache c).*1 →
  dict_lookup k (cache (invalidate_key c key))
  = if decide (key = k) then None else dict_lookup k (cache c).
Proof.
  intros Hnd. unfold invalidate_key.
  destruct (dict_lookup key (cache c)) as [entry|] eqn:Hl; simpl.
  - by apply dict_lookup_del.
  - case_decide; [by subst|done].
Qed.

Lemma invalidate_key_NoDup c key : NoDup (cache c).*1 → NoDup (cache (invalidate_key c key)).*1.
Proof.
  intros Hnd. unfold invalidate_key.
  destruct (dict_lookup key (cache c)); [|done]. simpl. by apply dict_del_NoDup.
Qed.

Lemma invalidate_list_lookup l c k :
  NoDup (cache c).*1 →
  dict_lookup k (cache (foldl invalidate_key c l))
  = if decide (k ∈ l) then None else dict_lookup k (cache c).
Proof.
  revert c. induction l as [|key l IH]; intros c Hnd; simpl.
  - done.
  - rewrite IH by by apply invalidate_key_NoDup. rewrite invalidate_key_lookup by done.
    destruct (decide (k ∈ l)) as [Hin|Hin].
    + rewrite decide_True; [done|by right].
    + destruct (decide (key = k)) as [->|Hne].
      * rewrite decide_True; [done|left].
      * rewrite decide_False; [done|]. intros [->|?]%elem_of_cons; done.
Qed.

Lemma invalidate_absent l c :
  (∀ k, k ∈ l → dict_lookup k (cache c) = None) → foldl invalidate_key c l = c.
Proof.
  revert c. induction l as [|key l IH]; intros c Habs; simpl; [done|].
  assert (invalidate_key c key = c) as ->.
  { unfold invalidate_key. rewrite Habs; [done|left]. }
  apply IH. intros k Hk. apply Habs. by right.
Qed.

Lemma dict_del_comm {V} k1 k2 (d : list (string * V)) :
  dict_del k1 (dict_del k2 d) = dict_del k2 (dict_del k1 d).
Proof.
  induction d as [|[k v] d IH]; simpl; [done|].
  repeat (case_decide; simplify_eq/=); try done. by rewrite IH.
Qed.

Lemma dict_lookup_del_ne {V} k k' (d : list (string * V)) :
  k ≠ k' → dict_lookup k' (dict_del k d) = dict_lookup k' d.
Proof.
  intros Hne. induction d as [|[k0 v0] d IH]; simpl; [done|].
  destruct (decide (k0 = k)) as [->|]; simpl.
  - by rewrite decide_False.
  - by rewrite IH.
Qed.

Lemma invalidate_key_comm c k1 k2 :
  invalidate_key (invalidate_key c k1) k2 = invalidate_key (invalidate_key c k2) k1.
Proof.
  destruct (decide (k1 = k2)) as [->|Hne]; [done|].
  unfold invalidate_key.
  destruct (dict_lookup k1 (cache c)) as [e1|] eqn:H1,
           (dict_lookup k2 (cache c)) as [e2|] eqn:H2; simpl;
    rewrite ?dict_lookup_del_ne by done; rewrite ?H1, ?H2; simpl; try done.
  unfold with_cache. simpl. f_equal; [apply dict_del_comm|lia].
Qed.

Lemma invalidate_list_perm l1 l2 c :
  l1 ≡ₚ l2 → foldl invalidate_key c l1 = foldl invalidate_key c l2.
Proof.
  intros Hp. revert c. induction Hp as [|x l1 l2 _ IH|x y l|l1 l2 l3 _ IH1 _ IH2];
    intros c; simpl.
  - done.
  - apply IH.
  - by rewrite invalidate_key_comm.
  - by rewrite IH1, IH2.
Qed.

(** X10. After [invalidate(keys)] no key of [keys] is in the cache and the
    other keys have the entries they had; the counters are untouched; a
    key that is absent is skipped without error; the result does not depend
    on the order in which the set is gone through; and invalidating the same
    keys again changes nothing. *)
Theorem invalidate_removes_exactly (o o' : SetOrder) (c : TemporalCache)
    (keys : gset string) :
  NoDup (cache c).*1 →
  (∀ k, dict_lookup k (cache (invalidate o c keys))
        = if decide (k ∈ keys) then None else dict_lookup k (cache c))
  ∧ invalidate o' c keys = invalidate o c keys
  ∧ invalidate o (invalidate o c keys) keys = invalidate o c keys
  ∧ hits (invalidate o c keys) = hits c
  ∧ misses (invalidate o c keys) = misses c
  ∧ evictions (invalidate o c keys) = evictions c.
Proof.
  intros Hnd.
  assert (Hlook : ∀ k, dict_lookup k (cache (invalidate o c keys))
                       = if decide (k ∈ keys) then None else dict_lookup k (cache c)).
  { intros k. unfold invalidate. rewrite invalidate_list_lookup by done.
    destruct (decide (k ∈ enum o keys)) as [Hin|Hin];
      rewrite enum_perm, elem_of_elements in Hin.
    - by rewrite decide_True.
    - by rewrite decide_False. }
  split_and!; [done|..|apply invalidate_requests|apply invalidate_requests
              |apply invalidate_requests].
  - unfold invalidate. apply invalidate_list_perm. by rewrite !enum_perm.
  - unfold invalidate at 1. apply invalidate_absent.
    intros k Hk. rewrite Hlook. rewrite decide_True; [done|].
    by rewrite enum_perm, elem_of_elements in Hk.
Qed.

Lemma invalidate_removes_exactly_witness :
  dict_lookup "a" (cache (invalidate elements_order lru_example {[ "a"; "zz" ]})) = None
  ∧ is_Some (dict_lookup "b" (cache (invalidate elements_order lru_example {[ "a"; "zz" ]}))).
Proof.
  destruct (invalidate_removes_exactly elements_order elements_order lru_example
              {[ "a"; "zz" ]}) as [H _].
  { vm_compute. repeat constructor; set_solver. }
  rewrite !H. split; [by vm_compute|]. vm_compute. by eexists.
Defined.

(** X11. [clear] empties the cache, brings the running total back to zero
    and keeps the three counters; after it every [get] misses, and a [put]
    of a buffer no larger than the capacity is stored, whatever the state
    before and whatever the policy. *)
Theorem clear_then_put_get (c : TemporalCache) (key : string) (a : Tensor)
    (deps : gset string) (now later : Z) :
  cache (clear c) = []
  ∧ current_size_bytes (clear c) = 0
  ∧ hits (clear c) = hits c ∧ misses (clear c) = misses c
  ∧ evictions (clear c) = evictions c
  ∧ (get (clear c) key now).2 = None
  ∧ (tensor_bytes a ≤ max_size_bytes c →
     ∃ c', put (clear c) key a deps now = (c', Ok tt)
           ∧ (get c' key later).2 = Some a
           ∧ current_size_bytes c' = tensor_bytes a
           ∧ stored_bytes c' = tensor_bytes a).
Proof.
  split_and!; try done.
  intros Hfit. rewrite put_with_room by (simpl; lia).
  eexists. split; [reflexivity|]. split_and!.
  - unfold get. simpl. by rewrite decide_True.
  - simpl. lia.
  - unfold stored_bytes. simpl. lia.
Qed.

Lemma clear_then_put_get_witness :
  ∃ c', put (clear fifo_example) "b" {| element_size := 4; nelement := 20 |} ∅ 5
        = (c', Ok tt)
        ∧ (get c' "b" 6).2 = Some {| element_size := 4; nelement := 20 |}.
Proof.
  destruct (clear_then_put_get fifo_example "b" {| element_size := 4; nelement := 20 |}
              ∅ 5 6) as (_ & _ & _ & _ & _ & _ & H).
  destruct H as (c' & H1 & H2 & _); [vm_compute; discriminate|]. by exists c'.
Defined.

(** *** [get_stats] *)

Lemma Qdiv_unit_interval (a b : Z) :
  0 ≤ a ≤ b → 0 < b → (0 <= inject_Z a / inject_Z b)%Q ∧ (inject_Z a / inject_Z b <= 1)%Q.
Proof.
  intros Ha Hb. destruct b as [|p|p]; try lia.
  unfold Qle, Qdiv, Qmult, Qinv, inject_Z. simpl. split; lia.
Qed.

(** X12. On a cache reached from a new one of capacity not negative,
    [get_stats] raises [ZeroDivisionError] when [max_size_bytes] is 0 (a
    capacity below one byte) and otherwise returns statistics in which
    [hit_rate] and [utilization] are between 0 and 1, [hit_rate] is 0 when
    no [get] was made, and [num_entries] is the number of stored entries. *)
Theorem get_stats_bounds (o : SetOrder) (max_size_mb : Q) (policy : string)
    (ops : list cache_op) (c' : TemporalCache) :
  (0 <= max_size_mb)%Q →
  run_ops o (TemporalCache_init max_size_mb policy) ops = (c', Ok tt) →
  (max_size_bytes c' = 0 → get_stats c' = Raise ZeroDivisionError)
  ∧ (max_size_bytes c' ≠ 0 →
     ∃ st, get_stats c' = Ok st
           ∧ (0 <= stat_hit_rate st)%Q ∧ (stat_hit_rate st <= 1)%Q
           ∧ (0 <= stat_utilization st)%Q ∧ (stat_utilization st <= 1)%Q
           ∧ (count_gets ops = 0 → stat_hit_rate st = 0%Q)
           ∧ stat_num_entries st = Z.of_nat (length (cache c'))
           ∧ stat_hits st + stat_misses st = count_gets ops).
Proof.
  intros Hcap Hrun.
  pose proof (run_ops_inv o _ ops (TemporalCache_init_inv max_size_mb policy Hcap)) as Hinv.
  rewrite Hrun in Hinv. destruct Hinv as [_ Hs Hb Hc]. simpl in *.
  pose proof (dict_bytes_nonneg _ Hs) as Hnn. unfold stored_bytes in Hb.
  destruct (run_ops_counters o _ _ _ Hrun) as (Hcount & Hh & Hm & _). simpl in *.
  unfold get_stats. split.
  - intros ->. by rewrite decide_True.
  - intros Hmax. rewrite decide_False by done. eexists. split; [reflexivity|]. simpl.
    split_and!.
    + case_decide; [|done]. apply Qdiv_unit_interval; lia.
    + case_decide; [|done]. apply Qdiv_unit_interval; lia.
    + apply Qdiv_unit_interval; lia.
    + apply Qdiv_unit_interval; lia.
    + intros H0. rewrite decide_False; [done|lia].
    + done.
    + lia.
Qed.

Lemma get_stats_bounds_witness :
  ∃ st, get_stats (run_ops elements_order (TemporalCache_init 1 "lru") ops_example).1 = Ok st
        ∧ (stat_utilization st <= 1)%Q.
Proof.
  destruct (get_stats_bounds elements_order 1 "lru" ops_example
              (run_ops elements_order (TemporalCache_init 1 "lru") ops_example).1)
    as [_ H].
  - unfold Qle. simpl. lia.
  - vm_compute. reflexivity.
  - destruct H as (st & H1 & _ & _ & _ & H2 & _); [vm_compute; discriminate|].
    exists st. split; assumption.
Defined.

(** *** The entry that an eviction takes *)

Lemma min_from_first {V} (f : V → Z) best d :
  ∃ d1 d2,
    best :: d = d1 ++ min_from f best d :: d2
    ∧ (∀ x, x ∈ d1 → f (min_from f best d).2 < f x.2)
    ∧ (∀ x, x ∈ d2 → f (min_from f best d).2 ≤ f x.2).
Proof.
  revert best. induction d as [|kv d IH]; intros best; simpl.
  - exists [], []. split_and!; [done|..]; intros x Hx; by apply elem_of_nil in Hx.
  - destruct (decide (f kv.2 < f best.2)) as [Hlt|Hge].
    + destruct (IH kv) as (d1 & d2 & Heq & H1 & H2).
      exists (best :: d1), d2. split_and!.
      * by rewrite Heq.
      * intros x [->|Hx]%elem_of_cons; [|by apply H1].
        destruct (min_from_spec f kv d) as [_ Hmin].
        specialize (Hmin kv ltac:(left)). lia.
      * done.
    + destruct (IH best) as (d1 & d2 & Heq & H1 & H2).
      destruct d1 as [|b d1]; simpl in Heq.
      * injection Heq as Hb Hd. exists [], (kv :: d).
        split_and!.
        -- simpl. by rewrite <- Hb.
        -- intros x Hx. by apply elem_of_nil in Hx.
        -- rewrite <- Hb. intros x [->|Hx]%elem_of_cons; [lia|].
           rewrite Hb. apply H2. by rewrite <- Hd.
      * injection Heq as <- Hd. exists (best :: kv :: d1), d2.
        split_and!.
        -- simpl. by rewrite <- Hd.
        -- intros x [->|[->|Hx]%elem_of_cons]%elem_of_cons.
           ++ apply H1. left.
           ++ specialize (H1 best ltac:(left)). lia.
           ++ apply H1. by right.
        -- done.
Qed.

Lemma dict_del_middle {V} k (v : V) d1 d2 :
  k ∉ d1.*1 → dict_del k (d1 ++ (k, v) :: d2) = d1 ++ d2.
Proof.
  induction d1 as [|[k0 v0] d1 IH]; csimpl.
  - intros _. by rewrite decide_True.
  - intros [Hne Hnin]%not_elem_of_cons. rewrite decide_False by done.
    by rewrite IH.
Qed.

(** X13. Under "lfu" an eviction removes the entry with the smallest
    [hit_count], under "lru" the one with the smallest [timestamp]; among
    several smallest, the one that was inserted first.  The other entries
    stay, in their order; [evictions] grows by one and the running total
    drops by the size of the entry. *)
Theorem eviction_takes_first_smallest (c : TemporalCache) :
  known_policy c → NoDup (cache c).*1 → cache c ≠ [] →
  ∃ d1 k entry d2,
    cache c = d1 ++ (k, entry) :: d2
    ∧ (∀ x, x ∈ d1 → policy_key c entry < policy_key c x.2)
    ∧ (∀ x, x ∈ d2 → policy_key c entry ≤ policy_key c x.2)
    ∧ _evict_one c =
        ({| max_size_bytes := max_size_bytes c; eviction_policy := eviction_policy c;
            cache := d1 ++ d2;
            current_size_bytes := current_size_bytes c - size_bytes entry;
            hits := hits c; misses := misses c; evictions := evictions c + 1 |}, Ok tt)
    ∧ (eviction_policy c = "lru" → policy_key c = timestamp)
    ∧ (eviction_policy c = "lfu" → policy_key c = hit_count).
Proof.
  intros Hp Hnd Hne. rewrite (_evict_one_known c Hp). unfold evict_min.
  destruct (cache c) as [|best d] eqn:Hc; [done|]. cbn [dict_min].
  destruct (min_from_first (policy_key c) best d) as (d1 & d2 & Heq & H1 & H2).
  destruct (min_from (policy_key c) best d) as [k entry] eqn:Hm.
  exists d1, k, entry, d2. split_and!; try done.
  - rewrite Heq. rewrite dict_del_middle; [done|].
    rewrite Heq in Hnd. rewrite fmap_app in Hnd. csimpl in Hnd.
    apply NoDup_app in Hnd as (_ & Hdis & _). intros Hk. apply (Hdis k Hk). left.
  - intros H. unfold policy_key. by rewrite decide_True.
  - intros H. unfold policy_key. rewrite decide_False; [done|]. by rewrite H.
Qed.

Definition lfu_example : TemporalCache :=
  let buffer := {| element_size := 4; nelement := 10 |} in
  let c0 := TemporalCache_init (100 # 1048576) "lfu" in
  let c1 := (put c0 "a" buffer ∅ 1).1 in
  let c2 := (put c1 "b" buffer ∅ 2).1 in
  (get (get c2 "a" 3).1 "b" 4).1.

Lemma eviction_takes_first_smallest_witness :
  ∃ d1 k entry d2,
    cache lfu_example = d1 ++ (k, entry) :: d2
    ∧ (∀ x, x ∈ d1 → policy_key lfu_example entry < policy_key lfu_example x.2)
    ∧ (∀ x, x ∈ d2 → policy_key lfu_example entry ≤ policy_key lfu_example x.2)
    ∧ (_evict_one lfu_example).2 = Ok tt
    ∧ cache (_evict_one lfu_example).1 = d1 ++ d2.
Proof.
  destruct (eviction_takes_first_smallest lfu_example)
    as (d1 & k & entry & d2 & Hc & H1 & H2 & Hev & _).
  - right. vm_compute. reflexivity.
  - vm_compute. repeat constructor; set_solver.
  - vm_compute. discriminate.
  - exists d1, k, entry, d2. rewrite Hev. split_and!; assumption || reflexivity.
Defined.

(** X14. [put] never raises: the call to [_evict_one] is made only on a
    cache that holds an entry.  Called on an empty cache, [_evict_one]
    itself raises [ValueError] (the [min] of an empty sequence) under "lru"
    and "lfu", and does nothing under any other policy. *)
Theorem put_never_raises (fuel : nat) (c : TemporalCache) (key : string) (a : Tensor)
    (deps : gset string) (now : Z) :
  (∀ e, (put_fuel fuel c key a deps now).2 ≠ Raise e)
  ∧ (cache c = [] → known_policy c → _evict_one c = (c, Raise ValueError))
  ∧ (¬ known_policy c → _evict_one c = (c, Ok tt)).
Proof.
  split_and!.
  - intros e. unfold put_fuel.
    assert (H : ∀ e', (put_evict_loop fuel (tensor_bytes a) c).2 ≠ Raise e').
    { clear. generalize (tensor_bytes a). intros size. revert c.
      induction fuel as [|fuel IH]; intros c e';
        rewrite put_evict_loop_unfold; repeat case_decide; try done.
      destruct (decide (eviction_policy c = "lru")) as [Hlru|Hlru];
        [|destruct (decide (eviction_policy c = "lfu")) as [Hlfu|Hlfu]].
      - rewrite (_evict_one_known c) by by left.
        destruct (evict_min_nonempty (policy_key c) c)
          as (k & entry & _ & _ & _ & -> & _); [done|]. apply IH.
      - rewrite (_evict_one_known c) by by right.
        destruct (evict_min_nonempty (policy_key c) c)
          as (k & entry & _ & _ & _ & -> & _); [done|]. apply IH.
      - unfold _evict_one. rewrite !decide_False by done. apply IH. }
    destruct (put_evict_loop fuel (tensor_bytes a) c) as [c' [[]|e'|]]; simpl; try done.
    by specialize (H e').
  - intros Hempty Hp. rewrite (_evict_one_known c Hp). unfold evict_min.
    by rewrite Hempty.
  - intros Hp. unfold _evict_one.
    rewrite !decide_False; [done|..]; intros H; apply Hp; [by right|by left].
Qed.

Lemma put_never_raises_witness :
  _evict_one (TemporalCache_init 1 "lru") = (TemporalCache_init 1 "lru", Raise ValueError)
  ∧ _evict_one fifo_example = (fifo_example, Ok tt).
Proof.
  split.
  - apply (put_never_raises O (TemporalCache_init 1 "lru") "a"
             {| element_size := 4; nelement := 1 |} ∅ 0); [done|by left].
  - apply (put_never_raises O fifo_example "a"
             {| element_size := 4; nelement := 1 |} ∅ 0).
    intros [H|H]; vm_compute in H; discriminate.
Defined.

(** ** The engine *)

(** *** Dependents in the chain of frames *)

Lemma chain_graph_edges n :
  chain_graph n
  = add_dependencies DependencyGraph_init
      ((λ i, (frame_id i, frame_id (i - 1))) <$> py_range 1 n).
Proof.
  unfold chain_graph, add_dependencies.
  generalize DependencyGraph_init. induction (py_range 1 n) as [|i l IH]; intros g.
  - done.
  - csimpl. apply IH.
Qed.

Lemma chain_dependents n y z :
  z ∈ get_dependents (chain_graph n) y
  ↔ ∃ i, 0 < i < n ∧ y = frame_id (i - 1) ∧ z = frame_id i.
Proof.
  rewrite chain_graph_edges.
  destruct (add_dependencies_spec
              ((λ i, (frame_id i, frame_id (i - 1))) <$> py_range 1 n)
              DependencyGraph_init z y) as [_ H].
  rewrite H. unfold get_dependents at 1. simpl. rewrite lookup_empty. simpl.
  rewrite list_elem_of_fmap. unfold py_range. split.
  - intros [Hin|(i & Heq & Hi)]; [set_solver|].
    injection Heq as -> ->. apply elem_of_seqZ in Hi. exists i. split; [lia|done].
  - intros (i & Hi & -> & ->). right. exists i. split; [done|].
    apply elem_of_seqZ. lia.
Qed.

(** The frames affected by an edit of the frames [s..t] of a chain of [n]
    frames are the frames from [s] to the last. *)
Lemma downstream_chain n s t x :
  0 ≤ s → s ≤ t → t < n →
  downstream (chain_graph n) (changed_frames s t) x
  ↔ ∃ i, x = frame_id i ∧ s ≤ i < n.
Proof.
  intros Hs Hst Ht. split.
  - intros (c & Hc & Hrtc).
    apply elem_of_changed_frames in Hc as (j & -> & Hj).
    assert (Hstart : ∃ i, frame_id j = frame_id i ∧ s ≤ i < n) by (exists j; split; [done|lia]).
    revert Hstart Hrtc. generalize (frame_id j). intros y0 Hstart Hrtc. revert Hstart.
    induction Hrtc as [y|y z w Hyz _ IH]; intros Hy; [done|].
    apply IH. destruct Hy as (i & -> & Hi).
    apply chain_dependents in Hyz as (k & Hk & Heq & ->).
    apply (inj frame_id) in Heq. exists k. split; [done|lia].
  - intros (i & -> & Hi).
    exists (frame_id s). split.
    { apply elem_of_changed_frames. exists s. split; [done|lia]. }
    assert (Hgen : ∀ k : nat, s + Z.of_nat k < n →
                   rtc (dependent_of (chain_graph n)) (frame_id s) (frame_id (s + Z.of_nat k))).
    { intros k. induction k as [|k IH]; intros Hk.
      - replace (s + Z.of_nat 0) with s by lia. constructor.
      - eapply rtc_r; [apply IH; lia|].
        unfold dependent_of. apply chain_dependents.
        exists (s + Z.of_nat (S k)). split; [lia|]. split; [|done].
        f_equal. lia. }
    replace i with (s + Z.of_nat (Z.to_nat (i - s))) by lia.
    apply Hgen. lia.
Qed.

Lemma NoDup_frame_ids s len : NoDup (frame_id <$> seqZ s len).
Proof. apply (NoDup_fmap_2 frame_id), NoDup_seqZ. Qed.

Lemma affected_chain_suffix o n s t A :
  0 ≤ s → s ≤ t → t < n →
  get_affected_nodes o (chain_graph n) (changed_frames s t) = Some A →
  A = list_to_set (frame_id <$> seqZ s (n - s)) ∧ Z.of_nat (size A) = n - s.
Proof.
  intros Hs Hst Ht HA.
  destruct (get_affected_nodes_spec o (chain_graph n) (changed_frames s t))
    as (A' & HA' & Hdown).
  rewrite HA in HA'. injection HA' as <-.
  assert (HeqA : A = list_to_set (frame_id <$> seqZ s (n - s))).
  { apply set_eq. intros x. rewrite Hdown, downstream_chain by done.
    rewrite elem_of_list_to_set, list_elem_of_fmap. split.
    - intros (i & -> & Hi). exists i. split; [done|]. apply elem_of_seqZ. lia.
    - intros (i & -> & Hi%elem_of_seqZ). exists i. split; [done|lia]. }
  split; [done|]. rewrite HeqA.
  rewrite size_list_to_set by apply NoDup_frame_ids.
  rewrite length_fmap, length_seqZ. lia.
Qed.

(** X15. On an engine that [generate_full] has filled, an edit whose
    frames [start_frame..end_frame] lie in the buffer recomputes the frames
    from [start_frame] to the last one, and no frame before [start_frame]:
    [frames_recomputed] is the frame count minus [start_frame] and
    [recompute_ratio] is that number over the frame count.  An edit of
    frame 0 recomputes every frame. *)
Theorem edit_recomputes_suffix (o : SetOrder) (time_time : nat → Z)
    (cache_size_mb : Q) (fs num_samples : Z) (edit : EditOperation) :
  0 < fs → 0 ≤ num_samples →
  let e := (generate_full time_time num_samples
              (SparseInferenceEngine_init cache_size_mb fs)).1 in
  let start_frame := (affected_region edit).1 `quot` fs in
  let end_frame := (affected_region edit).2 `quot` fs in
  let n := num_samples `div` fs in
  0 ≤ start_frame → start_frame ≤ end_frame → end_frame < n →
  max_size_bytes (engine_cache e) ≠ 0 →
  ∃ e' audio m,
    apply_edit o time_time edit e = (e', Ok (audio, m))
    ∧ (∀ x, x ∈ recomputed e' ↔ ∃ i, x = frame_id i ∧ start_frame ≤ i < n)
    ∧ NoDup (recomputed e')
    ∧ frames_recomputed m = n - start_frame
    ∧ frames_total m = n
    ∧ recompute_ratio m = (inject_Z (n - start_frame) / inject_Z n)%Q.
Proof.
  intros Hfs Hns e s t n Hs Hst Ht Hmax.
  destruct (generated_engine time_time cache_size_mb fs num_samples) as [F _];
    [lia|done|].
  fold e in F. clearbody e. subst s t n.
  destruct (apply_edit_in_range o time_time e fs num_samples edit F)
    as (A & stats & e' & HA & Hrun & Hrec & _); [done..|].
  destruct (affected_chain_suffix o _ _ _ A Hs Hst Ht HA) as [HeqA Hsize].
  eexists e', _, _. split; [exact Hrun|]. simpl. rewrite Hsize.
  split_and!; try done.
  - intros x. rewrite Hrec, elem_of_py_sorted_enum, HeqA.
    rewrite elem_of_list_to_set, list_elem_of_fmap. split.
    + intros (i & -> & Hi%elem_of_seqZ). exists i. split; [done|lia].
    + intros (i & -> & Hi). exists i. split; [done|]. apply elem_of_seqZ. lia.
  - rewrite Hrec. unfold py_sorted.
    rewrite merge_sort_Permutation, enum_perm. apply NoDup_elements.
Qed.

Definition edit_frame_3 : EditOperation :=
  {| edit_id := "edit_2"; edit_type := "modify"; affected_region := (1536, 2047) |}.

Lemma edit_recomputes_suffix_witness :
  ∃ e' audio m,
    apply_edit elements_order (λ k, Z.of_nat k) edit_frame_3
      (generate_full (λ k, Z.of_nat k) 5120 (SparseInferenceEngine_init 1000 512)).1
    = (e', Ok (audio, m))
    ∧ frames_recomputed m = 5120 `div` 512 - 3.
Proof.
  destruct (edit_recomputes_suffix elements_order (λ k, Z.of_nat k) 1000 512 5120
              edit_frame_3) as (e' & audio & m & H1 & _ & _ & H2 & _).
  - lia.
  - lia.
  - vm_compute. discriminate.
  - vm_compute. discriminate.
  - vm_compute. reflexivity.
  - vm_compute. discriminate.
  - exists e', audio, m. split; assumption.
Defined.

(** *** Edge cases of [generate_full] *)

(** X16. [generate_full] on a negative number of samples raises
    [RuntimeError] and on a frame size of 0 raises [ZeroDivisionError], in
    both cases before anything is changed.  When the samples do not fill
    one frame, it caches nothing, adds no edge, and stores the buffer with
    a frame count of [num_samples // frame_size], which is 0 for a frame
    size above the number of samples. *)
Theorem generate_full_edge_cases (time_time : nat → Z) (num_samples : Z)
    (e : SparseInferenceEngine) :
  (num_samples < 0 → generate_full time_time num_samples e = (e, Raise RuntimeError))
  ∧ (0 ≤ num_samples → frame_size e = 0 →
     generate_full time_time num_samples e = (e, Raise ZeroDivisionError))
  ∧ (0 ≤ num_samples → frame_size e ≠ 0 → num_samples `div` frame_size e ≤ 0 →
     generate_full time_time num_samples e
     = ({| frame_size := frame_size e; dependency_graph := dependency_graph e;
           engine_cache := engine_cache e;
           current_audio := Some {| element_size := 4; nelement := Z.to_N num_samples |};
           current_length_frames := num_samples `div` frame_size e;
           clock := clock e; recomputed := recomputed e |},
        Ok {| element_size := 4; nelement := Z.to_N num_samples |}))
  ∧ (0 ≤ num_samples < frame_size e → num_samples `div` frame_size e = 0).
Proof.
  split_and!.
  - intros H. unfold generate_full.
    unfold mbind at 1, engine_bind at 1, lift at 1.
    unfold torch_randn. by rewrite decide_True.
  - intros H H0. unfold generate_full.
    unfold mbind at 1, engine_bind at 1, lift at 1.
    unfold torch_randn. rewrite decide_False by lia.
    unfold mbind at 1, engine_bind at 1, gets at 1.
    unfold mbind at 1, engine_bind at 1, lift at 1.
    unfold py_floordiv. by rewrite decide_True.
  - intros H H0 Hn. unfold generate_full.
    unfold mbind at 1, engine_bind at 1, lift at 1.
    unfold torch_randn. rewrite decide_False by lia.
    unfold mbind at 1, engine_bind at 1, gets at 1.
    unfold mbind at 1, engine_bind at 1, lift at 1.
    unfold py_floordiv. rewrite decide_False by done.
    unfold py_range. rewrite seqZ_nil by lia. reflexivity.
  - intros H. by apply Z.div_small.
Qed.

Lemma generate_full_edge_cases_witness :
  generate_full (λ k, Z.of_nat k) (-1) (SparseInferenceEngine_init 1000 512)
  = (SparseInferenceEngine_init 1000 512, Raise RuntimeError)
  ∧ generate_full (λ k, Z.of_nat k) 100 (SparseInferenceEngine_init 1000 0)
    = (SparseInferenceEngine_init 1000 0, Raise ZeroDivisionError)
  ∧ current_length_frames
      (generate_full (λ k, Z.of_nat k) 100 (SparseInferenceEngine_init 1000 512)).1 = 0.
Proof.
  destruct (generate_full_edge_cases (λ k, Z.of_nat k) (-1)
              (SparseInferenceEngine_init 1000 512)) as (H1 & _).
  destruct (generate_full_edge_cases (λ k, Z.of_nat k) 100
              (SparseInferenceEngine_init 1000 0)) as (_ & H2 & _).
  destruct (generate_full_edge_cases (λ k, Z.of_nat k) 100
              (SparseInferenceEngine_init 1000 512)) as (_ & _ & H3 & _).
  split_and!.
  - apply H1. lia.
  - apply H2; [lia|reflexivity].
  - rewrite H3; [reflexivity|lia|discriminate|vm_compute; discriminate].
Defined.

(** *** What [apply_edit] leaves as it is *)

Section engine_structure.
Context (o : SetOrder) (time_time : nat → Z).

Lemma known_policy_core e e' :
  engine_core e e' → known_policy (engine_cache e) → known_policy (engine_cache e').
Proof.
  intros [_ _ _ _ [_ Hpol]]. unfold known_policy. by rewrite Hpol.
Qed.

Lemma recompute_frame_core x e : engine_core e (recompute_frame o time_time x e).1.
Proof.
  unfold recompute_frame.
  unfold mbind at 1, engine_bind at 1, lift at 1.
  destruct (frame_index x) as [idx|err|]; [|apply engine_core_refl..].
  unfold mbind at 1, engine_bind at 1, gets at 1.
  destruct (all_deps_cached_spec time_time
              (enum o (get_dependencies (dependency_graph e) x)) e)
    as (e1 & b & Hdeps & Hcore1 & Hrec1).
  unfold mbind at 1, engine_bind at 1. rewrite Hdeps.
  unfold mbind at 1, engine_bind at 1, gets at 1.
  assert (Hpre : (if b then lift (torch_randn (frame_size e1))
                  else lift (torch_randn (frame_size e1)))
                 = lift (torch_randn (frame_size e1))) by by destruct b.
  rewrite Hpre.
  unfold mbind at 1, engine_bind at 1, lift at 1.
  destruct (torch_randn (frame_size e1)) as [frame_audio|err|]; [|done..].
  unfold mbind at 1, engine_bind at 1, gets at 1.
  unfold mbind at 1, engine_bind at 1, set_recomputed at 1.
  match goal with |- context [(_ ≫= _) ?s] => set (e2 := s) end.
  assert (Hcore2 : engine_core e e2).
  { eapply engine_core_trans; [done|]. by split. }
  destruct (cache_put_cases time_time x frame_audio
              (get_dependencies (dependency_graph e) x) e2)
    as (e3 & r3 & Hput & Hcore3 & _).
  unfold mbind at 1, engine_bind at 1. rewrite Hput.
  pose proof (engine_core_trans _ _ _ Hcore2 Hcore3) as Hcore.
  destruct r3 as [[]|err|]; [|done..].
  unfold mbind at 1, engine_bind at 1, gets at 1.
  destruct (current_audio e3) as [audio|]; [|done].
  by destruct (tensor_assign_ok _ _ _ _).
Qed.

Lemma recompute_loop_core l e :
  engine_core e (for_each l (recompute_frame o time_time) e).1.
Proof.
  revert e. induction l as [|x l IH]; intros e; simpl.
  - apply engine_core_refl.
  - unfold mbind, engine_bind at 1.
    pose proof (recompute_frame_core x e) as Hx.
    destruct (recompute_frame o time_time x e) as [e1 [[]|err|]]; [|done..].
    eapply engine_core_trans; [exact Hx|apply IH].
Qed.

(** X17. Whatever the edit and whether it returns or raises,
    [apply_edit] leaves the dependency graph, the frame size, the length
    of the buffer, the frame count and the capacity and policy of the
    cache as they were: an edit adds no edge and never resizes the audio. *)
Theorem apply_edit_keeps_structure (edit : EditOperation) (e : SparseInferenceEngine) :
  let e' := (apply_edit o time_time edit e).1 in
  dependency_graph e' = dependency_graph e
  ∧ frame_size e' = frame_size e
  ∧ current_audio e' = current_audio e
  ∧ current_length_frames e' = current_length_frames e
  ∧ max_size_bytes (engine_cache e') = max_size_bytes (engine_cache e)
  ∧ eviction_policy (engine_cache e') = eviction_policy (engine_cache e).
Proof.
  assert (H : engine_core e (apply_edit o time_time edit e).1).
  { unfold apply_edit.
    unfold mbind at 1, engine_bind at 1, set_recomputed at 1.
    unfold mbind at 1, engine_bind at 1, gets at 1.
    unfold mbind at 1, engine_bind at 1, lift at 1.
    cbn [frame_size].
    destruct (py_int_truediv (affected_region edit).1 (frame_size e))
      as [start_frame|err|]; [|by split..].
    unfold mbind at 1, engine_bind at 1, lift at 1.
    destruct (py_int_truediv (affected_region edit).2 (frame_size e))
      as [end_frame|err|]; [|by split..].
    unfold mbind at 1, engine_bind at 1, gets at 1. cbn [dependency_graph].
    unfold mbind at 1, engine_bind at 1, lift at 1.
    destruct (get_affected_nodes o _ _) as [A|]; [|by split].
    unfold mbind at 1, engine_bind at 1, cache_invalidate at 1.
    unfold mbind at 1, engine_bind at 1, gets at 1.
    unfold set_cache at 1. cbn -[for_each py_sorted invalidate].
    match goal with |- context [(_ ≫= _) ?s] => set (e2 := s) end.
    assert (Hcore2 : engine_core e e2).
    { split; try done. apply invalidate_config. }
    pose proof (recompute_loop_core (py_sorted (enum o A)) e2) as Hcore3.
    pose proof (engine_core_trans _ _ _ Hcore2 Hcore3) as Hcore.
    unfold mbind at 1, engine_bind at 1.
    destruct (for_each _ _ e2) as [e3 [[]|err|]]; [|done..].
    unfold mbind at 1, engine_bind at 1, gets at 1.
    unfold mbind at 1, engine_bind at 1, lift at 1.
    destruct (decide (current_length_frames e3 = 0)); [done|].
    unfold mbind at 1, engine_bind at 1, gets at 1.
    unfold mbind at 1, engine_bind at 1, lift at 1.
    destruct (get_stats (engine_cache e3)) as [stats|err|]; [|done..].
    done. }
  destruct H as [H1 H2 H3 H4 [H5 H6]]. by split_and!.
Qed.
End engine_structure.

(** *** What [generate_full] leaves in the cache *)

(** The slice of a buffer of [num_samples] samples that holds frame [i]. *)
Lemma frame_slice num_samples fs i :
  0 < fs → 0 ≤ i → (i + 1) * fs ≤ num_samples →
  tensor_slice {| element_size := 4; nelement := Z.to_N num_samples |}
    (i * fs) ((i + 1) * fs)
  = {| element_size := 4; nelement := Z.to_N fs |}.
Proof.
  intros Hfs Hi Hend. unfold tensor_slice. simpl. f_equal.
  rewrite Z2N.id by nia. f_equal.
  unfold py_slice_len, py_slice_bound. rewrite !decide_False by nia. nia.
Qed.

Section populate.
Context (time_time : nat → Z) (fs num_samples max_bytes : Z).

(** The entry that [generate_full] stores for frame [i]. *)
Definition frame_entry (i : Z) : CacheEntry :=
  {| timestamp := time_time (Z.to_nat i);
     activations := {| element_size := 4; nelement := Z.to_N fs |};
     dependencies := if decide (i > 0) then {[frame_id (i - 1)]} else ∅;
     hit_count := 0;
     size_bytes := 4 * fs |}.

Definition frame_entries (k : Z) : list (string * CacheEntry) :=
  (λ i, (frame_id i, frame_entry i)) <$> seqZ 0 k.

Lemma frame_entries_keys k : (frame_entries k).*1 = frame_id <$> seqZ 0 k.
Proof. unfold frame_entries. rewrite <- list_fmap_compose. done. Qed.

Lemma frame_entries_succ k :
  0 ≤ k → frame_entries (k + 1) = frame_entries k ++ [(frame_id k, frame_entry k)].
Proof.
  intros Hk. unfold frame_entries. rewrite seqZ_app by lia. rewrite fmap_app.
  reflexivity.
Qed.

Lemma frame_entries_lookup k i :
  0 ≤ i < k → dict_lookup (frame_id i) (frame_entries k) = Some (frame_entry i).
Proof.
  intros Hi. apply dict_elem_lookup.
  - rewrite frame_entries_keys. apply NoDup_frame_ids.
  - unfold frame_entries. apply list_elem_of_fmap. exists i. split; [done|].
    apply elem_of_seqZ. lia.
Qed.

(** The engine after the frames below [k] have been cached, with room
    for each. *)
Record populated (e : SparseInferenceEngine) (k : Z) : Prop := {
  pop_frame_size : frame_size e = fs;
  pop_max : max_size_bytes (engine_cache e) = max_bytes;
  pop_cache : cache (engine_cache e) = frame_entries k;
  pop_total : current_size_bytes (engine_cache e) = 4 * fs * k;
  pop_clock : clock e = Z.to_nat k;
  pop_hits : hits (engine_cache e) = 0;
  pop_misses : misses (engine_cache e) = 0;
  pop_evictions : evictions (engine_cache e) = 0
}.

Lemma cache_put_with_room key a deps e :
  current_size_bytes (engine_cache e) + tensor_bytes a ≤ max_size_bytes (engine_cache e) →
  cache_put time_time key a deps e
  = ({| frame_size := frame_size e; dependency_graph := dependency_graph e;
        engine_cache :=
          with_cache (engine_cache e)
            (dict_set key {| timestamp := time_time (clock e); activations := a;
                             dependencies := deps; hit_count := 0;
                             size_bytes := tensor_bytes a |} (cache (engine_cache e)))
            (current_size_bytes (engine_cache e) + tensor_bytes a);
        current_audio := current_audio e;
        current_length_frames := current_length_frames e;
        clock := (clock e + 1)%nat; recomputed := recomputed e |}, Ok tt).
Proof.
  intros Hroom. unfold cache_put.
  unfold mbind at 1, engine_bind at 1, gets at 1. cbn [id].
  rewrite put_with_room by done. reflexivity.
Qed.

Lemma generate_frame_populates k e :
  0 < fs → 0 ≤ k → (k + 1) * fs ≤ num_samples →
  4 * fs * (k + 1) ≤ max_bytes →
  populated e k →
  ∃ e', generate_frame time_time {| element_size := 4; nelement := Z.to_N num_samples |} k e
        = (e', Ok tt)
        ∧ populated e' (k + 1).
Proof.
  intros Hfs Hk Hend Hmax [P0 PM P1 P2 P3 P4 P5 P6]. unfold generate_frame.
  unfold mbind at 1, engine_bind at 1, gets at 1. rewrite P0.
  rewrite frame_slice by done.
  assert (Hbytes : tensor_bytes {| element_size := 4; nelement := Z.to_N fs |} = 4 * fs).
  { unfold tensor_bytes. simpl. lia. }
  assert (Hnew : frame_id k ∉ (frame_entries k).*1).
  { rewrite frame_entries_keys. intros (j & Hj & Hin%elem_of_seqZ)%list_elem_of_fmap.
    apply (inj frame_id) in Hj. lia. }
  unfold mbind at 1, engine_bind at 1.
  destruct (decide (k > 0)) as [Hpos|Hpos].
  - unfold mbind at 1, engine_bind at 1, graph_add_dependency at 1.
    unfold mbind at 1, engine_bind at 1, gets at 1.
    unfold set_graph at 1, mret, engine_ret.
    rewrite cache_put_with_room by (cbn [engine_cache]; rewrite Hbytes; lia).
    eexists. split; [reflexivity|].
    split;
      cbn [frame_size max_size_bytes cache current_size_bytes hits misses evictions
           with_cache clock engine_cache];
      try done.
    + rewrite P1, dict_set_new by done. rewrite frame_entries_succ by done.
      unfold frame_entry. rewrite decide_True by done. by rewrite P3, Hbytes.
    + rewrite Hbytes. lia.
    + lia.
  - unfold mret, engine_ret.
    rewrite cache_put_with_room by (rewrite Hbytes; lia).
    eexists. split; [reflexivity|].
    split;
      cbn [frame_size max_size_bytes cache current_size_bytes hits misses evictions
           with_cache clock engine_cache];
      try done.
    + rewrite P1, dict_set_new by done. rewrite frame_entries_succ by done.
      unfold frame_entry. rewrite decide_False by done. by rewrite P3, Hbytes.
    + rewrite Hbytes. lia.
    + lia.
Qed.

Lemma generate_loop_populates (j : nat) k e :
  0 < fs → 0 ≤ k → (k + Z.of_nat j) * fs ≤ num_samples →
  4 * fs * (k + Z.of_nat j) ≤ max_bytes →
  populated e k →
  ∃ e', for_each (seqZ k (Z.of_nat j))
          (generate_frame time_time {| element_size := 4; nelement := Z.to_N num_samples |}) e
        = (e', Ok tt)
        ∧ populated e' (k + Z.of_nat j).
Proof.
  intros Hfs. revert k e. induction j as [|j IH]; intros k e Hk Hend Hmax Hpop.
  - rewrite seqZ_nil by lia. exists e. split; [done|].
    by replace (k + Z.of_nat 0) with k by lia.
  - rewrite seqZ_cons by lia. cbn [for_each].
    destruct (generate_frame_populates k e) as (e1 & Hrun & Hpop1);
      [done|done|nia|nia|done|].
    unfold mbind, engine_bind at 1. rewrite Hrun.
    replace (Z.succ k) with (k + 1) by lia.
    replace (Z.pred (Z.of_nat (S j))) with (Z.of_nat j) by lia.
    destruct (IH (k + 1) e1) as (e2 & Hrun2 & Hpop2); [lia|nia|nia|done|].
    exists e2. split; [done|].
    by replace (k + Z.of_nat (S j)) with (k + 1 + Z.of_nat j) by lia.
Qed.
End populate.

Lemma generate_full_populated (time_time : nat → Z) (cache_size_mb : Q)
    (fs num_samples : Z) :
  0 < fs → 0 ≤ num_samples →
  4 * fs * (num_samples `div` fs) ≤ py_int_of_Q (cache_size_mb * 1024 * 1024)%Q →
  populated time_time fs (py_int_of_Q (cache_size_mb * 1024 * 1024)%Q)
    (generate_full time_time num_samples (SparseInferenceEngine_init cache_size_mb fs)).1
    (num_samples `div` fs).
Proof.
  intros Hfs Hns Hmax. set (n := num_samples `div` fs) in *.
  assert (Hn : 0 ≤ n) by (apply Z.div_pos; lia).
  unfold generate_full.
  unfold mbind at 1, engine_bind at 1, lift at 1.
  unfold torch_randn. rewrite decide_False by lia.
  unfold mbind at 1, engine_bind at 1, gets at 1.
  unfold mbind at 1, engine_bind at 1, lift at 1.
  unfold py_floordiv. cbn [frame_size SparseInferenceEngine_init].
  rewrite decide_False by lia. fold n.
  destruct (generate_loop_populates time_time fs num_samples
              (py_int_of_Q (cache_size_mb * 1024 * 1024)%Q) (Z.to_nat n) 0
              (SparseInferenceEngine_init cache_size_mb fs))
    as (e1 & Hloop & [P0 PM P1 P2 P3 P4 P5 P6]).
  - done.
  - done.
  - rewrite Z2Nat.id by done. pose proof (Z.mul_div_le num_samples fs Hfs) as H.
    fold n in H. lia.
  - rewrite Z2Nat.id by done. lia.
  - split; try done. cbn. lia.
  - rewrite Z2Nat.id in Hloop by done. unfold py_range.
    replace (n - 0) with n by lia.
    unfold mbind at 1, engine_bind at 1. rewrite Hloop.
    unfold mbind at 1, engine_bind at 1, set_audio at 1.
    unfold mret, engine_ret. cbn [fst].
    replace (0 + Z.of_nat (Z.to_nat n)) with n in * by lia.
    by split.
Qed.

(** X18. When the frames fit the capacity ([4 * frame_size] bytes each),
    [generate_full] on a new engine leaves every frame in the cache, in
    the order of the frames: frame [i] holds [frame_size] samples, has
    frame [i - 1] as its only dependency (none for frame 0), a hit count
    of 0 and the time of its [put]; the running total is the sum of the
    sizes, nothing was evicted, and the graph is the chain of the frames. *)
Theorem generate_full_populates_cache (time_time : nat → Z) (cache_size_mb : Q)
    (fs num_samples : Z) :
  0 < fs → 0 ≤ num_samples →
  let n := num_samples `div` fs in
  let e := (generate_full time_time num_samples
              (SparseInferenceEngine_init cache_size_mb fs)).1 in
  4 * fs * n ≤ py_int_of_Q (cache_size_mb * 1024 * 1024)%Q →
  (cache (engine_cache e)).*1 = frame_id <$> py_range 0 n
  ∧ (∀ i, 0 ≤ i < n →
       dict_lookup (frame_id i) (cache (engine_cache e))
       = Some {| timestamp := time_time (Z.to_nat i);
                 activations := {| element_size := 4; nelement := Z.to_N fs |};
                 dependencies := if decide (i > 0) then {[frame_id (i - 1)]} else ∅;
                 hit_count := 0;
                 size_bytes := 4 * fs |})
  ∧ current_size_bytes (engine_cache e) = 4 * fs * n
  ∧ evictions (engine_cache e) = 0
  ∧ current_length_frames e = n
  ∧ dependency_graph e = chain_graph n.
Proof.
  intros Hfs Hns n e Hmax.
  destruct (generated_engine time_time cache_size_mb fs num_samples) as [F _];
    [lia|done|].
  pose proof (generate_full_populated time_time cache_size_mb fs num_samples Hfs Hns Hmax)
    as Hpop.
  fold e in F, Hpop. fold n in Hpop. clearbody e.
  destruct Hpop as [P0 PM P1 P2 P3 P4 P5 P6].
  split_and!.
  - rewrite P1, frame_entries_keys. unfold py_range. by replace (n - 0) with n by lia.
  - intros i Hi. rewrite P1. by apply frame_entries_lookup.
  - done.
  - done.
  - apply (filled_length _ _ _ F).
  - apply (filled_graph _ _ _ F).
Qed.

Lemma generate_full_populates_cache_witness :
  current_size_bytes
    (engine_cache (generate_full (λ k, Z.of_nat k) 5120
                     (SparseInferenceEngine_init 1000 512)).1) = 4 * 512 * (5120 `div` 512).
Proof.
  destruct (generate_full_populates_cache (λ k, Z.of_nat k) 1000 512 5120)
    as (_ & _ & H & _).
  - lia.
  - lia.
  - vm_compute. discriminate.
  - exact H.
Defined.

(** *** The order of recomputation in a short buffer *)

Lemma frame_id_le_digits i j :
  0 ≤ i → i ≤ j → j < 10 → String.le (frame_id i) (frame_id j).
Proof.
  intros Hi Hij Hj.
  assert (Hi' : i ∈ seqZ 0 10) by (apply elem_of_seqZ; lia).
  assert (Hj' : j ∈ seqZ 0 10) by (apply elem_of_seqZ; lia).
  change (seqZ 0 10) with [0; 1; 2; 3; 4; 5; 6; 7; 8; 9] in Hi', Hj'.
  rewrite !elem_of_cons, elem_of_nil in Hi', Hj'.
  destruct Hi' as [->|[->|[->|[->|[->|[->|[->|[->|[->|[->|[]]]]]]]]]]];
    destruct Hj' as [->|[->|[->|[->|[->|[->|[->|[->|[->|[->|[]]]]]]]]]]];
    try lia; vm_compute; exact I.
Qed.

Lemma Sorted_frame_ids s (len : nat) :
  0 ≤ s → s + Z.of_nat len ≤ 10 →
  Sorted String.le (frame_id <$> seqZ s (Z.of_nat len)).
Proof.
  revert s. induction len as [|len IH]; intros s Hs Hlen.
  - rewrite seqZ_nil by lia. constructor.
  - rewrite seqZ_cons by lia. csimpl.
    replace (Z.pred (Z.of_nat (S len))) with (Z.of_nat len) by lia.
    constructor.
    + apply IH; lia.
    + destruct len as [|len].
      * rewrite seqZ_nil by lia. constructor.
      * rewrite seqZ_cons by lia. csimpl. constructor.
        apply frame_id_le_digits; lia.
Qed.

(** X19. On a new engine that its first [generate_full] has filled, with
    a capacity that is not 0 and a buffer of at most 10 frames, an edit
    inside the buffer recomputes the frames in ascending order of their
    index, from [start_frame] to the last: on one-digit indices the order
    of the identifiers as strings is the order of the indices. *)
Theorem edit_order_ascending_up_to_ten_frames (o : SetOrder) (time_time : nat → Z)
    (cache_size_mb : Q) (fs num_samples : Z) (edit : EditOperation) :
  0 < fs → 0 ≤ num_samples →
  let e := (generate_full time_time num_samples
              (SparseInferenceEngine_init cache_size_mb fs)).1 in
  let start_frame := (affected_region edit).1 `quot` fs in
  let end_frame := (affected_region edit).2 `quot` fs in
  let n := num_samples `div` fs in
  0 ≤ start_frame → start_frame ≤ end_frame → end_frame < n → n ≤ 10 →
  max_size_bytes (engine_cache e) ≠ 0 →
  ∃ e' v,
    apply_edit o time_time edit e = (e', Ok v)
    ∧ recomputed e' = frame_id <$> py_range start_frame n.
Proof.
  intros Hfs Hns e s t n Hs Hst Ht Hten Hmax.
  destruct (generated_engine time_time cache_size_mb fs num_samples) as [F _];
    [lia|done|].
  fold e in F. clearbody e. subst s t n.
  destruct (apply_edit_in_range o time_time e fs num_samples edit F)
    as (A & stats & e' & HA & Hrun & Hrec & _); [done..|].
  destruct (affected_chain_suffix o _ _ _ A Hs Hst Ht HA) as [HeqA _].
  eexists e', _. split; [exact Hrun|].
  rewrite Hrec. unfold py_sorted, py_range.
  apply (Sorted_unique String.le).
  - apply Sorted_merge_sort. apply _.
  - set (s := (affected_region edit).1 `quot` fs) in *.
    set (n := num_samples `div` fs) in *.
    replace (n - s) with (Z.of_nat (Z.to_nat (n - s))) by lia.
    apply Sorted_frame_ids; lia.
  - rewrite merge_sort_Permutation, enum_perm, HeqA.
    apply elements_list_to_set, NoDup_frame_ids.
Qed.

Lemma edit_order_ascending_up_to_ten_frames_witness :
  ∃ e' v,
    apply_edit elements_order (λ k, Z.of_nat k) edit_frame_3
      (generate_full (λ k, Z.of_nat k) 5120 (SparseInferenceEngine_init 1000 512)).1
    = (e', Ok v)
    ∧ recomputed e' = frame_id <$> py_range 3 10.
Proof.
  destruct (edit_order_ascending_up_to_ten_frames elements_order (λ k, Z.of_nat k)
              1000 512 5120 edit_frame_3) as (e' & v & H1 & H2).
  - lia.
  - lia.
  - vm_compute. discriminate.
  - vm_compute. discriminate.
  - vm_compute. reflexivity.
  - vm_compute. discriminate.
  - vm_compute. discriminate.
  - exists e', v. split; assumption.
Defined.

(** *** The cache after an edit *)

Section refill.
Context (o : SetOrder) (time_time : nat → Z) (fs max_bytes : Z).

(** A cache that holds one frame of [fs] samples under each key of [K],
    with a running total that counts each once and no eviction so far. *)
Record frames_cached (c : TemporalCache) (K : gset string) : Prop := {
  fc_max : max_size_bytes c = max_bytes;
  fc_nodup : NoDup (cache c).*1;
  fc_keys : ∀ k, k ∈ K ↔ is_Some (dict_lookup k (cache c));
  fc_entries :
    Forall (λ kv, activations kv.2 = {| element_size := 4; nelement := Z.to_N fs |}
                  ∧ size_bytes kv.2 = 4 * fs) (cache c);
  fc_total : current_size_bytes c = 4 * fs * Z.of_nat (length (cache c));
  fc_evictions : evictions c = 0
}.

Lemma frames_cached_size c K : frames_cached c K → size K = length (cache c).
Proof.
  intros [_ Hnd Hk _ _ _].
  assert (K = list_to_set (cache c).*1) as ->.
  { apply set_eq. intros k. rewrite Hk, elem_of_list_to_set.
    rewrite <- not_eq_None_Some, dict_lookup_None_keys.
    split; [apply dec_stable|naive_solver]. }
  rewrite size_list_to_set by done. by rewrite length_fmap.
Qed.

Lemma get_frames_cached c key now K :
  frames_cached c K → frames_cached (get c key now).1 K.
Proof.
  intros [H1 H2 H3 H4 H5 H6]. unfold get.
  destruct (dict_lookup key (cache c)) as [entry|] eqn:Hl; [|by split].
  apply dict_lookup_Some_elem in Hl as Hin.
  pose proof (proj1 (Forall_forall _ _) H4 _ Hin) as [Ha Hs]. simpl in Ha, Hs.
  split; simpl; try done.
  - by rewrite (dict_set_keys_present _ _ entry).
  - intros k. rewrite H3, dict_lookup_set.
    case_decide; [subst; by rewrite Hl|done].
  - apply Forall_forall. intros kv [->|Hkv]%dict_set_elem; [done|].
    by apply (proj1 (Forall_forall _ _) H4).
  - rewrite dict_set_length, Hl. done.
Qed.

Lemma invalidate_key_frames_cached c key K :
  frames_cached c K → frames_cached (invalidate_key c key) (K ∖ {[key]}).
Proof.
  intros Hc. pose proof Hc as [H1 H2 H3 H4 H5 H6].
  split.
  - by rewrite (proj1 (invalidate_key_config c key)).
  - by apply invalidate_key_NoDup.
  - intros k. rewrite invalidate_key_lookup by done.
    rewrite elem_of_difference, not_elem_of_singleton, H3.
    case_decide; [|naive_solver]. subst. split; [naive_solver|by intros []].
  - unfold invalidate_key. destruct (dict_lookup key (cache c)); [|done]. simpl.
    apply Forall_forall. intros kv Hkv%dict_del_elem.
    by apply (proj1 (Forall_forall _ _) H4).
  - unfold invalidate_key. destruct (dict_lookup key (cache c)) as [entry|] eqn:Hl; [|done].
    simpl. apply dict_lookup_Some_elem in Hl as Hin.
    pose proof (proj1 (Forall_forall _ _) H4 _ Hin) as [_ Hs]. simpl in Hs.
    pose proof (dict_del_length _ _ _ Hl). lia.
  - unfold invalidate_key. by destruct (dict_lookup key (cache c)).
Qed.

Lemma invalidate_frames_cached c keys K :
  frames_cached c K → frames_cached (invalidate o c keys) (K ∖ keys).
Proof.
  unfold invalidate.
  assert (Hk : keys = list_to_set (enum o keys)).
  { apply set_eq. intros k. by rewrite elem_of_list_to_set, enum_perm, elem_of_elements. }
  rewrite Hk at 2. generalize (enum o keys). intros l. revert c K.
  induction l as [|key l IH]; intros c K Hc; simpl.
  - by replace (K ∖ ∅) with K by set_solver.
  - replace (K ∖ ({[key]} ∪ list_to_set l)) with (K ∖ {[key]} ∖ list_to_set l)
      by set_solver.
    apply IH. by apply invalidate_key_frames_cached.
Qed.

Lemma put_frames_cached c key deps now K :
  0 ≤ fs → frames_cached c K → key ∉ K →
  4 * fs * (Z.of_nat (size K) + 1) ≤ max_bytes →
  frames_cached
    (with_cache c
       (dict_set key {| timestamp := now;
                        activations := {| element_size := 4; nelement := Z.to_N fs |};
                        dependencies := deps; hit_count := 0; size_bytes := 4 * fs |}
          (cache c))
       (current_size_bytes c + 4 * fs))
    ({[key]} ∪ K).
Proof.
  intros Hfs Hc Hnew Hroom. pose proof Hc as [H1 H2 H3 H4 H5 H6].
  assert (Hl : dict_lookup key (cache c) = None).
  { rewrite H3 in Hnew. by destruct (dict_lookup key (cache c)); [destruct Hnew|]. }
  split; simpl; try done.
  - by apply dict_set_NoDup.
  - intros k. rewrite dict_lookup_set, elem_of_union, elem_of_singleton, H3.
    case_decide; naive_solver.
  - apply Forall_forall. intros kv [->|Hkv]%dict_set_elem; [done|].
    by apply (proj1 (Forall_forall _ _) H4).
  - rewrite dict_set_length, Hl. lia.
Qed.

Lemma all_deps_cached_frames deps e K :
  frames_cached (engine_cache e) K →
  frames_cached (engine_cache (all_deps_cached time_time deps e).1) K.
Proof.
  revert e. induction deps as [|dep deps IH]; intros e Hc; simpl; [done|].
  unfold mbind, engine_bind at 1.
  unfold cache_get at 1.
  unfold mbind at 1, engine_bind at 1, gets at 1. cbn [id].
  unfold mbind at 1, engine_bind at 1, set_cache at 1.
  unfold mret at 1, engine_ret at 1.
  pose proof (get_frames_cached (engine_cache e) dep (time_time (clock e)) K Hc) as Hc1.
  destruct (get (engine_cache e) dep (time_time (clock e))) as [c1 [t|]]; cbn [fst snd] in *.
  - by apply IH.
  - done.
Qed.

Lemma recompute_frame_refill i e K :
  0 < fs → frame_size e = fs →
  frames_cached (engine_cache e) K → frame_id i ∉ K →
  4 * fs * (Z.of_nat (size K) + 1) ≤ max_bytes →
  frames_cached (engine_cache (recompute_frame o time_time (frame_id i) e).1)
    ({[frame_id i]} ∪ K).
Proof.
  intros Hfs Hsize Hc Hnew Hroom. unfold recompute_frame.
  rewrite frame_index_frame_id.
  unfold mbind at 1, engine_bind at 1, lift at 1.
  unfold mbind at 1, engine_bind at 1, gets at 1.
  pose proof (all_deps_cached_frames
                (enum o (get_dependencies (dependency_graph e) (frame_id i))) e K Hc)
    as Hc1.
  destruct (all_deps_cached_spec time_time
              (enum o (get_dependencies (dependency_graph e) (frame_id i))) e)
    as (e1 & b & Hdeps & Hcore1 & Hrec1).
  rewrite Hdeps in Hc1. cbn [fst] in Hc1.
  unfold mbind at 1, engine_bind at 1. rewrite Hdeps.
  unfold mbind at 1, engine_bind at 1, gets at 1.
  assert (Hrandn : torch_randn (frame_size e1)
                   = Ok {| element_size := 4; nelement := Z.to_N fs |}).
  { unfold torch_randn. rewrite (core_frame_size _ _ Hcore1), Hsize.
    by rewrite decide_False by lia. }
  assert (Hpre : (if b then lift (torch_randn (frame_size e1))
                  else lift (torch_randn (frame_size e1)))
                 = lift (torch_randn (frame_size e1))) by by destruct b.
  rewrite Hpre, Hrandn.
  unfold mbind at 1, engine_bind at 1, lift at 1.
  unfold mbind at 1, engine_bind at 1, gets at 1.
  unfold mbind at 1, engine_bind at 1, set_recomputed at 1.
  assert (Hbytes : tensor_bytes {| element_size := 4; nelement := Z.to_N fs |} = 4 * fs).
  { unfold tensor_bytes. simpl. lia. }
  pose proof (frames_cached_size _ _ Hc1) as Hlen.
  pose proof Hc1 as [H1 _ _ _ H5 _].
  unfold mbind at 1, engine_bind at 1.
  rewrite cache_put_with_room
    by (cbn [engine_cache]; rewrite Hbytes, H1, H5, <- Hlen; lia).
  cbn [engine_cache clock]. rewrite Hbytes.
  match goal with
  | |- context [with_cache ?c ?d ?z] =>
      assert (Hc2 : frames_cached (with_cache c d z) ({[frame_id i]} ∪ K))
        by (apply put_frames_cached; [lia|done..])
  end.
  unfold mbind at 1, engine_bind at 1, gets at 1. cbn [current_audio].
  destruct (current_audio e1) as [audio|]; [|exact Hc2].
  cbn [frame_size].
  destruct (tensor_assign_ok _ _ _ _); exact Hc2.
Qed.

Lemma recompute_loop_refill l e e' K :
  0 < fs → frame_size e = fs → NoDup l →
  (∀ x, x ∈ l → (x ∉ K) ∧ ∃ i, x = frame_id i) →
  frames_cached (engine_cache e) K →
  4 * fs * (Z.of_nat (size K) + Z.of_nat (length l)) ≤ max_bytes →
  for_each l (recompute_frame o time_time) e = (e', Ok tt) →
  frames_cached (engine_cache e') (list_to_set l ∪ K).
Proof.
  intros Hfs. revert e K.
  induction l as [|x l IH]; intros e K Hsize Hnd Hl Hc Hroom; simpl.
  - intros [= <-]. by replace (∅ ∪ K) with K by set_solver.
  - apply NoDup_cons in Hnd as [Hx Hnd].
    destruct (Hl x) as [HxK [i ->]]; [left|].
    pose proof (recompute_frame_refill i e K Hfs Hsize Hc HxK ltac:(simpl in Hroom; lia))
      as Hc1.
    pose proof (recompute_frame_core o time_time (frame_id i) e) as Hcore1.
    unfold mbind, engine_bind at 1.
    destruct (recompute_frame o time_time (frame_id i) e) as [e1 [[]|err|]];
      [|done..].
    cbn [fst] in Hc1, Hcore1. intros Hrun.
    replace ({[frame_id i]} ∪ list_to_set l ∪ K)
      with (list_to_set l ∪ ({[frame_id i]} ∪ K)) by set_solver.
    apply (IH e1); try done.
    + by rewrite (core_frame_size _ _ Hcore1).
    + intros y Hy. destruct (Hl y) as [HyK Hyi]; [by right|]. split; [|done].
      intros [->%elem_of_singleton|HyK']%elem_of_union; done.
    + rewrite size_union by set_solver. rewrite size_singleton. simpl in Hroom. lia.
Qed.

(** The engine that [apply_edit] returns is the one its loop leaves, and
    the statistics it reports are those of the cache at that point. *)
Lemma apply_edit_final edit e e' v :
  apply_edit o time_time edit e = (e', Ok v) →
  ∃ A e2,
    get_affected_nodes o (dependency_graph e)
      (changed_frames ((affected_region edit).1 `quot` frame_size e)
                      ((affected_region edit).2 `quot` frame_size e)) = Some A
    ∧ frame_size e2 = frame_size e
    ∧ engine_cache e2 = invalidate o (engine_cache e) A
    ∧ for_each (py_sorted (enum o A)) (recompute_frame o time_time) e2 = (e', Ok tt)
    ∧ get_stats (engine_cache e') = Ok (cache_stats v.2).
Proof.
  unfold apply_edit.
  unfold mbind at 1, engine_bind at 1, set_recomputed at 1.
  unfold mbind at 1, engine_bind at 1, gets at 1.
  unfold mbind at 1, engine_bind at 1, lift at 1.
  unfold py_int_truediv at 1. cbn [frame_size].
  destruct (decide (frame_size e = 0)); [done|].
  unfold mbind at 1, engine_bind at 1, lift at 1.
  unfold py_int_truediv at 1. rewrite decide_False by done.
  unfold mbind at 1, engine_bind at 1, gets at 1. cbn [dependency_graph].
  unfold mbind at 1, engine_bind at 1, lift at 1.
  destruct (get_affected_nodes o _ _) as [A|]; [|done].
  unfold mbind at 1, engine_bind at 1, cache_invalidate at 1.
  unfold mbind at 1, engine_bind at 1, gets at 1.
  unfold set_cache at 1. cbn -[for_each py_sorted invalidate].
  match goal with |- context [(_ ≫= _) ?s] => set (e2 := s) end.
  unfold mbind at 1, engine_bind at 1.
  destruct (for_each _ _ e2) as [e3 [[]|err|]] eqn:Hloop; [|done..].
  unfold mbind at 1, engine_bind at 1, gets at 1.
  unfold mbind at 1, engine_bind at 1, lift at 1.
  destruct (decide (current_length_frames e3 = 0)); [done|].
  unfold mbind at 1, engine_bind at 1, gets at 1.
  unfold mbind at 1, engine_bind at 1, lift at 1.
  destruct (get_stats (engine_cache e3)) as [stats|err|] eqn:Hstats; [|done..].
  unfold mbind at 1, engine_bind at 1, gets at 1.
  unfold mret, engine_ret. intros [= <- <-].
  exists A, e2. by split_and!.
Qed.
End refill.

Lemma populated_frames_cached time_time fs max_bytes e n :
  0 ≤ n → populated time_time fs max_bytes e n →
  frames_cached fs max_bytes (engine_cache e) (list_to_set (frame_id <$> seqZ 0 n)).
Proof.
  intros Hn [P0 PM P1 P2 P3 P4 P5 P6]. split; try done.
  - rewrite P1, (frame_entries_keys time_time fs). apply NoDup_frame_ids.
  - intros k. rewrite elem_of_list_to_set, <- (frame_entries_keys time_time fs), <- P1.
    rewrite <- not_eq_None_Some, dict_lookup_None_keys.
    split; [naive_solver|apply dec_stable].
  - rewrite P1. unfold frame_entries. apply Forall_fmap, Forall_forall. by intros i _.
  - rewrite P2, P1. unfold frame_entries. rewrite length_fmap, length_seqZ.
    f_equal. lia.
Qed.

(** X20. On a new engine that its first [generate_full] has filled, when
    the frames fit the capacity, an edit inside the buffer leaves the cache
    as full as [generate_full] left it: every frame of the buffer is stored
    again with [frame_size] samples, the running total is the sum of the
    sizes, nothing was evicted, and the statistics returned with the edit
    count one entry per frame. *)
Theorem edit_refills_cache (o : SetOrder) (time_time : nat → Z)
    (cache_size_mb : Q) (fs num_samples : Z) (edit : EditOperation) :
  0 < fs → 0 ≤ num_samples →
  let e := (generate_full time_time num_samples
              (SparseInferenceEngine_init cache_size_mb fs)).1 in
  let start_frame := (affected_region edit).1 `quot` fs in
  let end_frame := (affected_region edit).2 `quot` fs in
  let n := num_samples `div` fs in
  0 ≤ start_frame → start_frame ≤ end_frame → end_frame < n →
  4 * fs * n ≤ py_int_of_Q (cache_size_mb * 1024 * 1024)%Q →
  ∃ e' audio m,
    apply_edit o time_time edit e = (e', Ok (audio, m))
    ∧ (∀ i, 0 ≤ i < n →
         ∃ entry, dict_lookup (frame_id i) (cache (engine_cache e')) = Some entry
                  ∧ activations entry = {| element_size := 4; nelement := Z.to_N fs |}
                  ∧ size_bytes entry = 4 * fs)
    ∧ Z.of_nat (length (cache (engine_cache e'))) = n
    ∧ current_size_bytes (engine_cache e') = 4 * fs * n
    ∧ evictions (engine_cache e') = 0
    ∧ stat_num_entries (cache_stats m) = n
    ∧ stat_evictions (cache_stats m) = 0.
Proof.
  intros Hfs Hns e s t n Hs Hst Ht Hmax.
  destruct (generated_engine time_time cache_size_mb fs num_samples) as [F Hcap];
    [lia|done|].
  assert (Hn : 0 ≤ n) by (apply Z.div_pos; lia).
  pose proof (generate_full_populated time_time cache_size_mb fs num_samples Hfs Hns Hmax)
    as Hpop%populated_frames_cached; [|done].
  fold e in F, Hcap, Hpop. fold n in Hpop. clearbody e. subst s t.
  set (K0 := list_to_set (frame_id <$> seqZ 0 n) : gset string) in *.
  destruct (apply_edit_in_range o time_time e fs num_samples edit F)
    as (A & stats & e' & HA & Hrun & _ & _); [done|done|done|done|done| |].
  { rewrite Hcap. fold n in Ht. nia. }
  fold n in HA, Hrun.
  destruct (affected_chain_suffix o _ _ _ A Hs Hst Ht HA) as [HeqA HsizeA].
  destruct (apply_edit_final o time_time edit e e' _ Hrun)
    as (A' & e2 & HA' & Hfs2 & Hc2 & Hloop & Hstats).
  rewrite (filled_frame_size _ _ _ F), (filled_graph _ _ _ F) in HA'. fold n in HA'.
  rewrite HA in HA'. injection HA' as <-.
  rewrite (filled_frame_size _ _ _ F) in Hfs2.
  pose proof (invalidate_frames_cached o fs (py_int_of_Q (cache_size_mb * 1024 * 1024)%Q)
                (engine_cache e) A K0 Hpop) as Hinv.
  rewrite <- Hc2 in Hinv.
  assert (HAK : A ⊆ K0).
  { rewrite HeqA. subst K0. intros x. rewrite !elem_of_list_to_set, !list_elem_of_fmap.
    intros (i & -> & Hi%elem_of_seqZ). exists i. split; [done|]. apply elem_of_seqZ. lia. }
  assert (HsizeK : Z.of_nat (size K0) = n).
  { subst K0. rewrite size_list_to_set by apply NoDup_frame_ids.
    rewrite length_fmap, length_seqZ. lia. }
  pose proof (recompute_loop_refill o time_time fs
                (py_int_of_Q (cache_size_mb * 1024 * 1024)%Q) (py_sorted (enum o A)) e2 e'
                (K0 ∖ A) Hfs Hfs2) as Hfin.
  assert (Hc' : frames_cached fs (py_int_of_Q (cache_size_mb * 1024 * 1024)%Q)
                  (engine_cache e') K0).
  { replace K0 with (list_to_set (py_sorted (enum o A)) ∪ K0 ∖ A).
    - apply Hfin; try done.
      + unfold py_sorted. rewrite merge_sort_Permutation, enum_perm. apply NoDup_elements.
      + intros x Hx%elem_of_py_sorted_enum. split; [set_solver|].
        rewrite HeqA in Hx. apply elem_of_list_to_set, list_elem_of_fmap in Hx
          as (i & -> & _). by exists i.
      + rewrite size_difference by done.
        assert (length (py_sorted (enum o A)) = size A) as ->.
        { unfold py_sorted. by rewrite merge_sort_Permutation, enum_perm. }
        pose proof (subseteq_size _ _ HAK). lia.
    - apply set_eq. intros x. rewrite elem_of_union, elem_of_list_to_set.
      rewrite elem_of_py_sorted_enum, elem_of_difference.
      destruct (decide (x ∈ A)); set_solver. }
  pose proof (frames_cached_size _ _ _ _ Hc') as Hlen.
  pose proof Hc' as [H1 H2 H3 H4 H5 H6].
  eexists e', _, _. split; [exact Hrun|]. cbn [cache_stats].
  unfold get_stats in Hstats.
  rewrite decide_False in Hstats by (rewrite H1; nia).
  cbn [snd cache_stats] in Hstats. injection Hstats as Hst'.
  split_and!.
  - intros i Hi.
    assert (Hin : frame_id i ∈ K0).
    { subst K0. apply elem_of_list_to_set, list_elem_of_fmap. exists i. split; [done|].
      apply elem_of_seqZ. lia. }
    apply H3 in Hin as [entry Hentry]. exists entry. split; [done|].
    apply dict_lookup_Some_elem in Hentry.
    apply (proj1 (Forall_forall _ _) H4 _ Hentry).
  - rewrite <- Hlen. done.
  - rewrite H5, <- Hlen, HsizeK. done.
  - done.
  - rewrite <- Hst'. cbn [stat_num_entries]. by rewrite <- Hlen.
  - rewrite <- Hst'. cbn [stat_evictions]. done.
Qed.

Lemma edit_refills_cache_witness :
  ∃ e' audio m,
    apply_edit elements_order (λ k, Z.of_nat k) edit_frame_3
      (generate_full (λ k, Z.of_nat k) 5120 (SparseInferenceEngine_init 1000 512)).1
    = (e', Ok (audio, m))
    ∧ current_size_bytes (engine_cache e') = 4 * 512 * (5120 `div` 512).
Proof.
  destruct (edit_refills_cache elements_order (λ k, Z.of_nat k) 1000 512 5120
              edit_frame_3) as (e' & audio & m & H1 & _ & _ & H2 & _).
  - lia.
  - lia.
  - vm_compute. discriminate.
  - vm_compute. discriminate.
  - vm_compute. reflexivity.
  - vm_compute. discriminate.
  - exists e', audio, m. split; assumption.
Defined.

(** *** A buffer larger than the capacity *)

Lemma put_evict_loop_too_large fuel size c :
  known_policy c → cache_exact c → size > max_size_bytes c →
  (length (cache c) ≤ fuel)%nat →
  put_evict_loop fuel size c
  = ({| max_size_bytes := max_size_bytes c; eviction_policy := eviction_policy c;
        cache := []; current_size_bytes := 0;
        hits := hits c; misses := misses c;
        evictions := evictions c + Z.of_nat (length (cache c)) |}, Ok false).
Proof.
  revert c. induction fuel as [|fuel IH]; intros c Hp Hex Hbig Hlen;
    rewrite put_evict_loop_unfold.
  - pose proof Hex as [_ Hs Ht]. pose proof (dict_bytes_nonneg _ Hs) as Hnn.
    unfold stored_bytes in Ht. rewrite decide_True by lia.
    destruct (cache c) as [|kv d] eqn:Hc; [|simpl in Hlen; lia].
    rewrite decide_True by done. destruct c; simpl in *. subst.
    do 2 f_equal; lia.
  - pose proof Hex as [_ Hs Ht]. pose proof (dict_bytes_nonneg _ Hs) as Hnn.
    unfold stored_bytes in Ht. rewrite decide_True by lia.
    case_decide as Hc.
    { destruct c; simpl in *. subst. simpl. do 2 f_equal; lia. }
    pose proof (evict_min_exact (policy_key c) c Hex) as Hex1.
    rewrite (_evict_one_known c Hp).
    destruct (evict_min_nonempty (policy_key c) c Hc)
      as (k & entry & _ & _ & _ & Hev & Hl).
    rewrite Hev in Hex1 |- *. cbn [fst] in Hex1.
    rewrite IH; [|done|done|done|simpl; lia].
    simpl. f_equal. f_equal. lia.
Qed.

(** X22. With a policy that evicts and a running total that agrees with
    the contents, a [put] of a buffer larger than the capacity returns
    without an exception, stores nothing, and leaves the cache empty: every
    entry is evicted and counted in [evictions], and a [get] of the key
    misses. *)
Theorem put_too_large_empties_cache (c : TemporalCache) (key : string) (a : Tensor)
    (deps : gset string) (now later : Z) :
  known_policy c → cache_exact c → tensor_bytes a > max_size_bytes c →
  ∃ c', put c key a deps now = (c', Ok tt)
        ∧ cache c' = []
        ∧ current_size_bytes c' = 0
        ∧ evictions c' = evictions c + Z.of_nat (length (cache c))
        ∧ (get c' key later).2 = None
        ∧ hits c' = hits c ∧ misses c' = misses c.
Proof.
  intros Hp Hex Hbig. unfold put, put_fuel.
  rewrite put_evict_loop_too_large by done.
  eexists. split; [reflexivity|]. by split_and!.
Qed.

Lemma put_too_large_empties_cache_witness :
  ∃ c', put lru_example "c" {| element_size := 4; nelement := 50 |} ∅ 3 = (c', Ok tt)
        ∧ cache c' = [].
Proof.
  destruct (put_too_large_empties_cache lru_example "c"
              {| element_size := 4; nelement := 50 |} ∅ 3 4) as (c' & H1 & H2 & _).
  - by left.
  - split; [vm_compute; repeat constructor; set_solver
           |vm_compute; repeat constructor; discriminate|by vm_compute].
  - vm_compute. reflexivity.
  - by exists c'.
Defined.

(** *** [generate_full] with a cache smaller than the buffer *)

Lemma min_from_head {V} (f : V → Z) best d :
  (∀ kv, kv ∈ d → f best.2 ≤ f kv.2) → min_from f best d = best.
Proof.
  induction d as [|kv d IH]; intros Hle; simpl; [done|].
  rewrite decide_False by (specialize (Hle kv ltac:(left)); lia).
  apply IH. intros kv' Hkv'. apply Hle. by right.
Qed.

(** Under "lru", a [put] into a full cache whose first entry is the
    oldest evicts that entry when that makes room. *)
Lemma put_evicts_head c k0 v0 d key a deps now :
  eviction_policy c = "lru" → cache c = (k0, v0) :: d →
  (∀ kv, kv ∈ d → timestamp v0 ≤ timestamp kv.2) →
  current_size_bytes c + tensor_bytes a > max_size_bytes c →
  current_size_bytes c - size_bytes v0 + tensor_bytes a ≤ max_size_bytes c →
  put c key a deps now
  = ({| max_size_bytes := max_size_bytes c; eviction_policy := eviction_policy c;
        cache := dict_set key {| timestamp := now; activations := a;
                                 dependencies := deps; hit_count := 0;
                                 size_bytes := tensor_bytes a |} d;
        current_size_bytes := current_size_bytes c - size_bytes v0 + tensor_bytes a;
        hits := hits c; misses := misses c; evictions := evictions c + 1 |}, Ok tt).
Proof.
  intros Hlru Hc Hold Hfull Hroom. unfold put, put_fuel. rewrite Hc. cbn [length].
  rewrite put_evict_loop_unfold. rewrite decide_True by done.
  rewrite decide_False by by rewrite Hc.
  unfold _evict_one. rewrite decide_True by done.
  unfold evict_min. rewrite Hc. cbn [dict_min].
  rewrite (min_from_head timestamp (k0, v0) d) by done.
  cbn [dict_del]. rewrite decide_True by done.
  rewrite put_evict_loop_unfold. cbn [current_size_bytes max_size_bytes].
  rewrite decide_False by lia. reflexivity.
Qed.

Section window.
Context (time_time : nat → Z) (fs num_samples max_bytes : Z).
Hypothesis time_monotone : ∀ a b : nat, (a ≤ b)%nat → time_time a ≤ time_time b.

(** The entries of the frames [a .. a + len - 1], in this order. *)
Definition frame_window (a len : Z) : list (string * CacheEntry) :=
  (λ i, (frame_id i, frame_entry time_time fs i)) <$> seqZ a len.

(** The engine after [k] frames, in a cache with room for [m]. *)
Record windowed (m : Z) (e : SparseInferenceEngine) (k : Z) : Prop := {
  win_frame_size : frame_size e = fs;
  win_max : max_size_bytes (engine_cache e) = max_bytes;
  win_policy : eviction_policy (engine_cache e) = "lru";
  win_cache : cache (engine_cache e) = frame_window (k - Z.min k m) (Z.min k m);
  win_total : current_size_bytes (engine_cache e) = 4 * fs * Z.min k m;
  win_clock : clock e = Z.to_nat k;
  win_evictions : evictions (engine_cache e) = k - Z.min k m
}.

Lemma frame_window_keys a len : (frame_window a len).*1 = frame_id <$> seqZ a len.
Proof. unfold frame_window. by rewrite <- list_fmap_compose. Qed.

Lemma frame_window_snoc a len :
  0 ≤ len →
  frame_window a (len + 1)
  = frame_window a len ++ [(frame_id (a + len), frame_entry time_time fs (a + len))].
Proof.
  intros Hlen. unfold frame_window. rewrite seqZ_app by lia. by rewrite fmap_app.
Qed.

Lemma frame_window_cons a len :
  0 < len →
  frame_window a len
  = (frame_id a, frame_entry time_time fs a) :: frame_window (a + 1) (len - 1).
Proof.
  intros Hlen. unfold frame_window. rewrite seqZ_cons by lia. csimpl.
  by replace (Z.succ a) with (a + 1) by lia.
Qed.

Lemma cache_put_eq key a deps e :
  cache_put time_time key a deps e
  = ({| frame_size := frame_size e; dependency_graph := dependency_graph e;
        engine_cache := (put (engine_cache e) key a deps (time_time (clock e))).1;
        current_audio := current_audio e;
        current_length_frames := current_length_frames e;
        clock := (clock e + 1)%nat; recomputed := recomputed e |},
     (put (engine_cache e) key a deps (time_time (clock e))).2).
Proof.
  unfold cache_put.
  unfold mbind at 1, engine_bind at 1, gets at 1. cbn [id].
  unfold mbind at 1, engine_bind at 1, set_cache at 1. reflexivity.
Qed.

(** Storing frame [k] in the engine, whatever the graph. *)
Lemma cache_put_windowed m k deps e :
  0 < fs → 0 ≤ k → 1 ≤ m →
  4 * fs * m ≤ max_bytes → max_bytes < 4 * fs * (m + 1) →
  windowed m e k →
  (deps = if decide (k > 0) then {[frame_id (k - 1)]} else ∅) →
  ∃ e', cache_put time_time (frame_id k)
          {| element_size := 4; nelement := Z.to_N fs |} deps e = (e', Ok tt)
        ∧ dependency_graph e' = dependency_graph e
        ∧ windowed m e' (k + 1).
Proof.
  intros Hfs Hk Hm Hcap1 Hcap2 [W0 WM WP W1 W2 W3 W4] Hdeps.
  assert (Hbytes : tensor_bytes {| element_size := 4; nelement := Z.to_N fs |} = 4 * fs).
  { unfold tensor_bytes. simpl. lia. }
  rewrite cache_put_eq.
  destruct (decide (k < m)) as [Hlt|Hge].
  - (* room for one more *)
    rewrite Z.min_l in W1, W2, W4 by lia.
    replace (k - k) with 0 in W1 by lia.
    rewrite put_with_room by (rewrite Hbytes, W2, WM; nia).
    eexists. split; [reflexivity|]. split; [done|].
    split;
      cbn [frame_size max_size_bytes eviction_policy cache current_size_bytes evictions
           with_cache clock engine_cache fst];
      try done.
    + rewrite Z.min_l by lia. replace (k + 1 - (k + 1)) with 0 by lia.
      rewrite W1, dict_set_new.
      * rewrite frame_window_snoc by done. rewrite Z.add_0_l.
        unfold frame_entry. by rewrite Hbytes, W3, Hdeps.
      * rewrite frame_window_keys.
        intros (j & Hj & Hin%elem_of_seqZ)%list_elem_of_fmap.
        apply (inj frame_id) in Hj. lia.
    + rewrite Z.min_l by lia. rewrite Hbytes, W2. lia.
    + lia.
    + rewrite Z.min_l by lia. lia.
  - (* the oldest frame goes *)
    rewrite Z.min_r in W1, W2, W4 by lia.
    rewrite (frame_window_cons (k - m) m) in W1 by lia.
    rewrite (put_evicts_head _ _ _ _ _ _ _ _ WP W1).
    + eexists. split; [reflexivity|]. split; [done|].
      split;
        cbn [frame_size max_size_bytes eviction_policy cache current_size_bytes
             evictions with_cache clock engine_cache fst];
        try done.
      * rewrite Z.min_r by lia. rewrite dict_set_new.
        -- replace (k + 1 - m) with (k - m + 1) by lia.
           replace (frame_window (k - m + 1) m)
             with (frame_window (k - m + 1) (m - 1 + 1)) by (f_equal; lia).
           rewrite frame_window_snoc by lia.
           replace (k - m + 1 + (m - 1)) with k by lia.
           unfold frame_entry. by rewrite Hbytes, W3, Hdeps.
        -- rewrite frame_window_keys.
           intros (j & Hj & Hin%elem_of_seqZ)%list_elem_of_fmap.
           apply (inj frame_id) in Hj. lia.
      * rewrite Z.min_r by lia. rewrite Hbytes, W2. cbn [size_bytes frame_entry]. lia.
      * lia.
      * rewrite Z.min_r by lia. rewrite W4. lia.
    + intros kv (j & -> & Hin%elem_of_seqZ)%list_elem_of_fmap. cbn.
      apply time_monotone. lia.
    + rewrite Hbytes, W2, WM. lia.
    + rewrite Hbytes, W2, WM. cbn [size_bytes frame_entry]. lia.
Qed.

Lemma generate_frame_windowed m k e :
  0 < fs → 0 ≤ k → (k + 1) * fs ≤ num_samples → 1 ≤ m →
  4 * fs * m ≤ max_bytes → max_bytes < 4 * fs * (m + 1) →
  windowed m e k →
  ∃ e', generate_frame time_time {| element_size := 4; nelement := Z.to_N num_samples |} k e
        = (e', Ok tt)
        ∧ windowed m e' (k + 1).
Proof.
  intros Hfs Hk Hend Hm Hcap1 Hcap2 Hw. pose proof Hw as [W0 WM WP W1 W2 W3 W4].
  unfold generate_frame.
  unfold mbind at 1, engine_bind at 1, gets at 1. rewrite W0.
  rewrite frame_slice by done.
  unfold mbind at 1, engine_bind at 1.
  destruct (decide (k > 0)) as [Hpos|Hpos].
  - unfold mbind at 1, engine_bind at 1, graph_add_dependency at 1.
    unfold mbind at 1, engine_bind at 1, gets at 1.
    unfold set_graph at 1, mret, engine_ret.
    match goal with |- context [cache_put _ _ _ _ ?s] => set (e1 := s) end.
    destruct (cache_put_windowed m k {[frame_id (k - 1)]} e1)
      as (e' & Hput & _ & Hw'); try done.
    + by rewrite decide_True.
    + by exists e'.
  - unfold mret, engine_ret.
    destruct (cache_put_windowed m k ∅ e) as (e' & Hput & _ & Hw'); try done.
    + by rewrite decide_False.
    + by exists e'.
Qed.

Lemma generate_loop_windowed m (j : nat) k e :
  0 < fs → 0 ≤ k → (k + Z.of_nat j) * fs ≤ num_samples → 1 ≤ m →
  4 * fs * m ≤ max_bytes → max_bytes < 4 * fs * (m + 1) →
  windowed m e k →
  ∃ e', for_each (seqZ k (Z.of_nat j))
          (generate_frame time_time {| element_size := 4; nelement := Z.to_N num_samples |}) e
        = (e', Ok tt)
        ∧ windowed m e' (k + Z.of_nat j).
Proof.
  intros Hfs. revert k e. induction j as [|j IH]; intros k e Hk Hend Hm Hcap1 Hcap2 Hw.
  - rewrite seqZ_nil by lia. exists e. split; [done|].
    by replace (k + Z.of_nat 0) with k by lia.
  - rewrite seqZ_cons by lia. cbn [for_each].
    destruct (generate_frame_windowed m k e) as (e1 & Hrun & Hw1); try done; [nia|].
    unfold mbind, engine_bind at 1. rewrite Hrun.
    replace (Z.succ k) with (k + 1) by lia.
    replace (Z.pred (Z.of_nat (S j))) with (Z.of_nat j) by lia.
    destruct (IH (k + 1) e1) as (e2 & Hrun2 & Hw2); try done; [lia|nia|].
    exists e2. split; [done|].
    by replace (k + Z.of_nat (S j)) with (k + 1 + Z.of_nat j) by lia.
Qed.
End window.

(** X21. With a clock that does not go back and a capacity that holds [m]
    frames, [m] at least 1, [generate_full] on a new engine leaves the last
    [m] frames of the buffer in the cache, in their order: each [put] into
    the full cache evicts the oldest frame.  The frames before them are
    gone, [evictions] counts them, and the running total is the size of the
    frames that are left. *)
Theorem generate_full_keeps_last_frames (time_time : nat → Z) (cache_size_mb : Q)
    (fs num_samples : Z) :
  0 < fs → 0 ≤ num_samples →
  (∀ a b : nat, (a ≤ b)%nat → time_time a ≤ time_time b) →
  let n := num_samples `div` fs in
  let m := py_int_of_Q (cache_size_mb * 1024 * 1024)%Q `div` (4 * fs) in
  let e := (generate_full time_time num_samples
              (SparseInferenceEngine_init cache_size_mb fs)).1 in
  1 ≤ m →
  (cache (engine_cache e)).*1 = frame_id <$> py_range (Z.max 0 (n - m)) n
  ∧ evictions (engine_cache e) = Z.max 0 (n - m)
  ∧ current_size_bytes (engine_cache e) = 4 * fs * Z.min n m
  ∧ (∀ i now, 0 ≤ i < n - m → (get (engine_cache e) (frame_id i) now).2 = None)
  ∧ (∀ i now, Z.max 0 (n - m) ≤ i < n →
       (get (engine_cache e) (frame_id i) now).2
       = Some {| element_size := 4; nelement := Z.to_N fs |}).
Proof.
  intros Hfs Hns Hmono n m e Hm.
  set (M := py_int_of_Q (cache_size_mb * 1024 * 1024)%Q) in *.
  assert (Hn : 0 ≤ n) by (apply Z.div_pos; lia).
  assert (Hcap1 : 4 * fs * m ≤ M).
  { pose proof (Z.mul_div_le M (4 * fs) ltac:(lia)) as H. fold m in H. lia. }
  assert (Hcap2 : M < 4 * fs * (m + 1)).
  { pose proof (Z.mul_succ_div_gt M (4 * fs) ltac:(lia)) as H. fold m in H. lia. }
  assert (Hw : windowed time_time fs M m e n).
  { subst e. unfold generate_full.
    unfold mbind at 1, engine_bind at 1, lift at 1.
    unfold torch_randn. rewrite decide_False by lia.
    unfold mbind at 1, engine_bind at 1, gets at 1.
    unfold mbind at 1, engine_bind at 1, lift at 1.
    unfold py_floordiv. cbn [frame_size SparseInferenceEngine_init].
    rewrite decide_False by lia. fold n.
    destruct (generate_loop_windowed time_time fs num_samples M Hmono m (Z.to_nat n) 0
                (SparseInferenceEngine_init cache_size_mb fs))
      as (e1 & Hloop & [W0 WM WP W1 W2 W3 W4]); try done.
    - rewrite Z2Nat.id by done. pose proof (Z.mul_div_le num_samples fs Hfs) as H.
      fold n in H. lia.
    - split; try done; cbn; rewrite Z.min_l by lia; try done. lia.
    - rewrite Z2Nat.id in Hloop by done. unfold py_range.
      replace (n - 0) with n by lia.
      unfold mbind at 1, engine_bind at 1. rewrite Hloop.
      unfold mbind at 1, engine_bind at 1, set_audio at 1.
      unfold mret, engine_ret. cbn [fst].
      replace (0 + Z.of_nat (Z.to_nat n)) with n in * by lia.
      by split. }
  clearbody e. destruct Hw as [W0 WM WP W1 W2 W3 W4].
  assert (Hkeys : (cache (engine_cache e)).*1 = frame_id <$> py_range (Z.max 0 (n - m)) n).
  { rewrite W1, frame_window_keys. unfold py_range. f_equal. f_equal; lia. }
  split_and!.
  - done.
  - rewrite W4. lia.
  - done.
  - intros i now Hi. unfold get.
    assert (dict_lookup (frame_id i) (cache (engine_cache e)) = None) as ->; [|done].
    apply dict_lookup_None_keys. rewrite Hkeys.
    intros (j & Hj & Hin%elem_of_seqZ)%list_elem_of_fmap.
    apply (inj frame_id) in Hj. lia.
  - intros i now Hi. unfold get.
    assert (dict_lookup (frame_id i) (cache (engine_cache e))
            = Some (frame_entry time_time fs i)) as ->; [|done].
    apply dict_elem_lookup.
    + rewrite Hkeys. apply NoDup_frame_ids.
    + rewrite W1. unfold frame_window. apply list_elem_of_fmap. exists i.
      split; [done|]. apply elem_of_seqZ. lia.
Qed.

Lemma generate_full_keeps_last_frames_witness :
  (cache (engine_cache
            (generate_full (λ k, Z.of_nat k) 5120
               (SparseInferenceEngine_init (6144 # 1048576) 512)).1)).*1
  = frame_id <$> py_range 7 10.
Proof.
  destruct (generate_full_keeps_last_frames (λ k, Z.of_nat k) (6144 # 1048576) 512 5120)
    as (H & _).
  - lia.
  - lia.
  - intros a b Hab. lia.
  - vm_compute. discriminate.
  - exact H.
Defined.

(** *** Edits before the start of the buffer *)










(** *** The capacity of the cache of an engine *)

(** A method keeps [P] when the engine it leaves satisfies [P], whether
    it returns or raises. *)
Definition preserves {A} (P : SparseInferenceEngine → Prop) (m : EngineM A) : Prop :=
  ∀ e, P e → P (m e).1.

Lemma preserves_bind {A B} P (m : EngineM A) (k : A → EngineM B) :
  preserves P m → (∀ a, preserves P (k a)) → preserves P (m ≫= k).
Proof.
  intros Hm Hk e He. unfold mbind, engine_bind. specialize (Hm e He).
  destruct (m e) as [e1 [a|err|]]; [|done..]. by apply Hk.
Qed.

Lemma preserves_ret {A} P (a : A) : preserves P (mret a).
Proof. by intros e He. Qed.

Lemma preserves_lift {A} P (r : outcome A) : preserves P (lift r).
Proof. by intros e He. Qed.

Lemma preserves_gets {A} P (f : SparseInferenceEngine → A) : preserves P (gets f).
Proof. by intros e He. Qed.

Lemma preserves_for_each {A} P (l : list A) (body : A → EngineM unit) :
  (∀ x, preserves P (body x)) → preserves P (for_each l body).
Proof.
  intros Hbody. induction l as [|x l IH]; simpl.
  - apply preserves_ret.
  - apply preserves_bind; [apply Hbody|by intros _].
Qed.

Section engine_capacity.
Context (o : SetOrder) (time_time : nat → Z) (max_bytes : Z).

(** The cache of the engine keeps its keys distinct and its contents
    within the capacity it was given. *)
Definition cache_bounded (e : SparseInferenceEngine) : Prop :=
  cache_inv (engine_cache e) ∧ max_size_bytes (engine_cache e) = max_bytes.

Lemma cache_get_bounded key : preserves cache_bounded (cache_get time_time key).
Proof.
  intros e [Hinv Hmax]. unfold cache_get, mbind, engine_bind, gets, set_cache, mret,
    engine_ret. cbn [fst engine_cache id]. split.
  - by apply get_inv.
  - etrans; [exact (proj1 (get_config _ _ _))|done].
Qed.

Lemma cache_put_bounded key a deps : preserves cache_bounded (cache_put time_time key a deps).
Proof.
  intros e [Hinv Hmax]. rewrite cache_put_eq. cbn [fst engine_cache]. split.
  - by apply put_fuel_inv.
  - etrans; [exact (proj1 (put_config _ _ _ _ _))|done].
Qed.

Lemma cache_invalidate_bounded keys : preserves cache_bounded (cache_invalidate o keys).
Proof.
  intros e [Hinv Hmax]. unfold cache_invalidate, mbind, engine_bind, gets, set_cache.
  cbn [fst engine_cache id]. split.
  - by apply invalidate_inv.
  - etrans; [exact (proj1 (invalidate_config _ _ _))|done].
Qed.

Lemma all_deps_cached_bounded deps : preserves cache_bounded (all_deps_cached time_time deps).
Proof.
  induction deps as [|dep deps IH]; simpl.
  - apply preserves_ret.
  - apply preserves_bind; [apply cache_get_bounded|].
    intros [t|]; [done|apply preserves_ret].
Qed.

Lemma generate_full_bounded num_samples :
  preserves cache_bounded (generate_full time_time num_samples).
Proof.
  unfold generate_full.
  apply preserves_bind; [apply preserves_lift|]. intros audio.
  apply preserves_bind; [apply preserves_gets|]. intros fs.
  apply preserves_bind; [apply preserves_lift|]. intros num_frames.
  apply preserves_bind.
  { apply preserves_for_each. intros i. unfold generate_frame.
    apply preserves_bind; [apply preserves_gets|]. intros fs'.
    apply preserves_bind; [|intros deps; apply cache_put_bounded].
    case_decide; [|apply preserves_ret].
    apply preserves_bind; [|intros _; apply preserves_ret].
    unfold graph_add_dependency.
    apply preserves_bind; [apply preserves_gets|]. by intros g e He. }
  intros _. apply preserves_bind; [by intros e He|]. intros _. apply preserves_ret.
Qed.

Lemma apply_edit_bounded edit : preserves cache_bounded (apply_edit o time_time edit).
Proof.
  unfold apply_edit.
  apply preserves_bind; [by intros e He|]. intros _.
  apply preserves_bind; [apply preserves_gets|]. intros fs.
  apply preserves_bind; [apply preserves_lift|]. intros start_frame.
  apply preserves_bind; [apply preserves_lift|]. intros end_frame.
  apply preserves_bind; [apply preserves_gets|]. intros g.
  apply preserves_bind; [apply preserves_lift|]. intros affected.
  apply preserves_bind; [apply cache_invalidate_bounded|]. intros _.
  apply preserves_bind.
  { apply preserves_for_each. intros x. unfold recompute_frame.
    apply preserves_bind; [apply preserves_lift|]. intros frame_idx.
    apply preserves_bind; [apply preserves_gets|]. intros g'.
    apply preserves_bind; [apply all_deps_cached_bounded|]. intros cached.
    apply preserves_bind; [apply preserves_gets|]. intros fs'.
    apply preserves_bind; [destruct cached; apply preserves_lift|]. intros frame_audio.
    apply preserves_bind; [apply preserves_gets|]. intros done.
    apply preserves_bind; [by intros e He|]. intros _.
    apply preserves_bind; [apply cache_put_bounded|]. intros _.
    apply preserves_bind; [apply preserves_gets|]. intros [audio|].
    - case_match; [apply preserves_ret|apply preserves_lift].
    - apply preserves_lift. }
  intros _. apply preserves_bind; [apply preserves_gets|]. intros n.
  apply preserves_bind; [apply preserves_lift|]. intros ratio.
  apply preserves_bind; [apply preserves_gets|]. intros c.
  apply preserves_bind; [apply preserves_lift|]. intros stats.
  apply preserves_bind; [apply preserves_gets|]. intros audio.
  apply preserves_ret.
Qed.
End engine_capacity.

(** The calls a user makes to an engine. *)
Inductive engine_op : Type :=
  | OpGenerateFull (num_samples : Z)
  | OpApplyEdit (edit : EditOperation).

(** The engine after a call, returned or raised: the object keeps what
    the method did before an exception. *)
Definition run_engine_op (o : SetOrder) (time_time : nat → Z)
    (e : SparseInferenceEngine) (op : engine_op) : SparseInferenceEngine :=
  match op with
  | OpGenerateFull num_samples => (generate_full time_time num_samples e).1
  | OpApplyEdit edit => (apply_edit o time_time edit e).1
  end.

(** X25. Whatever calls to [generate_full] and [apply_edit] are made on
    an engine created with a cache size that is not negative, and whether
    they return or raise, the bytes held by the entries of its cache stay
    within [max_size_bytes], which does not change, and the keys stay
    distinct. *)
Theorem engine_cache_within_capacity (o : SetOrder) (time_time : nat → Z)
    (cache_size_mb : Q) (fs : Z) (ops : list engine_op) :
  (0 <= cache_size_mb)%Q →
  let e := foldl (run_engine_op o time_time)
             (SparseInferenceEngine_init cache_size_mb fs) ops in
  stored_bytes (engine_cache e) ≤ max_size_bytes (engine_cache e)
  ∧ max_size_bytes (engine_cache e) = py_int_of_Q (cache_size_mb * 1024 * 1024)%Q
  ∧ NoDup (cache (engine_cache e)).*1.
Proof.
  intros Hcap e.
  assert (H : cache_bounded (py_int_of_Q (cache_size_mb * 1024 * 1024)%Q) e).
  { subst e. generalize (SparseInferenceEngine_init cache_size_mb fs)
      (conj (TemporalCache_init_inv cache_size_mb "lru" Hcap) eq_refl
       : cache_bounded (py_int_of_Q (cache_size_mb * 1024 * 1024)%Q)
           (SparseInferenceEngine_init cache_size_mb fs)).
    induction ops as [|op ops IH]; intros e0 H0; simpl; [done|].
    apply IH. destruct op; simpl.
    - by apply generate_full_bounded.
    - by apply apply_edit_bounded. }
  clearbody e. destruct H as [[H1 H2 H3 H4] Hmax]. split_and!; [lia|done|done].
Qed.

Lemma engine_cache_within_capacity_witness :
  let e := foldl (run_engine_op elements_order (λ k, Z.of_nat k))
             (SparseInferenceEngine_init (6144 # 1048576) 512)
             [OpGenerateFull 5120; OpApplyEdit edit_frame_3] in
  stored_bytes (engine_cache e) ≤ max_size_bytes (engine_cache e).
Proof.
  apply (engine_cache_within_capacity elements_order (λ k, Z.of_nat k) (6144 # 1048576) 512
           [OpGenerateFull 5120; OpApplyEdit edit_frame_3]).
  unfold Qle. simpl. lia.
Defined.

(** * The order of eviction, and edits on new and reused engines *)

(** ** C8: the order of eviction under "lru" *)

Lemma min_from_later {V} (f : V → Z) best l1 kv l2 :
  f kv.2 < f best.2 →
  (∀ x, x ∈ l1 → f kv.2 < f x.2) →
  (∀ x, x ∈ l2 → f kv.2 ≤ f x.2) →
  min_from f best (l1 ++ kv :: l2) = kv.
Proof.
  revert best. induction l1 as [|x l1 IH]; intros best Hbest H1 H2; simpl.
  - rewrite decide_True by done. by apply min_from_head.
  - pose proof (H1 x ltac:(left)) as Hx.
    case_decide; apply IH; try done; intros y Hy; apply H1; by right.
Qed.

(** [min] over a dict returns the first of the smallest. *)
Lemma dict_min_first_smallest {V} (f : V → Z) l1 kv l2 :
  (∀ x, x ∈ l1 → f kv.2 < f x.2) →
  (∀ x, x ∈ l2 → f kv.2 ≤ f x.2) →
  dict_min f (l1 ++ kv :: l2) = Some kv.
Proof.
  intros H1 H2. destruct l1 as [|best l1]; simpl.
  - by rewrite min_from_head.
  - rewrite min_from_later; [done|..].
    + apply H1. left.
    + intros x Hx. apply H1. by right.
    + done.
Qed.

Lemma dict_set_middle {V} k (v v' : V) l1 l2 :
  k ∉ l1.*1 → dict_set k v' (l1 ++ (k, v) :: l2) = l1 ++ (k, v') :: l2.
Proof.
  induction l1 as [|[k0 v0] l1 IH]; csimpl.
  - intros _. by rewrite decide_True.
  - intros [Hne Hnin]%not_elem_of_cons. rewrite decide_False by done. by rewrite IH.
Qed.

(** C8 (as amended). Under the LRU policy, a [put] that must evict removes
    an entry of smallest timestamp and goes on with the cache without it.
    A [get] on a present key sets the timestamp of the entry to the reading
    of the clock at the call and leaves the other entries as they are.
    That timestamp is the largest of the cache when the clock has not gone
    back, and the entry outlives the next eviction when another entry is
    strictly older.  It is not always ordered last: among entries of equal
    timestamp [min] takes the one that was inserted first, so when every
    other entry has a timestamp at least as large, and those inserted
    before it a larger one, the entry that was just read is the next one
    evicted. *)
Theorem lru_evicts_oldest_and_get_refreshes (c : TemporalCache) :
  eviction_policy c = "lru" → NoDup (cache c).*1 →
  (∀ fuel key a deps now,
      cache c ≠ [] → current_size_bytes c + tensor_bytes a > max_size_bytes c →
      ∃ k entry c',
        dict_lookup k (cache c) = Some entry
        ∧ (∀ k' e', dict_lookup k' (cache c) = Some e' → timestamp entry ≤ timestamp e')
        ∧ _evict_one c = (c', Ok tt)
        ∧ dict_lookup k (cache c') = None
        ∧ (∀ k', k' ≠ k → dict_lookup k' (cache c') = dict_lookup k' (cache c))
        ∧ put_fuel (S fuel) c key a deps now = put_fuel fuel c' key a deps now)
  ∧ (∀ key now entry,
      dict_lookup key (cache c) = Some entry →
      ∃ entry',
        dict_lookup key (cache (get c key now).1) = Some entry'
        ∧ timestamp entry' = now
        ∧ (∀ k', k' ≠ key →
                 dict_lookup k' (cache (get c key now).1) = dict_lookup k' (cache c))
        ∧ ((∀ k' e', dict_lookup k' (cache c) = Some e' → timestamp e' ≤ now) →
           ∀ k' e', dict_lookup k' (cache (get c key now).1) = Some e' →
                    timestamp e' ≤ timestamp entry')
        ∧ (∀ k' e',
              k' ≠ key → dict_lookup k' (cache c) = Some e' → timestamp e' < now →
              ∃ c'', _evict_one (get c key now).1 = (c'', Ok tt)
                     ∧ is_Some (dict_lookup key (cache c'')))
        ∧ (∀ l1 l2,
              cache c = l1 ++ (key, entry) :: l2 →
              (∀ x, x ∈ l1 → now < timestamp x.2) →
              (∀ x, x ∈ l2 → now ≤ timestamp x.2) →
              ∃ c'', _evict_one (get c key now).1 = (c'', Ok tt)
                     ∧ cache c'' = l1 ++ l2
                     ∧ dict_lookup key (cache c'') = None)).
Proof.
  intros Hlru Hnd. split.
  - intros fuel key a deps now Hne Hfull.
    destruct (evict_min_nonempty timestamp c Hne) as (k & entry & _ & Hin & Hmin & Hev & _).
    assert (Hone : _evict_one c = evict_min timestamp c).
    { unfold _evict_one. by rewrite decide_True. }
    eexists k, entry, _. split_and!.
    + by apply dict_elem_lookup.
    + intros k' e' Hk'. apply (Hmin (k', e')). by apply dict_lookup_Some_elem.
    + by rewrite Hone, Hev.
    + simpl. rewrite dict_lookup_del by done. by rewrite decide_True.
    + intros k' Hk'. simpl. rewrite dict_lookup_del by done. by rewrite decide_False.
    + unfold put_fuel. rewrite (put_evict_loop_unfold (S fuel)).
      rewrite decide_True by done. rewrite decide_False by done.
      by rewrite Hone, Hev.
  - intros key now entry Hkey. unfold get. rewrite Hkey. cbn [fst cache].
    set (entry' := {| timestamp := now; activations := activations entry;
                      dependencies := dependencies entry;
                      hit_count := hit_count entry + 1;
                      size_bytes := size_bytes entry |}).
    assert (Hnd' : NoDup (dict_set key entry' (cache c)).*1) by by apply dict_set_NoDup.
    exists entry'. split_and!.
    + rewrite dict_lookup_set. by rewrite decide_True.
    + done.
    + intros k' Hk'. rewrite dict_lookup_set. by rewrite decide_False.
    + intros Hnow k' e'. rewrite dict_lookup_set. simpl.
      case_decide; [by intros [= <-]|]. apply Hnow.
    + intros k' e' Hk' He' Hold.
      unfold _evict_one. cbn [eviction_policy]. rewrite decide_True by done.
      unfold evict_min. cbn [cache].
      destruct (dict_min timestamp (dict_set key entry' (cache c))) as [[k e]|] eqn:Hm.
      2:{ exfalso. destruct (cache c) as [|[k0 v0] d]; [done|].
          simpl in Hm. by case_decide. }
      eexists. split; [reflexivity|]. cbn [cache].
      pose proof (dict_min_Some _ _ _ Hm) as [Hin Hmin].
      rewrite dict_lookup_del by done.
      destruct (decide (k = key)) as [->|Hk].
      * exfalso. apply (dict_elem_lookup _ _ _ Hnd') in Hin.
        rewrite dict_lookup_set, decide_True in Hin by done.
        injection Hin as <-.
        specialize (Hmin (k', e')). simpl in Hmin.
        assert ((k', e') ∈ dict_set key entry' (cache c)) as Hin'.
        { apply dict_lookup_Some_elem. rewrite dict_lookup_set.
          by rewrite decide_False. }
        specialize (Hmin Hin'). lia.
      * rewrite dict_lookup_set, decide_True by done. by eexists.
    + intros l1 l2 Hc H1 H2.
      assert (Hk1 : (key ∉ l1.*1) ∧ (key ∉ l2.*1)).
      { rewrite Hc, fmap_app in Hnd. csimpl in Hnd.
        apply NoDup_app in Hnd as (_ & Hdis & Hnd2).
        apply NoDup_cons in Hnd2 as [Hk2 _]. split; [|done].
        intros Hk. apply (Hdis key Hk). left. }
      destruct Hk1 as [Hk1 Hk2].
      unfold _evict_one. cbn [eviction_policy]. rewrite decide_True by done.
      unfold evict_min. cbn [cache].
      rewrite Hc, dict_set_middle by done.
      rewrite (dict_min_first_smallest timestamp l1 (key, entry') l2) by done.
      eexists. split; [reflexivity|]. cbn [cache].
      rewrite dict_del_middle by done. split; [done|].
      apply dict_lookup_None_keys. rewrite fmap_app.
      intros [?|?]%elem_of_app; done.
Qed.

(** Two entries stored at the same reading of the clock. *)
Definition lru_tie_example : TemporalCache :=
  let buffer := {| element_size := 4; nelement := 10 |} in
  (put (put (TemporalCache_init (100 # 1048576) "lru") "a" buffer ∅ 5).1 "b" buffer ∅ 5).1.

Lemma lru_evicts_oldest_and_get_refreshes_witness :
  put_fuel 2 lru_example "c" {| element_size := 4; nelement := 10 |} ∅ 3
  = put_fuel 1 (_evict_one lru_example).1 "c" {| element_size := 4; nelement := 10 |} ∅ 3
  ∧ (∃ c'', _evict_one (get lru_example "b" 3).1 = (c'', Ok tt)
            ∧ is_Some (dict_lookup "b" (cache c'')))
  ∧ (∃ c'', _evict_one (get lru_tie_example "a" 5).1 = (c'', Ok tt)
            ∧ dict_lookup "a" (cache c'') = None).
Proof.
  assert (H1 : eviction_policy lru_example = "lru") by reflexivity.
  assert (H2 : NoDup (cache lru_example).*1).
  { vm_compute. repeat constructor; set_solver. }
  assert (K1 : eviction_policy lru_tie_example = "lru") by reflexivity.
  assert (K2 : NoDup (cache lru_tie_example).*1).
  { vm_compute. repeat constructor; set_solver. }
  destruct (lru_evicts_oldest_and_get_refreshes lru_example H1 H2) as [Hput Hget].
  destruct (lru_evicts_oldest_and_get_refreshes lru_tie_example K1 K2) as [_ Htie].
  split_and!.
  - destruct (Hput 1%nat "c" {| element_size := 4; nelement := 10 |} ∅ 3)
      as (k & entry & c' & _ & _ & Hev & _ & _ & Heq).
    + vm_compute. discriminate.
    + vm_compute. reflexivity.
    + rewrite Heq. by rewrite Hev.
  - destruct (Hget "b" 3
                {| timestamp := 2; activations := {| element_size := 4; nelement := 10 |};
                   dependencies := ∅; hit_count := 0; size_bytes := 40 |})
      as (entry' & _ & _ & _ & _ & Hkeep & _); [vm_compute; reflexivity|].
    apply (Hkeep "a"
             {| timestamp := 1; activations := {| element_size := 4; nelement := 10 |};
                dependencies := ∅; hit_count := 0; size_bytes := 40 |}).
    + discriminate.
    + vm_compute. reflexivity.
    + vm_compute. reflexivity.
  - destruct (Htie "a" 5
                {| timestamp := 5; activations := {| element_size := 4; nelement := 10 |};
                   dependencies := ∅; hit_count := 0; size_bytes := 40 |})
      as (entry' & _ & _ & _ & _ & _ & Hgone); [vm_compute; reflexivity|].
    destruct (Hgone []
                [("b", {| timestamp := 5;
                          activations := {| element_size := 4; nelement := 10 |};
                          dependencies := ∅; hit_count := 0; size_bytes := 40 |})])
      as (c'' & Hev & _ & Hnone).
    + vm_compute. reflexivity.
    + intros x Hx. by apply elem_of_nil in Hx.
    + intros x ->%list_elem_of_singleton. vm_compute. discriminate.
    + by exists c''.
Defined.

(** The claim C8 as the specification has it fails on the code: "a" and "b"
    are stored at the same reading of the clock and "a" is read at that
    reading again; its timestamp is then the largest of the cache, and the
    [put] that follows, which must evict, removes "a", the entry that was
    just read, and keeps "b". *)
Lemma lru_read_entry_evicted_on_tie :
  let buffer := {| element_size := 4; nelement := 10 |} in
  let r := get lru_tie_example "a" 5 in
  let p := put r.1 "c" buffer ∅ 6 in
  r.2 = Some buffer
  ∧ Forall (λ kv, timestamp kv.2 ≤ 5) (cache r.1)
  ∧ (timestamp <$> dict_lookup "a" (cache r.1)) = Some 5
  ∧ p.2 = Ok tt
  ∧ (cache p.1).*1 = ["b"; "c"]
  ∧ dict_lookup "a" (cache p.1) = None.
Proof.
  split_and!; try by vm_compute.
  vm_compute. repeat constructor; discriminate.
Qed.

(** ** C1: the frames an edit recomputes *)

Section edit_run.
Context (o : SetOrder) (time_time : nat → Z).






End edit_run.




(** ** C5: an edit that reaches past the end of the buffer *)

(** An edit that reaches past the buffer fails after it has recomputed a
    frame outside the buffer; the frame lies in the range of the edit. *)
Lemma apply_edit_past_end_index o time_time e fs num_samples edit :
  filled e fs num_samples → 1 < fs → 0 ≤ num_samples →
  (affected_region edit).1 `quot` fs ≤ (affected_region edit).2 `quot` fs →
  num_samples `div` fs ≤ (affected_region edit).2 `quot` fs →
  ∃ e', apply_edit o time_time edit e = (e', Raise RuntimeError)
        ∧ ∃ i, frame_id i ∈ recomputed e'
               ∧ (affected_region edit).1 `quot` fs ≤ i ≤ (affected_region edit).2 `quot` fs
               ∧ ¬ (0 ≤ i < num_samples `div` fs).
Proof.
  intros [E1 E2 E4 E5 E6] Hfs Hns Hst Ht.
  destruct (get_affected_nodes_spec o (chain_graph (num_samples `div` fs))
              (changed_frames ((affected_region edit).1 `quot` fs)
                              ((affected_region edit).2 `quot` fs))) as (A & HA & _).
  destruct (affected_in_chain o _ _ _ A HA) as [Hids Hchanged].
  destruct (apply_edit_run o time_time edit e A)
    as (e' & r & Hrun & _ & _ & Hbad).
  - lia.
  - by left.
  - by rewrite E1, E6.
  - intros x (i & -> & _)%Hids. by exists i.
  - destruct (Hbad ((affected_region edit).2 `quot` fs)) as (Hr & j & HjA & Hj & Hjbad).
    + apply Hchanged. lia.
    + apply (write_ok_out_of_range e _ num_samples); [done|done|lia|by rewrite E1].
    + exists e'. split.
      * rewrite Hrun, Hr. unfold write_error. by rewrite E4.
      * exists j.
        assert (Hout : ¬ (0 ≤ j < num_samples `div` fs)).
        { intros Hin.
          rewrite (write_ok_in_range e j num_samples) in Hjbad;
            [done|done|done|lia|by rewrite E1]. }
        split_and!; [done| | |done].
        -- apply Hids in HjA as (i & Hi%(inj frame_id) & Hrange). subst i. lia.
        -- apply Hids in HjA as (i & Hi%(inj frame_id) & Hrange). subst i. lia.
Qed.

(** C5 (as amended). [apply_edit] does not clamp the range of frames.  On
    a new engine that its first [generate_full] has filled, with frames of
    more than one sample and a region below 2^53 in magnitude (where
    [int(a / frame_size)] is the exact quotient): an edit whose frames lie
    in the buffer completes and recomputes frames of the buffer only; an
    edit whose last frame is at or past the frame count raises the error of
    the write into the buffer, after it has recomputed a frame of its range
    that is outside the buffer: a frame at or past the frame count when the
    first frame of the edit is not negative. *)
Theorem apply_edit_does_not_clamp (o : SetOrder) (time_time : nat → Z)
    (cache_size_mb : Q) (fs num_samples : Z) (edit : EditOperation) :
  1 < fs → 0 ≤ num_samples →
  Z.abs (affected_region edit).1 < 2 ^ 53 →
  Z.abs (affected_region edit).2 < 2 ^ 53 →
  let e := (generate_full time_time num_samples
              (SparseInferenceEngine_init cache_size_mb fs)).1 in
  let start_frame := (affected_region edit).1 `quot` fs in
  let end_frame := (affected_region edit).2 `quot` fs in
  (0 ≤ start_frame → start_frame ≤ end_frame → end_frame < current_length_frames e →
   max_size_bytes (engine_cache e) ≠ 0 →
   ∃ e' v, apply_edit o time_time edit e = (e', Ok v)
           ∧ ∀ x, x ∈ recomputed e' →
                  ∃ i, x = frame_id i ∧ 0 ≤ i < current_length_frames e)
  ∧ (start_frame ≤ end_frame → current_length_frames e ≤ end_frame →
     ∃ e', apply_edit o time_time edit e = (e', Raise RuntimeError)
           ∧ ∃ i, frame_id i ∈ recomputed e'
                  ∧ start_frame ≤ i ≤ end_frame
                  ∧ ¬ (0 ≤ i < current_length_frames e)
                  ∧ (0 ≤ start_frame → current_length_frames e ≤ i)).
Proof.
  intros Hfs Hns _ _ e s t.
  destruct (generated_engine time_time cache_size_mb fs num_samples) as [F _];
    [lia|done|].
  fold e in F. clearbody e. subst s t.
  rewrite (filled_length _ _ _ F). split.
  - intros Hs Hst Ht Hmax.
    destruct (apply_edit_in_range o time_time e fs num_samples edit F)
      as (A & stats & e' & HA & Hrun & Hrec & Hrange); [lia|done..|].
    eexists e', _. split; [exact Hrun|].
    intros x Hx. rewrite Hrec in Hx. apply elem_of_py_sorted_enum in Hx.
    by apply Hrange.
  - intros Hst Ht.
    destruct (apply_edit_past_end_index o time_time e fs num_samples edit F)
      as (e' & Hrun & i & Hi & Hrange & Hout); [done..|].
    exists e'. split; [done|]. exists i. split_and!; [done|lia|lia|done|lia].
Qed.

Lemma apply_edit_does_not_clamp_witness :
  (∃ e' v,
      apply_edit elements_order (λ k, Z.of_nat k) edit_frame_8
        (generate_full (λ k, Z.of_nat k) 5120 (SparseInferenceEngine_init 1000 512)).1
      = (e', Ok v)
      ∧ ∀ x, x ∈ recomputed e' → ∃ i, x = frame_id i ∧ 0 ≤ i < 10)
  ∧ (∃ e',
      apply_edit elements_order (λ k, Z.of_nat k) edit_past_end
        (generate_full (λ k, Z.of_nat k) 5120 (SparseInferenceEngine_init 1000 512)).1
      = (e', Raise RuntimeError)
      ∧ ∃ i, frame_id i ∈ recomputed e' ∧ 9 ≤ i ≤ 11 ∧ 10 ≤ i).
Proof.
  split.
  - destruct (apply_edit_does_not_clamp elements_order (λ k, Z.of_nat k) 1000 512 5120
                edit_frame_8) as [H _].
    + lia.
    + lia.
    + vm_compute. reflexivity.
    + vm_compute. reflexivity.
    + apply H.
      * vm_compute. discriminate.
      * vm_compute. discriminate.
      * vm_compute. reflexivity.
      * vm_compute. discriminate.
  - destruct (apply_edit_does_not_clamp elements_order (λ k, Z.of_nat k) 1000 512 5120
                edit_past_end) as [_ H].
    + lia.
    + lia.
    + vm_compute. reflexivity.
    + vm_compute. reflexivity.
    + destruct H as (e' & Hrun & i & Hi & Hrange & _ & Hge).
      * vm_compute. discriminate.
      * vm_compute. discriminate.
      * exists e'. split; [exact Hrun|]. exists i. split; [exact Hi|].
        split; [exact Hrange|]. apply Hge. vm_compute. discriminate.
Defined.

(** The claim C5 as the specification has it fails on the code: the edit
    below ends at frame 11 of a buffer of 10 frames; the call does not
    complete, and frame 10 has been recomputed. *)
Lemma apply_edit_past_end_fails :
  let e := (generate_full (λ k, Z.of_nat k) 5120
              (SparseInferenceEngine_init 1000 512)).1 in
  let r := apply_edit elements_order (λ k, Z.of_nat k) edit_past_end e in
  current_length_frames e = 10
  ∧ (affected_region edit_past_end).2 `quot` frame_size e = 11
  ∧ r.2 = Raise RuntimeError
  ∧ recomputed r.1 = ["frame_10"].
Proof. by vm_compute. Qed.

(** ** C4: an edit before [generate_full] *)

(** An engine on which [generate_full] has not completed: it has no
    buffer, no frame, no edge in its graph, and no [get] was made on its
    cache. *)
Record unfilled (e : SparseInferenceEngine) : Prop := {
  unfilled_graph : dependency_graph e = DependencyGraph_init;
  unfilled_audio : current_audio e = None;
  unfilled_length : current_length_frames e = 0;
  unfilled_policy : eviction_policy (engine_cache e) = "lru";
  unfilled_hits : hits (engine_cache e) = 0;
  unfilled_misses : misses (engine_cache e) = 0
}.

(** Calls made on an engine one after the other, none of which is a
    [generate_full] that returns. *)
Fixpoint never_generated (o : SetOrder) (time_time : nat → Z)
    (e : SparseInferenceEngine) (calls : list engine_op) : Prop :=
  match calls with
  | [] => True
  | call :: calls' =>
      match call with
      | OpGenerateFull num_samples =>
          ∀ audio, (generate_full time_time num_samples e).2 ≠ Ok audio
      | OpApplyEdit _ => True
      end
      ∧ never_generated o time_time (run_engine_op o time_time e call) calls'
  end.

Lemma unfilled_init cache_size_mb fs : unfilled (SparseInferenceEngine_init cache_size_mb fs).
Proof. by split. Qed.

Lemma py_sorted_nil l : py_sorted l = [] → l = [].
Proof.
  intros Hl. apply Permutation_nil_r. rewrite <- Hl. unfold py_sorted.
  by rewrite merge_sort_Permutation.
Qed.

Lemma changed_frames_empty s t : t < s → changed_frames s t = ∅.
Proof.
  intros Hst. apply set_eq. intros x. rewrite elem_of_changed_frames.
  split; [intros (i & _ & Hi); lia|set_solver].
Qed.

(** A [generate_full] that does not return leaves the engine as it is. *)
Lemma generate_full_raises_unchanged time_time num_samples e :
  known_policy (engine_cache e) →
  (∀ audio, (generate_full time_time num_samples e).2 ≠ Ok audio) →
  (generate_full time_time num_samples e).1 = e.
Proof.
  intros Hp Hfail.
  destruct (decide (0 ≤ num_samples)) as [Hns|Hns].
  - destruct (decide (frame_size e = 0)) as [Hfs|Hfs].
    + unfold generate_full.
      unfold mbind at 1, engine_bind at 1, lift at 1.
      unfold torch_randn. rewrite decide_False by lia.
      unfold mbind at 1, engine_bind at 1, gets at 1.
      unfold mbind at 1, engine_bind at 1, lift at 1.
      unfold py_floordiv. by rewrite decide_True.
    + destruct (generate_full_spec time_time num_samples e Hns Hfs Hp)
        as (e' & Hrun & _).
      exfalso. apply (Hfail {| element_size := 4; nelement := Z.to_N num_samples |}).
      by rewrite Hrun.
  - unfold generate_full.
    unfold mbind at 1, engine_bind at 1, lift at 1.
    unfold torch_randn. by rewrite decide_True by lia.
Qed.

(** A turn of the loop of [apply_edit] on an engine without buffer and
    without edges. *)
Lemma recompute_frame_unfilled o time_time i e :
  dependency_graph e = DependencyGraph_init → current_audio e = None →
  known_policy (engine_cache e) →
  recompute_frame o time_time (frame_id i) e
  = if decide (frame_size e < 0) then (e, Raise RuntimeError)
    else ({| frame_size := frame_size e;
             dependency_graph := dependency_graph e;
             engine_cache :=
               (put (engine_cache e) (frame_id i)
                  {| element_size := 4; nelement := Z.to_N (frame_size e) |} ∅
                  (time_time (clock e))).1;
             current_audio := current_audio e;
             current_length_frames := current_length_frames e;
             clock := (clock e + 1)%nat;
             recomputed := recomputed e ++ [frame_id i] |}, Raise TypeError).
Proof.
  intros Hg Ha Hp. unfold recompute_frame.
  rewrite frame_index_frame_id.
  unfold mbind at 1, engine_bind at 1, lift at 1.
  unfold mbind at 1, engine_bind at 1, gets at 1.
  rewrite Hg.
  change (get_dependencies DependencyGraph_init (frame_id i)) with (∅ : gset string).
  rewrite enum_empty. cbn [all_deps_cached].
  unfold mbind at 1, engine_bind at 1, mret at 1, engine_ret at 1.
  unfold mbind at 1, engine_bind at 1, gets at 1.
  unfold torch_randn. destruct (decide (frame_size e < 0)); [done|].
  unfold mbind at 1, engine_bind at 1, lift at 1.
  unfold mbind at 1, engine_bind at 1, gets at 1.
  unfold mbind at 1, engine_bind at 1, set_recomputed at 1.
  unfold mbind at 1, engine_bind at 1.
  rewrite cache_put_eq.
  cbn [engine_cache clock recomputed frame_size dependency_graph current_audio
       current_length_frames].
  destruct (put_known (engine_cache e) (frame_id i)
              {| element_size := 4; nelement := Z.to_N (frame_size e) |} ∅
              (time_time (clock e)) Hp) as [c' Hput].
  rewrite Hput. cbn [fst snd].
  unfold mbind at 1, engine_bind at 1, gets at 1.
  cbn [current_audio]. by rewrite Ha, Hg.
Qed.

(** [apply_edit] on such an engine. *)
Lemma apply_edit_unfilled o time_time edit e :
  unfilled e →
  let fs := frame_size e in
  let start_frame := (affected_region edit).1 `quot` fs in
  let end_frame := (affected_region edit).2 `quot` fs in
  let changed := changed_frames start_frame end_frame in
  ∃ e' err,
    apply_edit o time_time edit e = (e', Raise err)
    ∧ unfilled e'
    ∧ frame_size e' = fs
    ∧ max_size_bytes (engine_cache e') = max_size_bytes (engine_cache e)
    ∧ (fs = 0 →
       err = ZeroDivisionError
       ∧ recomputed e' = [] ∧ engine_cache e' = engine_cache e ∧ clock e' = clock e)
    ∧ (fs ≠ 0 → end_frame < start_frame →
       err = ZeroDivisionError
       ∧ recomputed e' = [] ∧ engine_cache e' = engine_cache e ∧ clock e' = clock e)
    ∧ (fs < 0 → start_frame ≤ end_frame →
       err = RuntimeError
       ∧ recomputed e' = []
       ∧ engine_cache e' = invalidate o (engine_cache e) changed
       ∧ clock e' = clock e)
    ∧ (0 < fs → start_frame ≤ end_frame →
       err = TypeError
       ∧ ∃ x rest,
           py_sorted (enum o changed) = x :: rest
           ∧ recomputed e' = [x]
           ∧ engine_cache e'
             = (put (invalidate o (engine_cache e) changed) x
                  {| element_size := 4; nelement := Z.to_N fs |} ∅
                  (time_time (clock e))).1
           ∧ clock e' = S (clock e)).
Proof.
  intros [U1 U2 U3 U4 U5 U6] fs s t changed. unfold apply_edit.
  unfold mbind at 1, engine_bind at 1, set_recomputed at 1.
  unfold mbind at 1, engine_bind at 1, gets at 1.
  unfold mbind at 1, engine_bind at 1, lift at 1.
  unfold py_int_truediv at 1. cbn [frame_size]. fold fs.
  destruct (decide (fs = 0)) as [Hfs|Hfs].
  { eexists _, _. split; [reflexivity|].
    split_and!; try done; intros; lia. }
  unfold mbind at 1, engine_bind at 1, lift at 1.
  unfold py_int_truediv at 1. rewrite decide_False by done.
  unfold mbind at 1, engine_bind at 1, gets at 1.
  cbn [dependency_graph]. rewrite U1.
  rewrite get_affected_nodes_fresh.
  unfold mbind at 1, engine_bind at 1, lift at 1.
  unfold mbind at 1, engine_bind at 1, cache_invalidate at 1.
  unfold mbind at 1, engine_bind at 1, gets at 1.
  unfold set_cache at 1.
  cbn [engine_cache clock recomputed frame_size dependency_graph current_audio
       current_length_frames id].
  fold s t. fold changed. rewrite Nat.add_0_r.
  destruct (invalidate_requests o (engine_cache e) changed) as (I1 & I2 & _).
  destruct (invalidate_config o (engine_cache e) changed) as [I3 I4].
  match goal with |- context [(for_each _ _ ≫= _) ?st] => set (e2 := st) end.
  destruct (py_sorted (enum o changed)) as [|x l] eqn:Hl.
  - cbn [for_each].
    unfold mbind at 1, engine_bind at 1, mret at 1, engine_ret at 1.
    unfold mbind at 1, engine_bind at 1, gets at 1.
    unfold mbind at 1, engine_bind at 1, lift at 1.
    cbn [current_length_frames e2]. rewrite U3.
    rewrite decide_True by done.
    assert (Hnone : ¬ s ≤ t).
    { intros Hst.
      assert (Hin : frame_id s ∈ py_sorted (enum o changed)).
      { apply elem_of_py_sorted_enum, elem_of_changed_frames.
        exists s. split; [done|lia]. }
      rewrite Hl in Hin. by apply elem_of_nil in Hin. }
    assert (Hc : invalidate o (engine_cache e) changed = engine_cache e).
    { unfold invalidate. by rewrite (py_sorted_nil _ Hl). }
    eexists _, _. split; [reflexivity|].
    subst e2. cbn [dependency_graph current_audio current_length_frames engine_cache
                   recomputed frame_size clock].
    split_and!; try done.
    split; cbn [dependency_graph current_audio current_length_frames engine_cache];
      congruence.
  - assert (Hx : x ∈ changed).
    { apply (elem_of_py_sorted_enum o). rewrite Hl. left. }
    apply elem_of_changed_frames in Hx as (i & -> & Hi).
    cbn [for_each].
    unfold mbind at 1, engine_bind at 1.
    unfold mbind at 1, engine_bind at 1.
    rewrite (recompute_frame_unfilled o time_time i e2);
      [|done|done|left; exact (eq_trans I4 U4)].
    cbn [frame_size e2]. fold fs.
    destruct (decide (fs < 0)) as [Hneg|Hneg].
    + eexists _, _. split; [reflexivity|].
      subst e2. cbn [dependency_graph current_audio current_length_frames engine_cache
                     recomputed frame_size clock].
      split_and!;
        first [done | intros; lia
              | split;
                cbn [dependency_graph current_audio current_length_frames engine_cache];
                congruence ].
    + eexists _, _. split; [reflexivity|].
      subst e2. cbn [dependency_graph current_audio current_length_frames engine_cache
                     recomputed frame_size clock app].
      pose proof (put_fuel_requests
                    (length (cache (invalidate o (engine_cache e) changed)))
                    (invalidate o (engine_cache e) changed) (frame_id i)
                    {| element_size := 4; nelement := Z.to_N fs |} ∅
                    (time_time (clock e))) as (P1 & P2 & _).
      destruct (put_config (invalidate o (engine_cache e) changed) (frame_id i)
                  {| element_size := 4; nelement := Z.to_N fs |} ∅
                  (time_time (clock e))) as [P3 P4].
      fold (put (invalidate o (engine_cache e) changed) (frame_id i)
              {| element_size := 4; nelement := Z.to_N fs |} ∅ (time_time (clock e)))
        in P1, P2.
      split_and!;
        first [done | intros; lia | congruence
              | split;
                cbn [dependency_graph current_audio current_length_frames engine_cache];
                congruence
              | idtac ].
      intros _ _. split; [done|]. exists (frame_id i), l. split_and!; try done. lia.
Qed.

Lemma unfilled_calls o time_time calls e :
  unfilled e → never_generated o time_time e calls →
  unfilled (foldl (run_engine_op o time_time) e calls)
  ∧ frame_size (foldl (run_engine_op o time_time) e calls) = frame_size e
  ∧ max_size_bytes (engine_cache (foldl (run_engine_op o time_time) e calls))
    = max_size_bytes (engine_cache e).
Proof.
  revert e. induction calls as [|call calls IH]; intros e Hu; simpl; [done|].
  intros [Hcall Hrest].
  assert (Hstep : unfilled (run_engine_op o time_time e call)
                  ∧ frame_size (run_engine_op o time_time e call) = frame_size e
                  ∧ max_size_bytes (engine_cache (run_engine_op o time_time e call))
                    = max_size_bytes (engine_cache e)).
  { destruct call as [num_samples|edit]; simpl.
    - rewrite generate_full_raises_unchanged; [done| |done].
      left. apply (unfilled_policy _ Hu).
    - destruct (apply_edit_unfilled o time_time edit e Hu)
        as (e' & err & Hrun & Hu' & Hfs' & Hmax' & _).
      by rewrite Hrun. }
  destruct Hstep as (Hu1 & Hfs1 & Hmax1).
  destruct (IH _ Hu1 Hrest) as (Hu2 & Hfs2 & Hmax2).
  split_and!; [done|congruence|congruence].
Qed.

(** C4 (as amended). On an engine on which [generate_full] has never
    completed (a new engine, after any calls of [apply_edit] and of
    [generate_full] of which no [generate_full] returned), [apply_edit]
    raises an exception, whatever the edit with a region below 2^53 in
    magnitude; there is no check of the state: the exception is
    [ZeroDivisionError] when the frame size is 0 or the edit names no
    frame, [RuntimeError] when the frame size is negative and the edit
    names a frame, and [TypeError], from the write into the missing buffer,
    otherwise.  The graph, the buffer, the frame count and the counters of
    hits and misses are as before the call.  The cache is not: when the
    frame size is not 0 the entries of the frames the edit names are
    invalidated, and when it is positive the first of these frames in the
    order of [sorted] has been recomputed and passed to [put] before the
    exception; on a new engine the cache then holds that one entry, of
    [4 * frame_size] bytes, when it fits. *)
Theorem apply_edit_before_generate_full (o : SetOrder) (time_time : nat → Z)
    (cache_size_mb : Q) (fs : Z) (calls : list engine_op) (edit : EditOperation) :
  never_generated o time_time (SparseInferenceEngine_init cache_size_mb fs) calls →
  Z.abs (affected_region edit).1 < 2 ^ 53 →
  Z.abs (affected_region edit).2 < 2 ^ 53 →
  let e := foldl (run_engine_op o time_time)
             (SparseInferenceEngine_init cache_size_mb fs) calls in
  let start_frame := (affected_region edit).1 `quot` fs in
  let end_frame := (affected_region edit).2 `quot` fs in
  let changed := changed_frames start_frame end_frame in
  let buffer := {| element_size := 4; nelement := Z.to_N fs |} in
  frame_size e = fs
  ∧ current_audio e = None
  ∧ current_length_frames e = 0
  ∧ dependency_graph e = DependencyGraph_init
  ∧ ∃ e' err,
      apply_edit o time_time edit e = (e', Raise err)
      ∧ dependency_graph e' = dependency_graph e
      ∧ current_audio e' = None
      ∧ current_length_frames e' = 0
      ∧ hits (engine_cache e') = hits (engine_cache e)
      ∧ misses (engine_cache e') = misses (engine_cache e)
      ∧ (fs = 0 ∨ end_frame < start_frame →
         err = ZeroDivisionError
         ∧ recomputed e' = []
         ∧ engine_cache e' = engine_cache e)
      ∧ (fs < 0 → start_frame ≤ end_frame →
         err = RuntimeError
         ∧ recomputed e' = []
         ∧ engine_cache e' = invalidate o (engine_cache e) changed)
      ∧ (0 < fs → start_frame ≤ end_frame →
         err = TypeError
         ∧ ∃ x rest,
             py_sorted (enum o changed) = x :: rest
             ∧ recomputed e' = [x]
             ∧ engine_cache e'
               = (put (invalidate o (engine_cache e) changed) x buffer ∅
                    (time_time (clock e))).1
             ∧ (calls = [] → 4 * fs ≤ max_size_bytes (engine_cache e) →
                cache (engine_cache e')
                = [(x, {| timestamp := time_time O; activations := buffer;
                          dependencies := ∅; hit_count := 0; size_bytes := 4 * fs |})]
                ∧ current_size_bytes (engine_cache e') = 4 * fs
                ∧ evictions (engine_cache e') = 0)).
Proof.
  intros Hcalls _ _ e s t changed buffer.
  destruct (unfilled_calls o time_time calls
              (SparseInferenceEngine_init cache_size_mb fs)
              (unfilled_init cache_size_mb fs) Hcalls) as (Hu & Hfs & Hmax).
  fold e in Hu, Hfs, Hmax. cbn [frame_size SparseInferenceEngine_init] in Hfs.
  assert (Hinit : calls = [] → e = SparseInferenceEngine_init cache_size_mb fs)
    by (intros Hnil; subst e; by rewrite Hnil).
  clearbody e.
  destruct (apply_edit_unfilled o time_time edit e Hu)
    as (e' & err & Hrun & Hu' & Hfs' & Hmax' & Hzero & Hnone & Hneg & Hpos).
  rewrite Hfs in Hzero, Hnone, Hneg, Hpos. fold s t in Hnone, Hneg, Hpos.
  fold changed in Hneg, Hpos. fold buffer in Hpos.
  pose proof Hu as [U1 U2 U3 U4 U5 U6]. pose proof Hu' as [V1 V2 V3 V4 V5 V6].
  split_and!; try done.
  exists e', err. split_and!; try done; try congruence.
  - intros [Hz|Hst].
    + destruct (Hzero Hz) as (? & ? & ? & _). done.
    + destruct (decide (fs = 0)) as [Hz|Hnz].
      * destruct (Hzero Hz) as (? & ? & ? & _). done.
      * destruct (Hnone Hnz Hst) as (? & ? & ? & _). done.
  - intros H1 H2. destruct (Hneg H1 H2) as (? & ? & ? & _). done.
  - intros H1 H2. destruct (Hpos H1 H2) as (Herr & x & rest & Hsorted & Hrec & Hcache & _).
    split; [done|]. exists x, rest. split_and!; try done.
    intros Hnil Hfit. rewrite Hcache, (Hinit Hnil).
    rewrite (Hinit Hnil) in Hfit.
    cbn [engine_cache SparseInferenceEngine_init clock] in Hfit |- *.
    rewrite invalidate_empty by done.
    rewrite put_empty by done. cbn [fst].
    assert (Hbytes : tensor_bytes buffer = 4 * fs).
    { unfold tensor_bytes, buffer. simpl. lia. }
    rewrite Hbytes.
    change (current_size_bytes (TemporalCache_init cache_size_mb "lru")) with 0.
    change (max_size_bytes (TemporalCache_init cache_size_mb "lru"))
      with (py_int_of_Q (cache_size_mb * 1024 * 1024)%Q) in Hfit |- *.
    rewrite decide_False by lia.
    done.
Qed.

Definition edit_frame_1 : EditOperation :=
  {| edit_id := "edit_2"; edit_type := "modify"; affected_region := (600, 700) |}.

Lemma apply_edit_before_generate_full_witness :
  (∃ e' x,
      apply_edit elements_order (λ k, Z.of_nat k) edit_frame_1
        (foldl (run_engine_op elements_order (λ k, Z.of_nat k))
           (SparseInferenceEngine_init 1000 512)
           [OpApplyEdit edit_frame_0; OpGenerateFull (-1)])
      = (e', Raise TypeError)
      ∧ recomputed e' = [x])
  ∧ (∃ e' x,
      apply_edit elements_order (λ k, Z.of_nat k) edit_frame_0
        (SparseInferenceEngine_init 1000 512) = (e', Raise TypeError)
      ∧ (cache (engine_cache e')).*1 = [x]
      ∧ current_size_bytes (engine_cache e') = 4 * 512)
  ∧ (∃ e',
      apply_edit elements_order (λ k, Z.of_nat k) edit_frame_0
        (SparseInferenceEngine_init 1000 0) = (e', Raise ZeroDivisionError)
      ∧ engine_cache e' = engine_cache (SparseInferenceEngine_init 1000 0))
  ∧ (∃ e',
      apply_edit elements_order (λ k, Z.of_nat k) edit_frame_0
        (SparseInferenceEngine_init 1000 (-512)) = (e', Raise RuntimeError)
      ∧ recomputed e' = []).
Proof.
  split_and!.
  - destruct (apply_edit_before_generate_full elements_order (λ k, Z.of_nat k)
                1000 512 [OpApplyEdit edit_frame_0; OpGenerateFull (-1)] edit_frame_1)
      as (_ & _ & _ & _ & e' & err & Hrun & _ & _ & _ & _ & _ & _ & _ & H).
    + split; [exact I|]. split; [|exact I]. intros audio. vm_compute. discriminate.
    + vm_compute. reflexivity.
    + vm_compute. reflexivity.
    + destruct H as (Herr & x & rest & _ & Hrec & _).
      * lia.
      * vm_compute. discriminate.
      * exists e', x. rewrite <- Herr. split; [exact Hrun|exact Hrec].
  - destruct (apply_edit_before_generate_full elements_order (λ k, Z.of_nat k)
                1000 512 [] edit_frame_0)
      as (_ & _ & _ & _ & e' & err & Hrun & _ & _ & _ & _ & _ & _ & _ & H).
    + exact I.
    + vm_compute. reflexivity.
    + vm_compute. reflexivity.
    + destruct H as (Herr & x & rest & _ & _ & _ & Hnew).
      * lia.
      * vm_compute. discriminate.
      * destruct Hnew as (Hc & Hs & _); [reflexivity|vm_compute; discriminate|].
        exists e', x. rewrite <- Herr. split; [exact Hrun|].
        split; [by rewrite Hc|exact Hs].
  - destruct (apply_edit_before_generate_full elements_order (λ k, Z.of_nat k)
                1000 0 [] edit_frame_0)
      as (_ & _ & _ & _ & e' & err & Hrun & _ & _ & _ & _ & _ & H & _).
    + exact I.
    + vm_compute. reflexivity.
    + vm_compute. reflexivity.
    + destruct H as (Herr & _ & Hc); [by left|].
      exists e'. rewrite <- Herr. split; [exact Hrun|exact Hc].
  - destruct (apply_edit_before_generate_full elements_order (λ k, Z.of_nat k)
                1000 (-512) [] edit_frame_0)
      as (_ & _ & _ & _ & e' & err & Hrun & _ & _ & _ & _ & _ & _ & H & _).
    + exact I.
    + vm_compute. reflexivity.
    + vm_compute. reflexivity.
    + destruct H as (Herr & Hrec & _); [lia|vm_compute; discriminate|].
      exists e'. rewrite <- Herr. split; [exact Hrun|exact Hrec].
Defined.

(** The claim C4 as the specification has it fails on the code: the call
    below, on a new engine, ends in [TypeError] with frame 0 stored in the
    cache, which was empty. *)
Lemma apply_edit_before_generate_full_mutates :
  let e := SparseInferenceEngine_init 1000 512 in
  let r := apply_edit elements_order (λ k, Z.of_nat k) edit_frame_0 e in
  r.2 = Raise TypeError
  ∧ cache (engine_cache e) = []
  ∧ current_size_bytes (engine_cache e) = 0
  ∧ (cache (engine_cache r.1)).*1 = ["frame_0"]
  ∧ current_size_bytes (engine_cache r.1) = 2048
  ∧ engine_cache r.1 ≠ engine_cache e.
Proof. split_and!; by vm_compute. Qed.
